(** * A shallow embedding of the sharded on-disk dataset store and of the
      array transformers (AGCN.utils.datatset.diskdataset and
      AGCN.utils.transformer.transformers).

    Stateful code is written with explicit state passing: a [DiskDataset]
    value carries the contents of the dataset directory together with the
    in-memory copy of the task list and of the metadata table.  Python
    exceptions are outcomes of a small error monad.  Calls to [np.random]
    take the permutation they draw as an argument. *)

From Stdlib Require Import QArith Qabs Reals Lra Lia.
From Stdlib Require Import Ascii.
From stdpp Require Import gmap strings list fin_maps pretty sorting.

Close Scope Q_scope.
Close Scope R_scope.
Local Open Scope string_scope.
Local Open Scope list_scope.
Local Open Scope nat_scope.

(** ** Outcomes of a call: a value, a raised exception, or a loop that never
       ends. *)

Inductive exn : Set :=
| IOError | ValueError | IndexError | AttributeError | TypeError
| AssertionError | ZeroDivisionError | NameError | NotImplementedError.

Inductive outcome (A : Type) : Type :=
| Ok (a : A)
| Raise (e : exn)
| Diverge.
Arguments Ok {A} a.
Arguments Raise {A} e.
Arguments Diverge {A}.

Global Instance outcome_ret : MRet outcome := @Ok.
Global Instance outcome_bind : MBind outcome := λ A B f c,
  match c with
  | Ok a => f a
  | Raise e => Raise e
  | Diverge => Diverge
  end.

Global Instance outcome_fmap : FMap outcome := λ A B f c,
  match c with
  | Ok a => Ok (f a)
  | Raise e => Raise e
  | Diverge => Diverge
  end.

Definition of_option {A} (e : exn) (o : option A) : outcome A :=
  match o with Some a => Ok a | None => Raise e end.

(** ** Arrays

    An array is the list of its entries along the first axis.  An entry is a
    number (an entry of a one-dimensional numeric array), an object (an entry
    of a one-dimensional object array such as the ids), a row of numbers
    (an entry of a two-dimensional float array such as X, y and w) or a row
    of objects (an entry of a two-dimensional object array, which is what
    [np.vstack] makes of None).  The element type of an array is not kept. *)

(** A Python object held by an object array. *)
Inductive object : Type :=
| PyNone
| PyNum (q : Q)
| PyStr (s : string).

Inductive cell : Type :=
| Num (q : Q)
| Obj (s : string)
| Row (cs : list Q)
| Objs (os : list object).

Abbreviation ndarray := (list cell).

(** [np.ones(a.shape)] *)
Definition ones_cell (c : cell) : cell :=
  match c with
  | Row cs => Row ((λ _, 1%Q) <$> cs)
  | Objs os => Row ((λ _, 1%Q) <$> os)
  | _ => Num 1%Q
  end.
Definition ones_like (a : ndarray) : ndarray := ones_cell <$> a.

(** [a[indices]] for a list of indices: out of range raises IndexError *)
Definition fancy_index {A} (a : list A) (indices : list nat) : outcome (list A) :=
  mapM (λ i, of_option IndexError (a !! i)) indices.

(** [np.arange(n)] *)
Definition arange (n : nat) : list nat := seq 0 n.

(** [np.linspace(0, stop, num, dtype=int)]: [num] evenly spaced points from 0
    to [stop], both included, truncated to integers.  The points are computed
    in exact arithmetic. *)
Definition linspace_int (stop num : nat) : list nat :=
  (λ i, i * stop / (num - 1)) <$> seq 0 num.

(** [np.ceil(float(n) / b)] for [b > 0] *)
Definition ceil_div (n b : nat) : nat := (n + b - 1) / b.

(** ** The dataset on disk (diskdataset.py) *)

Module DiskDataset.

(** One row of the metadata table; the columns are
    ('basename', 'task_names', 'ids', 'X', 'y', 'w'). *)
Record MetaRow : Type := mkMetaRow {
  col_basename : string;
  col_task_names : list string;
  col_ids : option string;
  col_X : option string;
  col_y : option string;
  col_w : option string
}.

(** The contents of a dataset directory.  The metadata table lives in the
    file metadata.joblib; every data file is named after a shard basename
    with one of the suffixes -X.joblib, -y.joblib, -w.joblib, -ids.joblib,
    so the two kinds of file never share a name and are kept apart here. *)
Record directory : Type := mkDirectory {
  metadata_file : option (list string * list MetaRow);
  data_files : gmap string ndarray
}.

Definition empty_directory : directory :=
  {| metadata_file := None; data_files := ∅ |}.

Record DiskDataset : Type := mkDiskDataset {
  data_dir : directory;
  tasks : list string;
  metadata_df : list MetaRow
}.

(** The tuple (X, y, w, ids) that [get_shard], [itershards] and
    [iterbatches] return: labels and weights may be None. *)
Record Shard : Type := mkShard {
  shard_X : ndarray;
  shard_y : option ndarray;
  shard_w : option ndarray;
  shard_ids : ndarray
}.

(** The tuple (X, y, w, ids) handed to [write_data_to_disk]: each part may be
    None. *)
Abbreviation raw_shard :=
  (option ndarray * option ndarray * option ndarray * option ndarray)%type.

Definition to_raw (s : Shard) : raw_shard :=
  (Some (shard_X s), shard_y s, shard_w s, Some (shard_ids s)).

(** [save_to_disk(array, os.path.join(data_dir, name))] *)
Definition save_array (a : ndarray) (name : string) (d : directory) : directory :=
  {| metadata_file := metadata_file d; data_files := <[name := a]> (data_files d) |}.

(** [load_from_disk(os.path.join(data_dir, name))] *)
Definition load_from_disk (d : directory) (name : string) : outcome ndarray :=
  of_option IOError (data_files d !! name).

(** [os.path.exists(os.path.join(data_dir, name))] *)
Definition path_exists (d : directory) (name : string) : bool :=
  bool_decide (is_Some (data_files d !! name)).

(** [os.path.join(data_dir, ref)] fails when the reference is None. *)
Definition join (ref : option string) : outcome string :=
  of_option TypeError ref.

Definition DiskDataset_init (d : directory) : outcome DiskDataset :=
  match metadata_file d with
  | Some (t, m) => Ok {| data_dir := d; tasks := t; metadata_df := m |}
  | None => Raise ValueError
  end.

Definition write_part (basename suffix : string) (part : option ndarray)
    (d : directory) : directory * option string :=
  match part with
  | Some a => let out := basename +:+ suffix in (save_array a out d, Some out)
  | None => (d, None)
  end.

Definition write_data_to_disk (d : directory) (basename : string)
    (tasks : list string) (X y w ids : option ndarray) : directory * MetaRow :=
  let '(d, out_X) := write_part basename "-X.joblib" X d in
  let '(d, out_y) := write_part basename "-y.joblib" y d in
  let '(d, out_w) := write_part basename "-w.joblib" w d in
  let '(d, out_ids) := write_part basename "-ids.joblib" ids d in
  (d, mkMetaRow basename tasks out_ids out_X out_y out_w).

(** ["shard-%d" % shard_num] *)
Definition shard_basename (shard_num : nat) : string :=
  "shard-" +:+ pretty shard_num.

(** The loop of [create_dataset] over [enumerate(shard_generator)]. *)
Fixpoint write_shards (d : directory) (tasks : list string) (shard_num : nat)
    (shard_generator : list raw_shard) : directory * list MetaRow :=
  match shard_generator with
  | [] => (d, [])
  | (X, y, w, ids) :: rest =>
      let '(d, row) :=
        write_data_to_disk d (shard_basename shard_num) tasks X y w ids in
      let '(d, rows) := write_shards d tasks (S shard_num) rest in
      (d, row :: rows)
  end.

Definition save_metadata (tasks : list string) (metadata_df : list MetaRow)
    (d : directory) : directory :=
  {| metadata_file := Some (tasks, metadata_df); data_files := data_files d |}.

Definition create_dataset (shard_generator : list raw_shard)
    (data_dir : directory) (tasks : list string) : outcome DiskDataset :=
  let '(d, metadata_rows) := write_shards data_dir tasks 0 shard_generator in
  DiskDataset_init (save_metadata tasks metadata_rows d).

Definition save_to_disk (ds : DiskDataset) : DiskDataset :=
  {| data_dir := save_metadata (tasks ds) (metadata_df ds) (data_dir ds);
     tasks := tasks ds; metadata_df := metadata_df ds |}.

Definition get_task_names (ds : DiskDataset) : list string := tasks ds.

Definition get_number_shards (ds : DiskDataset) : nat := length (metadata_df ds).

(** The weights of a shard, as both [get_shard] and [itershards] read them. *)
Definition load_weights (d : directory) (row : MetaRow) (y : option ndarray)
    : outcome (option ndarray) :=
  match col_w row with
  | Some w_filename =>
      if path_exists d w_filename then Some <$> load_from_disk d w_filename
      else match y with
           | Some y => Ok (Some (ones_like y))
           | None => Raise AttributeError
           end
  | None => Ok None
  end.

Definition load_labels (d : directory) (row : MetaRow) : outcome (option ndarray) :=
  match col_y row with
  | Some y_filename => Some <$> load_from_disk d y_filename
  | None => Ok None
  end.

Definition get_shard (ds : DiskDataset) (i : nat) : outcome Shard :=
  row ← of_option IndexError (metadata_df ds !! i);
  X ← join (col_X row) ≫= load_from_disk (data_dir ds);
  y ← load_labels (data_dir ds) row;
  w ← load_weights (data_dir ds) row y;
  ids ← join (col_ids row) ≫= load_from_disk (data_dir ds);
  Ok (mkShard X y w ids).

(** The body of the loop of [itershards]. *)
Definition itershards_row (ds : DiskDataset) (row : MetaRow) : outcome Shard :=
  X ← join (col_X row) ≫= load_from_disk (data_dir ds);
  ids ← join (col_ids row) ≫= load_from_disk (data_dir ds);
  y ← load_labels (data_dir ds) row;
  w ← load_weights (data_dir ds) row y;
  Ok (mkShard X y w ids).

Definition itershards (ds : DiskDataset) : outcome (list Shard) :=
  mapM (itershards_row ds) (metadata_df ds).

(** [__len__] *)
Definition len (ds : DiskDataset) : outcome nat :=
  foldl (λ acc row,
           total ← acc;
           y ← join (col_ids row) ≫= load_from_disk (data_dir ds);
           Ok (total + length y))
        (Ok 0) (metadata_df ds).

(** [np.shape] of one entry *)
Definition cell_shape (c : cell) : list nat :=
  match c with
  | Row cs => [length cs]
  | Objs os => [length os]
  | _ => []
  end.

Definition first_row (ds : DiskDataset) : outcome MetaRow :=
  of_option ValueError (head (metadata_df ds)).

Definition get_data_shape (ds : DiskDataset) : outcome (list nat) :=
  row ← first_row ds;
  X ← join (col_X row) ≫= load_from_disk (data_dir ds);
  sample_X ← of_option IndexError (X !! 0);
  Ok (cell_shape sample_X).

Definition get_shard_size (ds : DiskDataset) : outcome nat :=
  row ← first_row ds;
  sample_y ← join (col_y row) ≫= load_from_disk (data_dir ds);
  Ok (length sample_y).

(** *** reshard *)

(** The buffers (X_next, y_next, w_next, ids_next) of the generator. *)
Abbreviation buffers := (ndarray * ndarray * ndarray * ndarray)%type.

Definition buffers_raw (b : buffers) : raw_shard :=
  let '(X, y, w, ids) := b in (Some X, Some y, Some w, Some ids).

(** The inner [while len(X_next) > shard_size] loop: the shards it yields and
    the buffers it leaves.  Each round needs one unit of [fuel]; the loop is
    still running when the fuel is used up. *)
Fixpoint reshard_while (fuel shard_size : nat) (b : buffers)
    : outcome (list raw_shard * buffers) :=
  let '(X_next, y_next, w_next, ids_next) := b in
  if decide (shard_size < length X_next) then
    match fuel with
    | 0 => Diverge
    | S fuel =>
        let batch := (take shard_size X_next, take shard_size y_next,
                      take shard_size w_next, take shard_size ids_next) in
        let next := (drop shard_size X_next, drop shard_size y_next,
                     drop shard_size w_next, drop shard_size ids_next) in
        '(out, b') ← reshard_while fuel shard_size next;
        Ok (buffers_raw batch :: out, b')
    end
  else Ok ([], b).

(** The number of entries of a row; a number or an object is no row. *)
Definition row_width (c : cell) : option nat :=
  match c with
  | Row cs => Some (length cs)
  | Objs os => Some (length os)
  | _ => None
  end.

Definition is_row (c : cell) : bool := bool_decide (is_Some (row_width c)).

Definition number_of (c : cell) : option Q :=
  match c with Num q => Some q | _ => None end.

Definition object_of (c : cell) : option object :=
  match c with
  | Num q => Some (PyNum q)
  | Obj s => Some (PyStr s)
  | _ => None
  end.

(** The entries of a one-dimensional array as one row. *)
Definition as_row (a : ndarray) : option cell :=
  match mapM number_of a with
  | Some qs => Some (Row qs)
  | None => Objs <$> mapM object_of a
  end.

(** [np.atleast_2d(a)]: the rows of a two-dimensional array are left as they
    are, a one-dimensional array becomes a single row, and None becomes the
    row [[None]].  An array without entries is read as one without rows
    whose width is that of the buffer (a list does not record the width);
    a list that mixes rows and single entries is no array. *)
Definition atleast_2d (a : option ndarray) : outcome ndarray :=
  match a with
  | None => Ok [Objs [PyNone]]
  | Some a => if forallb is_row a then Ok a
              else (λ r, [r]) <$> of_option ValueError (as_row a)
  end.

(** [np.vstack([a_next, a])] for a buffer [a_next] whose rows have [width]
    entries: the arrays must agree in every dimension but the first. *)
Definition vstack (width : nat) (a_next : ndarray) (a : option ndarray)
    : outcome ndarray :=
  rows ← atleast_2d a;
  if forallb (λ r, bool_decide (row_width r = Some width)) rows
  then Ok (a_next ++ rows) else Raise ValueError.

(** [np.concatenate([ids_next, ids])] for the one-dimensional buffer of the
    ids: the arrays must have the same number of dimensions. *)
Definition concatenate (a_next a : ndarray) : outcome ndarray :=
  if forallb (λ c, negb (is_row c)) a then Ok (a_next ++ a)
  else Raise ValueError.

(** [np.zeros((0,) + shape)] as [np.vstack] takes it: the width of its rows
    and the rows themselves.  A buffer of shape (0,), which is what a
    dataset of single numbers or objects gives, is one-dimensional, and
    [np.atleast_2d] makes of it one row without entries. *)
Definition zeros_buffer (shape : list nat) : nat * ndarray :=
  match shape with
  | [] => (0, [Row []])
  | width :: _ => (width, [])
  end.

(** The outer loop of the generator over [self.itershards()], which reads
    the next shard only when the previous one has been dealt with.  The inner
    loop gets as much fuel as the buffer has rows: every round of it with a
    positive shard size removes at least one row, and with shard size 0 it
    leaves a non-empty buffer as it is and never ends. *)
Fixpoint reshard_for (ds : DiskDataset) (shard_size width : nat) (b : buffers)
    (rows : list MetaRow) : outcome (list raw_shard) :=
  match rows with
  | [] => Ok [buffers_raw b]
  | row :: rows =>
      let '(X_next, y_next, w_next, ids_next) := b in
      s ← itershards_row ds row;
      X_next ← vstack width X_next (Some (shard_X s));
      y_next ← vstack (length (get_task_names ds)) y_next (shard_y s);
      w_next ← vstack (length (get_task_names ds)) w_next (shard_w s);
      ids_next ← concatenate ids_next (shard_ids s);
      '(out, b') ← reshard_while (length X_next) shard_size
                     (X_next, y_next, w_next, ids_next);
      rest ← reshard_for ds shard_size width b' rows;
      Ok (out ++ rest)
  end.

Definition reshard_generator (ds : DiskDataset) (shard_size : nat)
    : outcome (list raw_shard) :=
  shape ← get_data_shape ds;
  let '(width, X_next) := zeros_buffer shape in
  reshard_for ds shard_size width (X_next, [], [], []) (metadata_df ds).

Definition reshard (ds : DiskDataset) (shard_size : nat) : outcome DiskDataset :=
  shards ← reshard_generator ds shard_size;
  resharded_dataset ← create_dataset shards empty_directory (tasks ds);
  Ok (save_to_disk {| data_dir := data_dir resharded_dataset;
                      tasks := tasks ds;
                      metadata_df := metadata_df resharded_dataset |}).

(** *** Random draws

    [permutation k n] is the result of the k-th call of
    [np.random.permutation(n)] in an iteration, [shuffle n] the order in
    which [random.shuffle] leaves a list of [n] elements. *)
Record RandomState : Type := mkRandomState {
  permutation : nat → nat → list nat;
  shuffle : nat → list nat
}.

Definition valid_random (rng : RandomState) : Prop :=
  (∀ k n, permutation rng k n ≡ₚ seq 0 n) ∧ (∀ n, shuffle rng n ≡ₚ seq 0 n).

(** The list [l] in the order [order]. *)
Definition reorder {A} (order : list nat) (l : list A) : list A :=
  omap (λ i, l !! i) order.

(** *** shuffle_shards, set_shard *)

Definition shuffle_shards (rng : RandomState) (ds : DiskDataset) : DiskDataset :=
  let metadata_rows := metadata_df ds in
  let metadata_rows := reorder (shuffle rng (length metadata_rows)) metadata_rows in
  save_to_disk {| data_dir := data_dir ds; tasks := tasks ds;
                  metadata_df := metadata_rows |}.

Definition set_shard (ds : DiskDataset) (shard_num : nat)
    (X y w ids : option ndarray) : DiskDataset :=
  let basename := shard_basename shard_num in
  let tasks := get_task_names ds in
  let '(d, _) := write_data_to_disk (data_dir ds) basename tasks X y w ids in
  {| data_dir := d; tasks := DiskDataset.tasks ds; metadata_df := metadata_df ds |}.

(** *** iterbatches *)

(** Modelled from the spec: [Dataset.pad_batch], which is defined in the
    [Dataset] base class and not in this file.  A batch is padded with
    wrap-around repetition of its own rows up to exactly [batch_size] rows;
    a batch that already has that many rows is returned as it is. *)
Definition pad_rows {A} (batch_size : nat) (a : list A) : list A :=
  a ++ omap (λ i, a !! (i mod length a)) (seq (length a) (batch_size - length a)).

Definition pad_batch (batch_size : nat) (b : Shard) : Shard :=
  {| shard_X := pad_rows batch_size (shard_X b);
     shard_y := pad_rows batch_size <$> shard_y b;
     shard_w := pad_rows batch_size <$> shard_w b;
     shard_ids := pad_rows batch_size (shard_ids b) |}.

(** [a[perm_indices]] for an array that may be None *)
Definition fancy_index_opt (a : option ndarray) (perm_indices : list nat)
    : outcome (option ndarray) :=
  match a with
  | Some a => Some <$> fancy_index a perm_indices
  | None => Ok None
  end.

(** [range(interval_points[j], interval_points[j + 1])] for every j *)
Definition interval_ranges (interval_points : list nat) : list (list nat) :=
  zip_with (λ lo hi, seq lo (hi - lo)) interval_points (tail interval_points).

(** The body of the loop over the intervals of one shard. *)
Definition iterbatches_interval (s : Shard) (sample_perm : list nat)
    (shard_batch_size : nat) (pad_batches : bool) (indices : list nat)
    : outcome Shard :=
  perm_indices ← fancy_index sample_perm indices;
  X_batch ← fancy_index (shard_X s) perm_indices;
  y_batch ← fancy_index_opt (shard_y s) perm_indices;
  w_batch ← fancy_index_opt (shard_w s) perm_indices;
  ids_batch ← fancy_index (shard_ids s) perm_indices;
  let batch := mkShard X_batch y_batch w_batch ids_batch in
  Ok (if pad_batches then pad_batch shard_batch_size batch else batch).

(** The body of the loop over the shards, for the i-th round. *)
Definition iterbatches_shard (ds : DiskDataset) (batch_size : option nat)
    (deterministic pad_batches : bool) (rng : RandomState)
    (shard_perm : list nat) (i : nat) : outcome (list Shard) :=
  shard_num ← of_option IndexError (shard_perm !! i);
  s ← get_shard ds shard_num;
  let n_samples := length (shard_X s) in
  if decide (n_samples = 0) then Ok []
  else
    let sample_perm :=
      if deterministic then arange n_samples
      else permutation rng (S i) n_samples in
    let shard_batch_size := default n_samples batch_size in
    if decide (shard_batch_size = 0) then Raise ZeroDivisionError
    else
      let interval_points :=
        linspace_int n_samples (ceil_div n_samples shard_batch_size + 1) in
      mapM (iterbatches_interval s sample_perm shard_batch_size pad_batches)
           (interval_ranges interval_points).

Definition iterbatches (ds : DiskDataset) (batch_size : option nat)
    (deterministic pad_batches : bool) (rng : RandomState)
    : outcome (list Shard) :=
  let num_shards := get_number_shards ds in
  let shard_perm :=
    if deterministic then arange num_shards
    else permutation rng 0 num_shards in
  @concat Shard <$> mapM (iterbatches_shard ds batch_size deterministic pad_batches
                     rng shard_perm) (seq 0 num_shards).

(** The samples of a shard or batch, one tuple (x, y, w, id) per row. *)
Abbreviation sample := (cell * option cell * option cell * cell)%type.

Definition column (a : option ndarray) (n : nat) : list (option cell) :=
  match a with
  | Some a => Some <$> a
  | None => replicate n None
  end.

Definition samples (s : Shard) : list sample :=
  let n := length (shard_X s) in
  zip (zip (zip (shard_X s) (column (shard_y s) n)) (column (shard_w s) n))
      (shard_ids s).

(** The four arrays of a shard have the same number of rows. *)
Definition aligned (s : Shard) : Prop :=
  length (shard_ids s) = length (shard_X s)
  ∧ (∀ y, shard_y s = Some y → length y = length (shard_X s))
  ∧ (∀ w, shard_w s = Some w → length w = length (shard_X s)).

End DiskDataset.

(** ** Floating-point values (transformers.py computes on float arrays)

    A value is a real number, an infinity or NaN; the special values follow
    IEEE 754 as numpy does, and the sign of zero is left out.  [add], [sub],
    [mul], [div], [log], [exp] and [power] give the exact result of an
    operation; [fadd], [fsub], [fmul], [fdiv], [flog], [fexp] and [fpower]
    are the operations of numpy on doubles, which round the exact result to
    binary64. *)

Module Float.

Inductive float : Type :=
| Fin (r : R)
| PInf
| NInf
| NaN.

(** -1, 0 or 1 *)
Definition sgn (r : R) : comparison :=
  match total_order_T r 0 with
  | inleft (left _) => Lt
  | inleft (right _) => Eq
  | inright _ => Gt
  end.

Definition inf_of (c : comparison) : float :=
  match c with Lt => NInf | Eq => NaN | Gt => PInf end.

Definition flip (c : comparison) : comparison := CompOpp c.

Definition neg (a : float) : float :=
  match a with
  | Fin x => Fin (- x)
  | PInf => NInf
  | NInf => PInf
  | NaN => NaN
  end.

Definition add (a b : float) : float :=
  match a, b with
  | NaN, _ | _, NaN => NaN
  | Fin x, Fin y => Fin (x + y)
  | PInf, NInf | NInf, PInf => NaN
  | PInf, _ | _, PInf => PInf
  | NInf, _ | _, NInf => NInf
  end.

Definition sub (a b : float) : float := add a (neg b).

Definition mul (a b : float) : float :=
  match a, b with
  | NaN, _ | _, NaN => NaN
  | Fin x, Fin y => Fin (x * y)
  | Fin x, PInf | PInf, Fin x => inf_of (sgn x)
  | Fin x, NInf | NInf, Fin x => inf_of (flip (sgn x))
  | PInf, PInf | NInf, NInf => PInf
  | PInf, NInf | NInf, PInf => NInf
  end.

Definition div (a b : float) : float :=
  match a, b with
  | NaN, _ | _, NaN => NaN
  | Fin x, Fin y =>
      match sgn y with
      | Eq => inf_of (sgn x)
      | _ => Fin (x / y)
      end
  | Fin _, _ => Fin 0
  | PInf, Fin y => match sgn y with Lt => NInf | _ => PInf end
  | NInf, Fin y => match sgn y with Lt => PInf | _ => NInf end
  | _, _ => NaN
  end.

(** The logarithm *)
Definition log (a : float) : float :=
  match a with
  | Fin x =>
      match sgn x with
      | Gt => Fin (ln x)
      | Eq => NInf
      | Lt => NaN
      end
  | PInf => PInf
  | _ => NaN
  end.

(** The exponential *)
Definition exp (a : float) : float :=
  match a with
  | Fin x => Fin (Rtrigo_def.exp x)
  | PInf => PInf
  | NInf => Fin 0
  | NaN => NaN
  end.

(** The largest finite double, [sys.float_info.max]. *)
Definition float_max : R := (2 - (/ 2) ^ 52) * 2 ^ 1023.

(** [np.nan_to_num] *)
Definition nan_to_num (a : float) : float :=
  match a with
  | NaN => Fin 0
  | PInf => Fin float_max
  | NInf => Fin (- float_max)
  | Fin x => Fin x
  end.

(** The integer that the real [p] is, if it is one. *)
Definition as_integer (p : R) : option Z :=
  if Req_EM_T (IZR (Int_part p)) p then Some (Int_part p) else None.

(** [a] to the power [p] for a real exponent [p] *)
Definition power (a : float) (p : R) : float :=
  match sgn p with
  | Eq => Fin 1
  | sp =>
      match a with
      | NaN => NaN
      | Fin x =>
          match sgn x with
          | Gt => Fin (Rpower x p)
          | Eq => match sp with Gt => Fin 0 | _ => PInf end
          | Lt => match as_integer p with
                  | Some k => Fin (powerRZ x k)
                  | None => NaN
                  end
          end
      | PInf => match sp with Gt => PInf | _ => Fin 0 end
      | NInf =>
          match sp, as_integer p with
          | Gt, Some k => if Z.odd k then NInf else PInf
          | Gt, None => PInf
          | _, _ => Fin 0
          end
      end
  end.

(** [a == 0] *)
Definition is_zero (a : float) : bool :=
  match a with
  | Fin x => match sgn x with Eq => true | _ => false end
  | _ => false
  end.

(** *** Rounding to binary64

    A double is a whole multiple of a power of two, with at most 53 binary
    digits and an exponent of at least -1074.  An operation returns the
    double nearest to its exact result, the one with the even last digit at
    a tie, and an infinity when that is beyond the largest double. *)

(** The exponent of the last binary place of the doubles around [x]: 52
    places below the leading digit of [x], and not below the exponent -1074
    of the subnormal numbers. *)
Definition ulp_exponent (x : R) : Z :=
  Z.max (Int_part (ln (Rabs x) / ln 2) - 52) (-1074).

(** The nearest integer, the even one of the two at a tie. *)
Definition nearest_even (x : R) : Z :=
  let f := Int_part x in
  match total_order_T (x - IZR f) (/ 2) with
  | inleft (left _) => f
  | inleft (right _) => if Z.even f then f else (f + 1)%Z
  | inright _ => (f + 1)%Z
  end.

(** The multiple of the last place that is nearest to [x]. *)
Definition round (x : R) : R :=
  let e := ulp_exponent x in
  (IZR (nearest_even (x / powerRZ 2 e)) * powerRZ 2 e)%R.

Definition rounded (x : R) : float :=
  if Rle_dec (Rabs (round x)) float_max then Fin (round x) else inf_of (sgn x).

Definition rnd (a : float) : float :=
  match a with
  | Fin x => rounded x
  | _ => a
  end.

(** [a + b], [a - b], [a * b] and [a / b] on doubles *)
Definition fadd (a b : float) : float := rnd (add a b).
Definition fsub (a b : float) : float := rnd (sub a b).
Definition fmul (a b : float) : float := rnd (mul a b).
Definition fdiv (a b : float) : float := rnd (div a b).

(** [np.log], [np.exp] and [np.power(a, p)], taken to return the double
    nearest to the exact value. *)
Definition flog (a : float) : float := rnd (log a).
Definition fexp (a : float) : float := rnd (exp a).
Definition fpower (a : float) (p : R) : float := rnd (power a p).

End Float.

(** ** Transformers (transformers.py) *)

Module Transformers.
Import Float.

(** A two-dimensional float array, as the list of its rows. *)
Abbreviation matrix := (list (list float)).

(** [M op v] for a matrix and a vector with one entry per column
    (broadcasting over the rows). *)
Definition broadcast (op : float → float → float) (M : matrix)
    (v : list float) : outcome matrix :=
  mapM (λ row, if decide (length row = length v)
               then Ok (zip_with op row v) else Raise ValueError) M.

Definition map_matrix (f : float → float) (M : matrix) : matrix :=
  (λ row : list float, f <$> row) <$> M.

(** [len(X[0])] *)
Definition len_first (M : matrix) : outcome nat :=
  length <$> of_option IndexError (M !! 0).

(** The loop [for j in range(n): if j in cols: M[:, j] = f(M[:, j])]. *)
Definition map_columns (f : float → float) (n : nat) (cols : list nat)
    (M : matrix) : matrix :=
  (λ row : list float,
     imap (λ j x, if decide (j < n ∧ j ∈ cols) then f x else x) row) <$> M.

(** *** class Transformer *)

Record Transformer : Type := mkTransformer {
  transform_X : bool;
  transform_y : bool;
  transform_w : bool
}.

Definition assert (b : bool) : outcome unit :=
  if b then Ok () else Raise AssertionError.

Definition Transformer_init (transform_X transform_y transform_w : bool)
    : outcome Transformer :=
  _ ← assert (transform_X || transform_y || transform_w);
  _ ← assert (Nat.b2n transform_X + Nat.b2n transform_y + Nat.b2n transform_w =? 1);
  Ok (mkTransformer transform_X transform_y transform_w).

(** *** class NormalizationTransformer

    [dataset.get_statistics] belongs to the [Dataset] base class; the means
    and standard deviations it returns are arguments of the constructor.
    [transform_gradients] is left at its default, False. *)
Module NormalizationTransformer.

Record t : Type := mk {
  base : Transformer;
  X_stats : option (list float * list float);
  y_stats : option (list float * list float)
}.

Definition init (transform_X transform_y transform_w : bool)
    (X_statistics y_statistics : list float * list float) : outcome t :=
  base ← Transformer_init transform_X transform_y transform_w;
  if transform_X then Ok (mk base (Some X_statistics) None)
  else if transform_y then
    let '(y_means, y_stds) := y_statistics in
    let y_stds := (λ s, if is_zero s then Fin 1 else s) <$> y_stds in
    Ok (mk base None (Some (y_means, y_stds)))
  else Ok (mk base None None).

Definition normalize (stats : option (list float * list float)) (M : matrix)
    : outcome matrix :=
  '(means, stds) ← of_option AttributeError stats;
  centred ← broadcast fsub M means;
  map_matrix nan_to_num <$> broadcast fdiv centred stds.

Definition transform_array (self : t) (X y w : matrix)
    : outcome (matrix * matrix * matrix) :=
  X ← (if transform_X (base self) then normalize (X_stats self) X else Ok X);
  y ← (if transform_y (base self) then normalize (y_stats self) y else Ok y);
  Ok (X, y, w).

Definition denormalize (stats : option (list float * list float)) (z : matrix)
    : outcome matrix :=
  '(means, stds) ← of_option AttributeError stats;
  scaled ← broadcast fmul z stds;
  broadcast fadd scaled means.

(** The result is None when neither X nor y is transformed. *)
Definition untransform (self : t) (z : matrix) : outcome (option matrix) :=
  if transform_X (base self) then Some <$> denormalize (X_stats self) z
  else if transform_y (base self) then Some <$> denormalize (y_stats self) z
  else Ok None.

End NormalizationTransformer.

(** *** class ClippingTransformer (constructor) *)
Module ClippingTransformer.

Record t : Type := mk { base : Transformer; x_max : float; y_max : float }.

Definition init (transform_X transform_y transform_w : bool)
    (x_max y_max : float) : outcome t :=
  base ← Transformer_init transform_X transform_y transform_w;
  _ ← assert (negb transform_w);
  Ok (mk base x_max y_max).

End ClippingTransformer.

(** *** class LogTransformer *)
Module LogTransformer.

Record t : Type := mk {
  base : Transformer;
  features : option (list nat);
  tasks : option (list nat)
}.

Definition init (transform_X transform_y : bool)
    (features tasks : option (list nat)) : outcome t :=
  base ← Transformer_init transform_X transform_y false;
  Ok (mk base features tasks).

(** [np.log(x + 1)] and [np.exp(x) - 1] *)
Definition log1 (x : float) : float := flog (fadd x (Fin 1)).
Definition exp1 (x : float) : float := fsub (fexp x) (Fin 1).

Definition on_columns (f : float → float) (cols : option (list nat))
    (M : matrix) : outcome matrix :=
  num ← len_first M;
  match cols with
  | None => Ok (map_matrix f M)
  | Some cols => Ok (map_columns f num cols M)
  end.

Definition transform_array (self : t) (X y w : matrix)
    : outcome (matrix * matrix * matrix) :=
  X ← (if transform_X (base self) then on_columns log1 (features self) X else Ok X);
  y ← (if transform_y (base self) then on_columns log1 (tasks self) y else Ok y);
  Ok (X, y, w).

Definition untransform (self : t) (z : matrix) : outcome (option matrix) :=
  if transform_X (base self) then Some <$> on_columns exp1 (features self) z
  else if transform_y (base self) then Some <$> on_columns exp1 (tasks self) z
  else Ok None.

End LogTransformer.

(** *** class CDFTransformer (constructor)

    [dataset] stands for the reference dataset, given by its labels;
    None is Python's None. *)
Module CDFTransformer.

Record t : Type := mk {
  transform_X : bool;
  transform_y : bool;
  bins : nat;
  y : matrix
}.

Definition init (transform_X transform_y : bool) (dataset : option matrix)
    (bins : nat) : outcome t :=
  y ← of_option AttributeError dataset;
  Ok (mk transform_X transform_y bins y).

End CDFTransformer.

(** *** class PowerTransformer *)
Module PowerTransformer.

Record t : Type := mk {
  transform_X : bool;
  transform_y : bool;
  powers : list R
}.

Definition init (transform_X transform_y : bool) (powers : list R) : outcome t :=
  Ok (mk transform_X transform_y powers).

(** What [NumpyDataset(X, y, w, ids)] holds. *)
Record NumpyDataset : Type := mkNumpyDataset {
  X : matrix;
  y : matrix;
  w : matrix;
  ids : list string
}.

(** [np.hstack((A, B))] *)
Definition hstack (A B : matrix) : outcome matrix :=
  if decide (length A = length B) then Ok (zip_with app A B)
  else Raise ValueError.

Definition np_power (M : matrix) (p : R) : matrix :=
  map_matrix (λ x, fpower x p) M.

(** [np.power(M, powers[0])] followed by the loop that stacks the other
    powers to its right. *)
Definition expand (powers : list R) (M : matrix) : outcome matrix :=
  p0 ← of_option IndexError (powers !! 0);
  foldl (λ acc p, M_t ← acc; hstack M_t (np_power M p))
        (Ok (np_power M p0)) (drop 1 powers).

(** [X_t] and [y_t] are bound only in the branches; a name that was never
    bound raises. *)
Definition transform (self : t) (dataset : NumpyDataset) : outcome NumpyDataset :=
  bound ← (if transform_X self
           then X_t ← expand (powers self) (X dataset);
                Ok (Some (X_t, y dataset))
           else Ok None);
  bound ← (if transform_y self
           then y_t ← expand (powers self) (y dataset);
                Ok (Some (X dataset, y_t))
           else Ok bound);
  '(X_t, y_t) ← of_option NameError bound;
  Ok (mkNumpyDataset X_t y_t (w dataset) (ids dataset)).

(** [z.shape[1]] *)
Definition width (z : matrix) : nat := default 0 (length <$> head z).

(** [a / b] for two ints.  The module begins with [from __future__ import
    division], so the quotient is a float, also when [b] divides [a]. *)
Definition true_divide (a b : nat) : outcome R :=
  if decide (b = 0) then Raise ZeroDivisionError else Ok (INR a / INR b)%R.

(** The bound of a slice: an int, or a float. *)
Inductive slice_bound : Type :=
| IntBound (n : nat)
| FloatBound (x : R).

(** [z[:, :stop]]: numpy (from version 1.12 on) takes no float as the bound
    of a slice, whatever its value. *)
Definition columns_before (stop : slice_bound) (z : matrix) : outcome matrix :=
  match stop with
  | IntBound n => Ok (take n <$> z)
  | FloatBound _ => Raise TypeError
  end.

Definition untransform (self : t) (z : matrix) : outcome matrix :=
  let n_powers := length (powers self) in
  orig_len ← true_divide (width z) n_powers;
  z ← columns_before (FloatBound orig_len) z;
  p0 ← of_option IndexError (powers self !! 0);
  _ ← (if Req_EM_T p0 0 then Raise ZeroDivisionError else Ok ());
  Ok (np_power z (1 / p0)).

End PowerTransformer.

(** *** class BalancingTransformer

    The labels and weights are only compared with 0 and 1, and the weights
    computed are quotients of two counts: the entries are rationals. *)
Module BalancingTransformer.

Abbreviation qmatrix := (list (list Q)).

(** The reference dataset: [dataset.y], [dataset.w] and
    [dataset.get_task_names()]. *)
Record Dataset : Type := mkDataset {
  y : qmatrix;
  w : qmatrix;
  task_names : list string
}.

Record t : Type := mk {
  base : Transformer;
  dataset : Dataset;
  weights : list (Q * Q)
}.

(** [M[:, ind]] *)
Definition column (M : qmatrix) (ind : nat) : outcome (list Q) :=
  mapM (λ row : list Q, of_option IndexError (row !! ind)) M.

(** [sorted(np.unique(M))]: the distinct entries in increasing order *)
Fixpoint insert_unique (q : Q) (l : list Q) : list Q :=
  match l with
  | [] => [q]
  | h :: rest =>
      if Qeq_bool q h then l
      else if Qle_bool q h then q :: l
      else h :: insert_unique q rest
  end.

Definition unique (M : qmatrix) : list Q := foldr insert_unique [] (concat M).

(** [np.testing.assert_allclose(actual, desired)] with its default
    [rtol=1e-07] and [atol=0] *)
Definition rtol : Q := 1 # 10000000.

Definition assert_allclose (actual desired : list Q) : outcome unit :=
  assert (bool_decide (length actual = length desired)
          && forallb (λ ad : Q * Q, Qle_bool (Qabs (ad.1 - ad.2)) (rtol * Qabs ad.2))
                     (zip actual desired)).

Definition nonzero (q : Q) : bool := negb (Qeq_bool q 0).

(** [a[mask]] for a boolean mask *)
Definition mask_select (a : list Q) (mask : list bool) : outcome (list Q) :=
  if decide (length a = length mask)
  then Ok ((λ am : Q * bool, am.1) <$> filter (λ am : Q * bool, am.2 = true) (zip a mask))
  else Raise IndexError.

(** The body of the loop of the constructor over the tasks. *)
Definition task_weights (y w : qmatrix) (ind : nat) : outcome (Q * Q) :=
  task_w ← column w ind;
  task_y ← column y ind;
  task_y ← mask_select task_y (nonzero <$> task_w);
  let num_positives := length (filter (λ q, nonzero q = true) task_y) in
  let num_negatives := length task_y - num_positives in
  let pos_weight :=
    if decide (0 < num_positives)
    then (inject_Z (Z.of_nat num_negatives) / inject_Z (Z.of_nat num_positives))%Q
    else 1%Q in
  let neg_weight := 1%Q in
  Ok (neg_weight, pos_weight).

Definition init (transform_X transform_y transform_w : bool)
    (dataset : option Dataset) : outcome t :=
  base ← Transformer_init transform_X transform_y transform_w;
  _ ← assert (negb transform_X);
  _ ← assert (negb transform_y);
  _ ← assert transform_w;
  dataset ← of_option AttributeError dataset;
  _ ← assert_allclose (unique (y dataset)) [0%Q; 1%Q];
  weights ← mapM (task_weights (y dataset) (w dataset))
                 (seq 0 (length (task_names dataset)));
  Ok (mk base dataset weights).

(** [M[mask, ind] = v] *)
Definition assign (M : qmatrix) (mask : list bool) (ind : nat) (v : Q)
    : outcome qmatrix :=
  if decide (length M = length mask)
  then Ok (zip_with (λ (row : list Q) (b : bool), if b then <[ind := v]> row else row)
                    M mask)
  else Raise IndexError.

(** [np.logical_and(a == c, b != 0)] *)
Definition class_indices (c : Q) (task_y task_w : list Q) : outcome (list bool) :=
  if decide (length task_y = length task_w)
  then Ok (zip_with (λ a b, Qeq_bool a c && nonzero b) task_y task_w)
  else Raise ValueError.

(** The body of the loop of [transform_array] over the tasks. *)
Definition balance_task (self : t) (y w : qmatrix) (w_balanced : outcome qmatrix)
    (ind : nat) : outcome qmatrix :=
  w_balanced ← w_balanced;
  task_y ← column y ind;
  task_w ← column w ind;
  zero_indices ← class_indices 0 task_y task_w;
  one_indices ← class_indices 1 task_y task_w;
  weight ← of_option IndexError (weights self !! ind);
  w_balanced ← assign w_balanced zero_indices ind weight.1;
  assign w_balanced one_indices ind weight.2.

Definition zeros_like (M : qmatrix) : qmatrix :=
  (λ row : list Q, (λ _, 0%Q) <$> row) <$> M.

Definition transform_array {A} (self : t) (X : A) (y w : qmatrix)
    : outcome (A * qmatrix * qmatrix) :=
  w_balanced ← foldl (balance_task self y w) (Ok (zeros_like w))
                     (seq 0 (length (task_names (dataset self))));
  Ok (X, y, w_balanced).

End BalancingTransformer.

End Transformers.

(** * Further operations of the dataset (diskdataset.py) *)

Module DiskDatasetOps.
Import DiskDataset.

(** ** add_shard *)

Definition add_shard (ds : DiskDataset) (X y w ids : option ndarray)
    : DiskDataset :=
  let metadata_rows := metadata_df ds in
  let shard_num := length metadata_rows in
  let basename := shard_basename shard_num in
  let tasks := get_task_names ds in
  let '(d, row) := write_data_to_disk (data_dir ds) basename tasks X y w ids in
  save_to_disk {| data_dir := d; tasks := DiskDataset.tasks ds;
                  metadata_df := metadata_rows ++ [row] |}.

(** ** itersamples *)

(** [sanitize(elem)] for the i-th row *)
Definition sanitize (elem : option ndarray) (i : nat) : outcome (option cell) :=
  match elem with
  | None => Ok None
  | Some a => Some <$> of_option IndexError (a !! i)
  end.

(** The samples of one shard, for [i] in [range(n_samples)]. *)
Definition itersamples_shard (s : Shard) : outcome (list sample) :=
  let n_samples := length (shard_X s) in
  mapM (λ i,
          x ← of_option IndexError (shard_X s !! i);
          y ← sanitize (shard_y s) i;
          w ← sanitize (shard_w s) i;
          id ← of_option IndexError (shard_ids s !! i);
          Ok (x, y, w, id))
       (seq 0 n_samples).

Definition itersamples (ds : DiskDataset) : outcome (list sample) :=
  @concat sample
  <$> mapM (λ row, itershards_row ds row ≫= itersamples_shard) (metadata_df ds).

(** ** transform and subset

    The new dataset is written to [out_dir], a directory other than the one
    of the dataset itself. *)

Definition transform (ds : DiskDataset)
    (fn : ndarray → option ndarray → option ndarray
          → option ndarray * option ndarray * option ndarray)
    (out_dir : directory) : outcome DiskDataset :=
  let tasks := get_task_names ds in
  shards ← mapM (λ shard_num,
                   s ← get_shard ds shard_num;
                   let '(newx, newy, neww) :=
                     fn (shard_X s) (shard_y s) (shard_w s) in
                   Ok (newx, newy, neww, Some (shard_ids s)))
                (seq 0 (length (metadata_df ds)));
  create_dataset shards out_dir tasks.

Definition subset (ds : DiskDataset) (shard_nums : list nat)
    (subset_dir : directory) : outcome DiskDataset :=
  let tasks := get_task_names ds in
  shards ← mapM (λ shard_num, to_raw <$> get_shard ds shard_num)
                (filter (λ shard_num, shard_num ∈ shard_nums)
                        (seq 0 (length (metadata_df ds))));
  create_dataset shards subset_dir tasks.

(** ** shuffle_each_shard *)

(** [a[permutation]] where [a] may be None, which cannot be indexed *)
Definition index_present (a : option ndarray) (permutation : list nat)
    : outcome ndarray :=
  match a with
  | Some a => fancy_index a permutation
  | None => Raise TypeError
  end.

(** The body of the loop, for the i-th row; the permutation is the i-th
    draw. *)
Definition shuffle_shard (rng : RandomState) (ds : DiskDataset) (i : nat)
    : outcome DiskDataset :=
  let tasks := get_task_names ds in
  row ← of_option IndexError (metadata_df ds !! i);
  let basename := col_basename row in
  s ← get_shard ds i;
  let n := length (shard_X s) in
  let permutation := permutation rng i n in
  X ← fancy_index (shard_X s) permutation;
  y ← index_present (shard_y s) permutation;
  w ← index_present (shard_w s) permutation;
  ids ← fancy_index (shard_ids s) permutation;
  let '(d, _) := write_data_to_disk (data_dir ds) basename tasks
                   (Some X) (Some y) (Some w) (Some ids) in
  Ok {| data_dir := d; tasks := DiskDataset.tasks ds;
        metadata_df := metadata_df ds |}.

Definition shuffle_each_shard (rng : RandomState) (ds : DiskDataset)
    : outcome DiskDataset :=
  let n_rows := length (metadata_df ds) in
  foldl (λ acc i, ds ← acc; shuffle_shard rng ds i) (Ok ds) (seq 0 n_rows).

(** ** select *)

(** The loop [while indices[indices_count + num_shard_elts] < count +
    shard_len], which counts the indices below the bound from
    [indices_count] on and stops at the end of [indices]; [rest] is
    [indices[indices_count:]]. *)
Fixpoint num_shard_elts (bound : nat) (rest : list nat) : nat :=
  match rest with
  | [] => 0
  | i :: rest => if decide (i < bound) then S (num_shard_elts bound rest) else 0
  end.

(** The loop of the generator over [enumerate(self.itershards())]; [rest] is
    [indices[indices_count:]], which is not empty when a round begins. *)
Fixpoint select_for (ds : DiskDataset) (rest : list nat) (count : nat)
    (rows : list MetaRow) : outcome (list raw_shard) :=
  match rows with
  | [] => Ok []
  | row :: rows =>
      s ← itershards_row ds row;
      let shard_len := length (shard_X s) in
      let n := num_shard_elts (count + shard_len) rest in
      let shard_inds := (λ i, i - count) <$> take n rest in
      X_sel ← fancy_index (shard_X s) shard_inds;
      y_sel ← index_present (shard_y s) shard_inds;
      w_sel ← index_present (shard_w s) shard_inds;
      ids_sel ← fancy_index (shard_ids s) shard_inds;
      let shard := (Some X_sel, Some y_sel, Some w_sel, Some ids_sel) in
      if decide (length (drop n rest) = 0) then Ok [shard]
      else (shard ::.) <$> select_for ds (drop n rest) (count + shard_len) rows
  end.

(** [indices] are row numbers, not negative. *)
Definition select (ds : DiskDataset) (indices : list nat)
    (select_dir : directory) : outcome DiskDataset :=
  if decide (length indices = 0) then create_dataset [] select_dir []
  else
    let indices := merge_sort (≤) indices in
    let tasks := get_task_names ds in
    shards ← select_for ds indices 0 (metadata_df ds);
    create_dataset shards select_dir tasks.

End DiskDatasetOps.

(** * Padding at prediction time (singletask_classifier.py) *)

Module SingletaskGraphClassifier.

(** An entry of [np.zeros] with the shape of the entry [c] *)
Definition zeros_cell (c : cell) : cell :=
  match c with
  | Row cs => Row ((λ _, 0%Q) <$> cs)
  | Objs os => Row ((λ _, 0%Q) <$> os)
  | _ => Num 0%Q
  end.

(** [np.zeros((batch_size,) + X_b.shape[1:])] for an array with a first
    entry *)
Definition zeros_out (batch_size : nat) (X_b : ndarray) : ndarray :=
  match X_b with
  | c :: _ => replicate batch_size (zeros_cell c)
  | [] => []
  end.

(** [X_out[start:start + increment] = X_b[:increment]] *)
Definition assign_slice (X_out : ndarray) (start increment : nat)
    (X_b : ndarray) : ndarray :=
  take start X_out ++ take increment X_b ++ drop (start + increment) X_out.

(** The loop [while start < batch_size]; each round needs one unit of
    [fuel], and the loop is still running when the fuel is used up. *)
Fixpoint pad_graphs_while (fuel batch_size : nat) (X_b X_out : ndarray)
    (start : nat) : outcome ndarray :=
  if decide (start < batch_size) then
    match fuel with
    | 0 => Diverge
    | S fuel =>
        let num_samples := length X_b in
        let num_left := batch_size - start in
        let increment :=
          if decide (num_left < num_samples) then num_left else num_samples in
        pad_graphs_while fuel batch_size X_b
          (assign_slice X_out start increment X_b) (start + increment)
    end
  else Ok X_out.

(** The loop gets [batch_size] units of fuel: a round with a sample in [X_b]
    moves [start] on by at least one, and without one it leaves [start] where
    it is and the loop never ends. *)
Definition pad_graphs (batch_size : nat) (X_b : ndarray) : outcome ndarray :=
  let num_samples := length X_b in
  if decide (num_samples = batch_size) then Ok X_b
  else pad_graphs_while batch_size batch_size X_b (zeros_out batch_size X_b) 0.

End SingletaskGraphClassifier.

(** * Further transformer code (transformers.py, evaluation.py) *)

Module TransformerOps.
Import Float Transformers.

(** [a > b] on floats: False when either side is NaN *)
Definition gt (a b : float) : bool :=
  match a, b with
  | Fin x, Fin y => if Rlt_dec y x then true else false
  | PInf, Fin _ | PInf, NInf | Fin _, NInf => true
  | _, _ => false
  end.

(** [a < b] *)
Definition lt (a b : float) : bool := gt b a.

(** ** ClippingTransformer.transform_array and untransform *)

(** [M[M > m] = m] followed by [M[M < -1.0 * m] = -1.0 * m], for one entry;
    the product of a double by -1.0 is exact. *)
Definition clip (m x : float) : float :=
  let x := if gt x m then m else x in
  let low := mul (Fin (-1)) m in
  if lt x low then low else x.

Module Clipping.

Definition transform_array (self : ClippingTransformer.t) (X y w : matrix)
    : matrix * matrix * matrix :=
  let X := if transform_X (ClippingTransformer.base self)
           then map_matrix (clip (ClippingTransformer.x_max self)) X else X in
  let y := if transform_y (ClippingTransformer.base self)
           then map_matrix (clip (ClippingTransformer.y_max self)) y else y in
  (X, y, w).

Definition untransform (self : ClippingTransformer.t) (z : option matrix)
    : outcome (option matrix) :=
  Raise NotImplementedError.

End Clipping.

(** ** undo_transforms

    The transformers of a list are objects of the classes above.  The value
    handed from one [untransform] to the next is an array or None. *)
Inductive transformer : Type :=
| Normalization (self : NormalizationTransformer.t)
| Clipping (self : ClippingTransformer.t)
| Log (self : LogTransformer.t)
| Balancing (self : BalancingTransformer.t)
| CDF (self : CDFTransformer.t)
| Power (self : PowerTransformer.t).

(** [transformer.transform_y] *)
Definition transform_y_of (tr : transformer) : bool :=
  match tr with
  | Normalization self => transform_y (NormalizationTransformer.base self)
  | Clipping self => transform_y (ClippingTransformer.base self)
  | Log self => transform_y (LogTransformer.base self)
  | Balancing self => transform_y (BalancingTransformer.base self)
  | CDF self => CDFTransformer.transform_y self
  | Power self => PowerTransformer.transform_y self
  end.

(** [transformer.untransform(z)].  [BalancingTransformer] has no
    [untransform] of its own and inherits the one of [Transformer];
    [CDFTransformer.untransform] returns the labels of its reference dataset
    and does not look at [z].  With None for [z], the arithmetic of
    [NormalizationTransformer] and the subscript of [LogTransformer] raise
    TypeError and [z.shape] in [PowerTransformer] raises AttributeError. *)
Definition untransform (tr : transformer) (z : option matrix)
    : outcome (option matrix) :=
  match tr, z with
  | Normalization self, Some z => NormalizationTransformer.untransform self z
  | Normalization self, None =>
      if transform_X (NormalizationTransformer.base self)
         || transform_y (NormalizationTransformer.base self)
      then Raise TypeError else Ok None
  | Clipping self, z => Clipping.untransform self z
  | Log self, Some z => LogTransformer.untransform self z
  | Log self, None =>
      if transform_X (LogTransformer.base self)
         || transform_y (LogTransformer.base self)
      then Raise TypeError else Ok None
  | Balancing _, _ => Raise NotImplementedError
  | CDF self, _ =>
      Ok (if CDFTransformer.transform_y self
          then Some (CDFTransformer.y self) else None)
  | Power self, Some z => Some <$> PowerTransformer.untransform self z
  | Power self, None => Raise AttributeError
  end.

Definition undo_transforms (y : option matrix) (transformers : list transformer)
    : outcome (option matrix) :=
  foldl (λ acc transformer,
           y ← acc;
           if transform_y_of transformer then untransform transformer y
           else Ok y)
        (Ok y) (reverse transformers).

(** ** Evaluator.__init__ (evaluation.py): the output transformers *)
Definition output_transformers (transformers : list transformer)
    : list transformer :=
  if decide (0 < length transformers)
  then filter (λ transformer, transform_y_of transformer = true) transformers
  else [].

(** ** threshold_predictions (evaluation.py), for a one-dimensional array *)
Definition threshold_predictions (y : list float) (threshold : float)
    : list float :=
  (λ pred, if gt pred threshold then Fin 1 else Fin 0) <$> y.

End TransformerOps.

(** * Properties *)

(** ** The error monad *)

Lemma bind_Ok {A B} (f : A → outcome B) (c : outcome A) (b : B) :
  c ≫= f = Ok b → ∃ a, c = Ok a ∧ f a = Ok b.
Proof. destruct c as [a| |]; simpl; intros H; try discriminate. eauto. Qed.

Lemma fmap_Ok {A B} (f : A → B) (c : outcome A) (b : B) :
  f <$> c = Ok b → ∃ a, c = Ok a ∧ b = f a.
Proof. destruct c as [a| |]; simpl; intros H; try discriminate. injection H; eauto. Qed.

Lemma mapM_Ok_length {A B} (f : A → outcome B) (l : list A) (k : list B) :
  mapM f l = Ok k → length k = length l.
Proof.
  revert k. induction l as [|a l IH]; intros k; simpl.
  - intros [= <-]. reflexivity.
  - intros H. apply bind_Ok in H as (b & _ & H).
    apply bind_Ok in H as (k' & Hk' & [= <-]). simpl. f_equal. eauto.
Qed.

Lemma mapM_Ok_lookup {A B} (f : A → outcome B) (l : list A) (k : list B) i a :
  mapM f l = Ok k → l !! i = Some a → ∃ b, f a = Ok b ∧ k !! i = Some b.
Proof.
  revert k i. induction l as [|a' l IH]; intros k i; simpl; [done|].
  intros H. apply bind_Ok in H as (b & Hb & H).
  apply bind_Ok in H as (k' & Hk' & [= <-]).
  destruct i as [|i]; simpl.
  - intros [= <-]. eauto.
  - intros Hi. eauto.
Qed.

Lemma mapM_Ok_intro {A B} (f : A → outcome B) (g : A → B) (l : list A) :
  (∀ a, a ∈ l → f a = Ok (g a)) → mapM f l = Ok (g <$> l).
Proof.
  induction l as [|a l IH]; intros H; simpl; [done|].
  rewrite (H a) by constructor. simpl.
  rewrite IH; [done|]. intros a' Ha'. apply H. by constructor.
Qed.

Lemma mapM_Ok_app {A B} (f : A → outcome B) (l1 l2 : list A) k1 k2 :
  mapM f l1 = Ok k1 → mapM f l2 = Ok k2 → mapM f (l1 ++ l2) = Ok (k1 ++ k2).
Proof.
  revert k1. induction l1 as [|a l1 IH]; intros k1; simpl.
  - intros [= <-]. done.
  - intros H H2. apply bind_Ok in H as (b & Hb & H).
    apply bind_Ok in H as (k' & Hk' & [= <-]).
    rewrite Hb. simpl. rewrite (IH k') by done. done.
Qed.

(** ** Reading a shard *)

Module DiskDatasetFacts.
Import DiskDataset.

(** What [np.ones(y.shape)] is: an entry of [a'] has the shape of the entry of
    [a] at the same place and holds ones only. *)
Definition cell_entries (c : cell) : list Q :=
  match c with
  | Num q => [q]
  | Obj _ => []
  | Row cs => cs
  | Objs _ => []
  end.

Definition ones_of_shape (a a' : ndarray) : Prop :=
  Forall2 (λ c c', cell_shape c' = cell_shape c
                   ∧ Forall (λ q, q = 1%Q) (cell_entries c')
                   ∧ (∀ cs, c = Row cs → ∃ cs', c' = Row cs')) a a'.

Lemma ones_like_shape (a : ndarray) : ones_of_shape a (ones_like a).
Proof.
  unfold ones_of_shape, ones_like.
  induction a as [|c a IH]; simpl; constructor; [|done].
  destruct c as [q|s|cs|os]; simpl.
  - repeat split; [by repeat constructor|]. intros cs [=].
  - repeat split; [by repeat constructor|]. intros cs [=].
  - split; [by rewrite length_fmap|].
    split; [|eauto]. induction cs; simpl; by constructor.
  - split; [by rewrite length_fmap|].
    split; [|intros cs [=]]. induction os; simpl; by constructor.
Qed.

Section reading.
Variables (ds : DiskDataset) (i : nat) (row : MetaRow).
Variables (X y ids : ndarray).
Hypothesis Hrow : metadata_df ds !! i = Some row.
Hypothesis HX : join (col_X row) ≫= load_from_disk (data_dir ds) = Ok X.
Hypothesis Hy : load_labels (data_dir ds) row = Ok (Some y).
Hypothesis Hids : join (col_ids row) ≫= load_from_disk (data_dir ds) = Ok ids.

Lemma read_with_weights (w : option ndarray) :
  load_weights (data_dir ds) row (Some y) = Ok w →
  get_shard ds i = Ok (mkShard X (Some y) w ids)
  ∧ itershards_row ds row = Ok (mkShard X (Some y) w ids).
Proof using Hrow HX Hy Hids.
  intros Hw. unfold get_shard, itershards_row.
  rewrite Hrow. simpl. rewrite HX, Hids. simpl.
  rewrite Hy. simpl. rewrite Hw. simpl. done.
Qed.

Lemma load_weights_null :
  col_w row = None → load_weights (data_dir ds) row (Some y) = Ok None.
Proof. intros Hw. unfold load_weights. by rewrite Hw. Qed.

Lemma load_weights_missing f :
  col_w row = Some f → data_files (data_dir ds) !! f = None →
  load_weights (data_dir ds) row (Some y) = Ok (Some (ones_like y)).
Proof.
  intros Hw Hf. unfold load_weights, path_exists. rewrite Hw, Hf.
  rewrite bool_decide_eq_false_2; [done|]. by intros [? [=]].
Qed.
End reading.

(** ** File names *)

Fixpoint no_dash (s : string) : Prop :=
  match s with
  | EmptyString => True
  | String c s => c ≠ "-"%char ∧ no_dash s
  end.

Lemma pretty_N_go_no_dash (x : N) (s : string) :
  no_dash s → no_dash (pretty_N_go x s).
Proof.
  revert s. induction (N.lt_wf_0 x) as [x _ IH]; intros s Hs.
  assert (x = 0 ∨ 0 < x)%N as [->|?] by lia.
  - by rewrite pretty_N_go_0.
  - rewrite pretty_N_go_step by done. apply IH.
    { by apply N.div_lt. }
    split; [|done]. unfold pretty_N_char. by repeat case_match.
Qed.

Lemma pretty_nat_no_dash (n : nat) : no_dash (pretty n).
Proof.
  unfold pretty, pretty_nat, pretty, pretty_N.
  case_decide; [by repeat split|]. by apply pretty_N_go_no_dash.
Qed.

Lemma split_at_dash (a b s t : string) :
  no_dash a → no_dash b →
  a +:+ String "-" s = b +:+ String "-" t → a = b ∧ s = t.
Proof.
  revert b. induction a as [|c a IH]; intros [|c' b]; simpl.
  - intros _ _ [= ->]. done.
  - intros _ [Hc' _] [= <- _]. done.
  - intros [Hc _] _ [= -> _]. done.
  - intros [_ Ha] [_ Hb] [= -> Hab].
    destruct (IH b Ha Hb Hab) as [-> ->]. done.
Qed.

(** The suffixes of the data files of a shard. *)
Definition suffixes : list string :=
  ["-X.joblib"; "-y.joblib"; "-w.joblib"; "-ids.joblib"].

Definition shard_files (shard_num : nat) : list string :=
  (λ suffix, shard_basename shard_num +:+ suffix) <$> suffixes.

Lemma shard_file_inj (i j : nat) (s t : string) :
  s ∈ suffixes → t ∈ suffixes →
  shard_basename i +:+ s = shard_basename j +:+ t → i = j ∧ s = t.
Proof.
  intros Hs Ht. unfold shard_basename.
  assert (∀ u, u ∈ suffixes → ∃ u', u = String "-" u') as Hdash.
  { intros u Hu. unfold suffixes in Hu.
    repeat (apply elem_of_cons in Hu as [->|Hu]; [by eexists|]).
    by apply elem_of_nil in Hu. }
  destruct (Hdash s Hs) as [s' ->]. destruct (Hdash t Ht) as [t' ->].
  intros H. apply (inj (String.app "shard-")) in H.
  apply split_at_dash in H as [H ->]; auto using pretty_nat_no_dash.
  by apply (inj pretty) in H as ->.
Qed.

Lemma in_suffixes :
  "-X.joblib" ∈ suffixes ∧ "-y.joblib" ∈ suffixes
  ∧ "-w.joblib" ∈ suffixes ∧ "-ids.joblib" ∈ suffixes.
Proof. unfold suffixes. repeat split; apply list_elem_of_In; simpl; tauto. Qed.

Lemma shard_file_ne (i j : nat) (s t : string) :
  i ≠ j → s ∈ suffixes → t ∈ suffixes →
  shard_basename i +:+ s ≠ shard_basename j +:+ t.
Proof. intros Hij Hs Ht Heq. by apply shard_file_inj in Heq as [? _]. Qed.

Lemma suffixes_NoDup : NoDup suffixes.
Proof. apply (bool_decide_unpack (NoDup suffixes)). by vm_compute. Qed.

(** ** Writing a shard *)

Lemma write_part_metadata b sfx part d :
  metadata_file (write_part b sfx part d).1 = metadata_file d.
Proof. by destruct part. Qed.

Lemma write_part_other b sfx part d name :
  name ≠ b +:+ sfx →
  data_files (write_part b sfx part d).1 !! name = data_files d !! name.
Proof. intros Hne. destruct part; simpl; [|done]. by rewrite lookup_insert_ne. Qed.

Lemma write_part_file b sfx a d :
  data_files (write_part b sfx (Some a) d).1 !! (b +:+ sfx) = Some a.
Proof. simpl. by rewrite lookup_insert_eq. Qed.

Lemma write_part_ref b sfx part d :
  (write_part b sfx part d).2 = (λ _, b +:+ sfx) <$> part.
Proof. by destruct part. Qed.

(** [write_data_to_disk] in terms of its four writes. *)
Lemma write_data_to_disk_eq d b tasks X y w ids :
  write_data_to_disk d b tasks X y w ids =
  let d1 := (write_part b "-X.joblib" X d).1 in
  let d2 := (write_part b "-y.joblib" y d1).1 in
  let d3 := (write_part b "-w.joblib" w d2).1 in
  ((write_part b "-ids.joblib" ids d3).1,
   mkMetaRow b tasks ((λ _, b +:+ "-ids.joblib") <$> ids)
     ((λ _, b +:+ "-X.joblib") <$> X) ((λ _, b +:+ "-y.joblib") <$> y)
     ((λ _, b +:+ "-w.joblib") <$> w)).
Proof.
  unfold write_data_to_disk.
  destruct X, y, w, ids; reflexivity.
Qed.

Lemma write_data_to_disk_metadata d b tasks X y w ids :
  metadata_file (write_data_to_disk d b tasks X y w ids).1 = metadata_file d.
Proof.
  rewrite write_data_to_disk_eq. simpl. by rewrite !write_part_metadata.
Qed.

Lemma write_data_to_disk_other d b tasks X y w ids name :
  (∀ sfx, sfx ∈ suffixes → name ≠ b +:+ sfx) →
  data_files (write_data_to_disk d b tasks X y w ids).1 !! name
  = data_files d !! name.
Proof.
  intros Hne. rewrite write_data_to_disk_eq. simpl.
  rewrite !write_part_other; [done|apply Hne; unfold suffixes; set_solver..].
Qed.

(** The file of each part that is not None holds that part. *)
Lemma write_data_to_disk_files d b tasks X y w ids :
  let files := data_files (write_data_to_disk d b tasks X y w ids).1 in
  (∀ a, X = Some a → files !! (b +:+ "-X.joblib") = Some a)
  ∧ (∀ a, y = Some a → files !! (b +:+ "-y.joblib") = Some a)
  ∧ (∀ a, w = Some a → files !! (b +:+ "-w.joblib") = Some a)
  ∧ (∀ a, ids = Some a → files !! (b +:+ "-ids.joblib") = Some a).
Proof.
  assert (∀ s t : string, s ≠ t → b +:+ s ≠ b +:+ t) as Hne.
  { intros s t Hst Heq. by apply (inj (String.app b)) in Heq. }
  rewrite write_data_to_disk_eq. simpl.
  repeat split; intros a ->.
  - rewrite !write_part_other by (by apply Hne). apply write_part_file.
  - rewrite !write_part_other by (by apply Hne). apply write_part_file.
  - rewrite !write_part_other by (by apply Hne). apply write_part_file.
  - apply write_part_file.
Qed.

(** ** Reading depends on the data files and the metadata row only *)

Lemma load_from_disk_ext d d' name :
  data_files d = data_files d' → load_from_disk d name = load_from_disk d' name.
Proof. unfold load_from_disk. by intros ->. Qed.

Lemma itershards_row_ext ds ds' row :
  data_files (data_dir ds) = data_files (data_dir ds') →
  itershards_row ds row = itershards_row ds' row.
Proof.
  intros H. unfold itershards_row, load_labels, load_weights, path_exists,
    load_from_disk. by rewrite H.
Qed.

Lemma get_shard_ext ds ds' i j row :
  metadata_df ds !! i = Some row → metadata_df ds' !! j = Some row →
  data_files (data_dir ds) = data_files (data_dir ds') →
  get_shard ds i = get_shard ds' j.
Proof.
  intros Hi Hj H. unfold get_shard, load_labels, load_weights, path_exists,
    load_from_disk. by rewrite Hi, Hj, H.
Qed.

(** ** Reordering *)

Lemma reorder_seq {A} (l : list A) : reorder (seq 0 (length l)) l = l.
Proof.
  unfold reorder. induction l as [|a l IH] using rev_ind; [done|].
  rewrite length_app. simpl. rewrite Nat.add_1_r, seq_S, omap_app. simpl.
  rewrite list_lookup_middle by done. simpl.
  rewrite <-IH at 2. f_equal.
  apply list_omap_ext, Forall2_same_length_lookup_2; [done|].
  intros i x y Hx Hy. assert (x = y) as <- by congruence.
  apply lookup_seq in Hx as [-> Hlt]. simpl.
  by rewrite lookup_app_l.
Qed.

Lemma reorder_Permutation {A} (order : list nat) (l : list A) :
  order ≡ₚ seq 0 (length l) → reorder order l ≡ₚ l.
Proof.
  intros H. rewrite <-(reorder_seq l) at 2. unfold reorder. by rewrite H.
Qed.

(** ** The weights of a shard *)

(** A one-shard dataset with labels and without weights. *)
Definition unweighted_shard : raw_shard :=
  (Some [Row [1%Q; 2%Q]; Row [3%Q; 4%Q]], Some [Row [0%Q]; Row [1%Q]], None,
   Some [Obj "a"; Obj "b"]).

Definition unweighted_dataset : DiskDataset :=
  match create_dataset [unweighted_shard] empty_directory ["task"] with
  | Ok ds => ds
  | _ => mkDiskDataset empty_directory [] []
  end.

(** The same dataset with a weights reference in its metadata row and no
    weights file in its directory. *)
Definition dangling_weights_dataset : DiskDataset :=
  {| data_dir := data_dir unweighted_dataset;
     tasks := tasks unweighted_dataset;
     metadata_df :=
       (λ row, mkMetaRow (col_basename row) (col_task_names row) (col_ids row)
                 (col_X row) (col_y row) (Some "shard-0-w.joblib"))
       <$> metadata_df unweighted_dataset |}.

(** The statement of C3 for the i-th shard of a dataset: a null weights
    reference next to a labels reference is read as all-ones weights of the
    shape of the labels. *)
Definition null_weights_read_as_ones (ds : DiskDataset) (i : nat) : Prop :=
  ∀ row, metadata_df ds !! i = Some row → col_w row = None →
         is_Some (col_y row) →
         ∃ s y, get_shard ds i = Ok s ∧ shard_y s = Some y
                ∧ shard_w s = Some (ones_like y).

(** C3, as stated, fails: the shard of [unweighted_dataset] has a null
    weights reference and a labels reference, and [get_shard] returns None for
    its weights. *)
Lemma null_weights_reference_read_as_None :
  ¬ null_weights_read_as_ones unweighted_dataset 0.
Proof.
  intros H.
  destruct (H (mkMetaRow "shard-0" ["task"] (Some "shard-0-ids.joblib")
                 (Some "shard-0-X.joblib") (Some "shard-0-y.joblib") None))
    as (s & y & Hs & _ & Hw); [reflexivity|reflexivity|by eexists|].
  vm_compute in Hs. injection Hs as <-. discriminate Hw.
Qed.

(** C3, amended: when the labels of a shard are present, [get_shard] and
    [itershards] return all-ones weights of the shape of the labels if the
    metadata row has a weights reference whose file does not exist, and None
    for the weights if the weights reference is null. *)
Theorem missing_weights_file_read_as_ones
    (ds : DiskDataset) (i : nat) (row : MetaRow) (X y ids : ndarray) :
  metadata_df ds !! i = Some row →
  join (col_X row) ≫= load_from_disk (data_dir ds) = Ok X →
  load_labels (data_dir ds) row = Ok (Some y) →
  join (col_ids row) ≫= load_from_disk (data_dir ds) = Ok ids →
  (∀ f, col_w row = Some f → data_files (data_dir ds) !! f = None →
        get_shard ds i = Ok (mkShard X (Some y) (Some (ones_like y)) ids)
        ∧ itershards_row ds row = Ok (mkShard X (Some y) (Some (ones_like y)) ids)
        ∧ ones_of_shape y (ones_like y))
  ∧ (col_w row = None →
        get_shard ds i = Ok (mkShard X (Some y) None ids)
        ∧ itershards_row ds row = Ok (mkShard X (Some y) None ids)).
Proof.
  intros Hrow HX Hy Hids. split.
  - intros f Hw Hf.
    destruct (read_with_weights ds i row X y ids Hrow HX Hy Hids
                (Some (ones_like y))) as [H1 H2].
    { by eapply load_weights_missing. }
    auto using ones_like_shape.
  - intros Hw.
    apply (read_with_weights ds i row X y ids Hrow HX Hy Hids None).
    by apply load_weights_null.
Qed.

Lemma missing_weights_file_read_as_ones_witness :
  get_shard dangling_weights_dataset 0
  = Ok (mkShard [Row [1%Q; 2%Q]; Row [3%Q; 4%Q]] (Some [Row [0%Q]; Row [1%Q]])
          (Some [Row [1%Q]; Row [1%Q]]) [Obj "a"; Obj "b"]).
Proof.
  refine (proj1 (proj1 (missing_weights_file_read_as_ones
    dangling_weights_dataset 0
    (mkMetaRow "shard-0" ["task"] (Some "shard-0-ids.joblib")
       (Some "shard-0-X.joblib") (Some "shard-0-y.joblib")
       (Some "shard-0-w.joblib"))
    [Row [1%Q; 2%Q]; Row [3%Q; 4%Q]] [Row [0%Q]; Row [1%Q]] [Obj "a"; Obj "b"]
    _ _ _ _) "shard-0-w.joblib" _ _)); vm_compute; reflexivity.
Defined.

(** ** shuffle_shards and set_shard *)

(** A random state that draws the identity for [np.random.permutation] and
    moves the first element to the end in [random.shuffle]. *)
Definition rotating : RandomState :=
  {| permutation := λ _ n, seq 0 n;
     shuffle := λ n, match n with 0 => [] | S m => seq 1 m ++ [0] end |}.

Lemma rotating_valid : valid_random rotating.
Proof.
  split; [done|]. intros [|m]; simpl; [done|].
  by rewrite <-Permutation_cons_append.
Qed.

Definition shard_of (x : Z) (name : string) : raw_shard :=
  (Some [Row [inject_Z x]; Row [inject_Z (x + 1)]],
   Some [Row [0%Q]; Row [1%Q]], Some [Row [1%Q]; Row [1%Q]],
   Some [Obj name; Obj (name +:+ "'")]).

Definition created (shards : list raw_shard) : DiskDataset :=
  match create_dataset shards empty_directory ["task"] with
  | Ok ds => ds
  | _ => mkDiskDataset empty_directory [] []
  end.

Definition four_shards : DiskDataset :=
  created [shard_of 0 "a"; shard_of 10 "b"; shard_of 20 "c"; shard_of 30 "d"].

Definition two_shards : DiskDataset :=
  created [shard_of 0 "a"; shard_of 10 "b"].

(** C9: [shuffle_shards] leaves every data file as it is and only reorders
    the rows of the metadata table, which it saves again; reading a shard
    through its metadata row gives the same arrays before and after, and
    every shard is still reachable, at the position its row has moved to. *)
Theorem shuffle_shards_only_reorders_metadata
    (rng : RandomState) (ds : DiskDataset) :
  valid_random rng →
  let ds' := shuffle_shards rng ds in
  data_files (data_dir ds') = data_files (data_dir ds)
  ∧ tasks ds' = tasks ds
  ∧ metadata_df ds' ≡ₚ metadata_df ds
  ∧ metadata_file (data_dir ds') = Some (tasks ds', metadata_df ds')
  ∧ (∀ row, itershards_row ds' row = itershards_row ds row)
  ∧ (∀ i row, metadata_df ds !! i = Some row →
       ∃ j, metadata_df ds' !! j = Some row
            ∧ get_shard ds' j = get_shard ds i).
Proof.
  intros [_ Hshuffle] ds'.
  assert (metadata_df ds' ≡ₚ metadata_df ds) as Hperm.
  { apply reorder_Permutation, Hshuffle. }
  do 4 (split; [done|]). split.
  - intros row. by apply itershards_row_ext.
  - intros i row Hi.
    assert (row ∈ metadata_df ds') as Hin.
    { rewrite Hperm. by eapply list_elem_of_lookup_2. }
    apply list_elem_of_lookup_1 in Hin as [j Hj].
    exists j. split; [done|]. by eapply get_shard_ext.
Qed.

Lemma shuffle_shards_only_reorders_metadata_witness :
  data_files (data_dir (shuffle_shards rotating four_shards))
  = data_files (data_dir four_shards)
  ∧ col_basename <$> metadata_df (shuffle_shards rotating four_shards)
    = ["shard-1"; "shard-2"; "shard-3"; "shard-0"]
  ∧ get_shard (shuffle_shards rotating four_shards) 3 = get_shard four_shards 0.
Proof.
  pose proof (shuffle_shards_only_reorders_metadata rotating four_shards
                rotating_valid) as (Hfiles & _).
  split; [exact Hfiles|]. split; vm_compute; reflexivity.
Defined.

(** The arrays that replace a shard in the scenario below. *)
Definition replacement : Shard :=
  mkShard [Row [7%Q]; Row [8%Q]] (Some [Row [1%Q]; Row [1%Q]])
    (Some [Row [2%Q]; Row [2%Q]]) [Obj "p"; Obj "q"].

Definition set_replacement (ds : DiskDataset) (shard_num : nat) : DiskDataset :=
  set_shard ds shard_num (Some (shard_X replacement)) (shard_y replacement)
    (shard_w replacement) (Some (shard_ids replacement)).

(** On a dataset as [create_dataset] leaves it, [get_shard] reads back what
    [set_shard] wrote at the same position. *)
Example set_shard_then_get_shard_fresh :
  get_shard (set_replacement two_shards 0) 0 = Ok replacement
  ∧ get_shard (set_replacement two_shards 0) 1 = get_shard two_shards 1.
Proof. split; vm_compute; reflexivity. Qed.

(** C10: [set_shard] writes the files named after "shard-<shard_num>" and no
    other file, and does not look at the metadata table, which it leaves as
    it is.  After [shuffle_shards] has moved the row of shard-1 to position 0,
    [get_shard 0] reads the files of shard-1, [set_shard 0] overwrites the
    files of shard-0, and so [get_shard 0] still returns the old arrays
    while the shard at position 1 has been replaced. *)
Theorem set_shard_writes_by_position :
  (∀ ds shard_num X y w ids,
     let ds' := set_shard ds shard_num X y w ids in
     let files := data_files (data_dir ds') in
     metadata_df ds' = metadata_df ds
     ∧ tasks ds' = tasks ds
     ∧ metadata_file (data_dir ds') = metadata_file (data_dir ds)
     ∧ (∀ a, X = Some a → files !! (shard_basename shard_num +:+ "-X.joblib") = Some a)
     ∧ (∀ a, y = Some a → files !! (shard_basename shard_num +:+ "-y.joblib") = Some a)
     ∧ (∀ a, w = Some a → files !! (shard_basename shard_num +:+ "-w.joblib") = Some a)
     ∧ (∀ a, ids = Some a → files !! (shard_basename shard_num +:+ "-ids.joblib") = Some a)
     ∧ (∀ name, name ∉ shard_files shard_num →
          files !! name = data_files (data_dir ds) !! name))
  ∧ (let shuffled := shuffle_shards rotating two_shards in
     col_basename <$> metadata_df shuffled = ["shard-1"; "shard-0"]
     ∧ get_shard shuffled 0 = get_shard two_shards 1
     ∧ get_shard (set_replacement shuffled 0) 0 = get_shard shuffled 0
     ∧ get_shard (set_replacement shuffled 0) 0 ≠ Ok replacement
     ∧ get_shard (set_replacement shuffled 0) 1 = Ok replacement
     ∧ get_shard shuffled 1 ≠ Ok replacement).
Proof.
  split.
  - intros ds shard_num X y w ids ds' files.
    subst files ds'. unfold set_shard.
    pose proof (write_data_to_disk_files (data_dir ds)
                  (shard_basename shard_num) (get_task_names ds) X y w ids)
      as (HX & Hy & Hw & Hids).
    pose proof (write_data_to_disk_metadata (data_dir ds)
                  (shard_basename shard_num) (get_task_names ds) X y w ids) as Hm.
    pose proof (write_data_to_disk_other (data_dir ds)
                  (shard_basename shard_num) (get_task_names ds) X y w ids) as Ho.
    destruct (write_data_to_disk _ _ _ _ _ _ _) as [d row]. simpl in *.
    do 7 (split; [done|]).
    intros name Hname. apply Ho. intros sfx Hsfx ->. apply Hname.
    unfold shard_files. by apply list_elem_of_fmap_2.
  - repeat split; try (vm_compute; reflexivity); vm_compute; discriminate.
Qed.

(** ** Indexing with a list of indices *)

Lemma fancy_index_Ok {A} (a : list A) (indices : list nat) :
  Forall (λ i, i < length a) indices →
  fancy_index a indices = Ok (reorder indices a) ∧ length (reorder indices a) = length indices.
Proof.
  unfold fancy_index, reorder.
  induction 1 as [|i indices Hi _ [IH1 IH2]]; simpl; [done|].
  destruct (lookup_lt_is_Some_2 a i Hi) as [x Hx].
  rewrite Hx. simpl. rewrite IH1. simpl. split; [done|]. f_equal. exact IH2.
Qed.

Lemma reorder_app {A} (i1 i2 : list nat) (a : list A) :
  reorder (i1 ++ i2) a = reorder i1 a ++ reorder i2 a.
Proof. apply omap_app. Qed.

Lemma reorder_concat {A} (ranges : list (list nat)) (a : list A) :
  concat ((λ r, reorder r a) <$> ranges) = reorder (concat ranges) a.
Proof.
  induction ranges as [|r ranges IH]; csimpl; [done|].
  by rewrite reorder_app, IH.
Qed.

Lemma reorder_in_range (order : list nat) (a : list nat) (n : nat) :
  Forall (λ i, i < n) a → Forall (λ i, i < n) (reorder order a).
Proof.
  intros Ha. unfold reorder. apply Forall_forall. intros x Hx.
  apply list_elem_of_omap in Hx as (i & _ & Hi).
  eapply Forall_forall in Ha; [done|]. by eapply list_elem_of_lookup_2.
Qed.

Lemma Permutation_in_range (p : list nat) (n : nat) :
  p ≡ₚ seq 0 n → Forall (λ i, i < n) p ∧ length p = n.
Proof.
  intros Hp. split.
  - rewrite Hp. apply Forall_forall. intros i Hi.
    apply elem_of_seq in Hi. lia.
  - by rewrite Hp, length_seq.
Qed.

(** ** The intervals of a shard *)

Lemma interval_ranges_cons (a b : nat) (rest : list nat) :
  interval_ranges (a :: b :: rest) = seq a (b - a) :: interval_ranges (b :: rest).
Proof. reflexivity. Qed.

(** The ranges between the points [g m, g (m+1), ..., g (m+k)] of a
    non-decreasing [g] cover the numbers from [g m] to [g (m+k)], each once
    and in order. *)
Lemma interval_ranges_cover (g : nat → nat) (k m : nat) :
  (∀ i j, i ≤ j → g i ≤ g j) →
  concat (interval_ranges (g <$> seq m (S k))) = seq (g m) (g (m + k) - g m).
Proof.
  intros Hg. revert m. induction k as [|k IH]; intros m.
  - simpl. by rewrite Nat.add_0_r, Nat.sub_diag.
  - change (g <$> seq m (S (S k))) with (g m :: g (S m) :: (g <$> seq (S (S m)) k)).
    rewrite interval_ranges_cons. simpl concat.
    change (g (S m) :: (g <$> seq (S (S m)) k)) with (g <$> seq (S m) (S k)).
    rewrite IH.
    pose proof (Hg m (S m) ltac:(lia)).
    pose proof (Hg (S m) (S m + k) ltac:(lia)).
    replace (m + S k) with (S m + k) by lia.
    replace (g (S m + k) - g m) with ((g (S m) - g m) + (g (S m + k) - g (S m))) by lia.
    rewrite seq_app. do 2 f_equal. lia.
Qed.

Lemma linspace_int_cover (n k : nat) :
  0 < k → concat (interval_ranges (linspace_int n (k + 1))) = seq 0 n.
Proof.
  intros Hk. unfold linspace_int.
  rewrite Nat.add_1_r. simpl Nat.sub. rewrite Nat.sub_0_r.
  rewrite (interval_ranges_cover (λ i, i * n / k) k 0).
  - cbv beta.
    rewrite Nat.add_0_l, Nat.mul_0_l, Nat.Div0.div_0_l, Nat.sub_0_r.
    by rewrite (Nat.mul_comm k n), Nat.div_mul by lia.
  - intros i j Hij. apply Nat.Div0.div_le_mono. nia.
Qed.

Lemma ceil_div_pos (n b : nat) : 0 < n → 0 < b → 0 < ceil_div n b.
Proof.
  intros Hn Hb. unfold ceil_div. apply Nat.div_str_pos. lia.
Qed.

(** ** The samples of a batch *)

Lemma reorder_length {A} (idx : list nat) (a : list A) :
  Forall (λ i, i < length a) idx → length (reorder idx a) = length idx.
Proof. intros H. by apply fancy_index_Ok. Qed.

Lemma reorder_fmap {A B} (f : A → B) (idx : list nat) (a : list A) :
  reorder idx (f <$> a) = f <$> reorder idx a.
Proof.
  unfold reorder. induction idx as [|i idx IH]; csimpl; [done|].
  rewrite list_lookup_fmap. destruct (a !! i); csimpl; by rewrite IH.
Qed.

Lemma reorder_replicate {A} (idx : list nat) (n : nat) (x : A) :
  Forall (λ i, i < n) idx → reorder idx (replicate n x) = replicate (length idx) x.
Proof.
  unfold reorder. induction 1 as [|i idx Hi _ IH]; csimpl; [done|].
  rewrite lookup_replicate_2 by done. csimpl. by rewrite IH.
Qed.

Lemma reorder_zip {A B} (idx : list nat) (a : list A) (b : list B) :
  Forall (λ i, i < length a) idx → Forall (λ i, i < length b) idx →
  reorder idx (zip a b) = zip (reorder idx a) (reorder idx b).
Proof.
  unfold reorder. induction 1 as [|i idx Hi _ IH]; intros Hb; csimpl; [done|].
  apply Forall_cons in Hb as [Hib Hb].
  destruct (lookup_lt_is_Some_2 a i Hi) as [x Hx].
  destruct (lookup_lt_is_Some_2 b i Hib) as [y Hy].
  rewrite lookup_zip_with, Hx, Hy. csimpl. by rewrite IH.
Qed.

Lemma reorder_column (idx : list nat) (a : option ndarray) (n : nat) :
  Forall (λ i, i < n) idx → (∀ a', a = Some a' → length a' = n) →
  column (reorder idx <$> a) (length idx) = reorder idx (column a n).
Proof.
  intros Hidx Ha. destruct a as [a'|]; simpl.
  - by rewrite reorder_fmap.
  - by rewrite reorder_replicate.
Qed.

Lemma column_length (a : option ndarray) (n : nat) :
  (∀ a', a = Some a' → length a' = n) → length (column a n) = n.
Proof.
  intros Ha. destruct a as [a'|]; simpl.
  - rewrite length_fmap. by apply Ha.
  - by rewrite length_replicate.
Qed.

Lemma samples_length (s : Shard) :
  aligned s → length (samples s) = length (shard_X s).
Proof.
  intros (Hids & Hy & Hw). unfold samples.
  rewrite !length_zip_with, !column_length by done. lia.
Qed.

(** The batch that indexing the arrays of [s] with [idx] gives. *)
Definition gather (s : Shard) (idx : list nat) : Shard :=
  mkShard (reorder idx (shard_X s)) (reorder idx <$> shard_y s)
    (reorder idx <$> shard_w s) (reorder idx (shard_ids s)).

Lemma samples_gather (s : Shard) (idx : list nat) :
  aligned s → Forall (λ i, i < length (shard_X s)) idx →
  samples (gather s idx) = reorder idx (samples s).
Proof.
  intros (Hids & Hy & Hw) Hidx. unfold samples, gather. simpl.
  rewrite (reorder_length idx (shard_X s)) by done.
  rewrite (reorder_column idx (shard_y s) (length (shard_X s))) by done.
  rewrite (reorder_column idx (shard_w s) (length (shard_X s))) by done.
  rewrite !reorder_zip; try done;
    (eapply Forall_impl; [exact Hidx|]; simpl; intros i Hi;
     rewrite ?length_zip_with, ?column_length, ?Hids by done; lia).
Qed.

Lemma fancy_index_opt_Ok (a : option ndarray) (idx : list nat) (n : nat) :
  Forall (λ i, i < n) idx → (∀ a', a = Some a' → length a' = n) →
  fancy_index_opt a idx = Ok (reorder idx <$> a).
Proof.
  intros Hidx Ha. destruct a as [a'|]; simpl; [|done].
  destruct (fancy_index_Ok a' idx) as [-> _]; [|done].
  by rewrite (Ha a' eq_refl).
Qed.

(** One interval of a shard, without padding: the batch holds the rows that
    the permuted indices of the interval select. *)
Lemma iterbatches_interval_gather (s : Shard) (sample_perm indices : list nat)
    (shard_batch_size : nat) :
  aligned s →
  Forall (λ i, i < length (shard_X s)) sample_perm →
  Forall (λ i, i < length sample_perm) indices →
  iterbatches_interval s sample_perm shard_batch_size false indices
  = Ok (gather s (reorder indices sample_perm)).
Proof.
  intros Hs Hperm Hidx. unfold iterbatches_interval.
  destruct (fancy_index_Ok sample_perm indices Hidx) as [-> _]. simpl.
  pose proof (reorder_in_range indices sample_perm _ Hperm) as Hsel.
  destruct Hs as (Hids & Hy & Hw).
  destruct (fancy_index_Ok (shard_X s) (reorder indices sample_perm) Hsel)
    as [-> _]. simpl.
  rewrite (fancy_index_opt_Ok (shard_y s) _ _ Hsel Hy). simpl.
  rewrite (fancy_index_opt_Ok (shard_w s) _ _ Hsel Hw). simpl.
  destruct (fancy_index_Ok (shard_ids s) (reorder indices sample_perm))
    as [-> _]; [by rewrite Hids|]. done.
Qed.

(** ** One pass of iterbatches without padding *)

Lemma mapM_Ok_Forall2 {A B} (f : A → outcome B) (l : list A) (k : list B) :
  mapM f l = Ok k ↔ Forall2 (λ a b, f a = Ok b) l k.
Proof.
  split.
  - revert k. induction l as [|a l IH]; intros k; simpl.
    + intros [= <-]. constructor.
    + intros H. apply bind_Ok in H as (b & Hb & H).
      apply bind_Ok in H as (k' & Hk' & [= <-]). constructor; auto.
  - induction 1 as [|a b l k Hab _ IH]; simpl; [done|].
    rewrite Hab. simpl. by rewrite IH.
Qed.

Lemma Forall2_seq_lookup {A} (l : list A) :
  Forall2 (λ i x, l !! i = Some x) (seq 0 (length l)) l.
Proof.
  apply Forall2_same_length_lookup_2; [by rewrite length_seq|].
  intros i j x Hj Hx. apply lookup_seq in Hj as [-> _]. done.
Qed.

Lemma reorder_Forall2 {A} (idx : list nat) (a : list A) :
  Forall (λ i, i < length a) idx →
  Forall2 (λ i x, a !! i = Some x) idx (reorder idx a).
Proof.
  unfold reorder. induction 1 as [|i idx Hi _ IH]; csimpl; [constructor|].
  destruct (lookup_lt_is_Some_2 a i Hi) as [x Hx]. rewrite Hx. csimpl.
  by constructor.
Qed.

Lemma samples_empty (s : Shard) : shard_X s = [] → samples s = [].
Proof. intros H. unfold samples. by rewrite H. Qed.

Section one_shard.
Variables (s : Shard) (b : nat) (sample_perm : list nat).
Hypothesis Hb : 1 ≤ b.
Hypothesis Hs : aligned s.
Hypothesis Hn : length (shard_X s) ≠ 0.
Hypothesis Hperm : sample_perm ≡ₚ seq 0 (length (shard_X s)).

Let n := length (shard_X s).
Let ranges := interval_ranges (linspace_int n (ceil_div n b + 1)).

Lemma ranges_cover : concat ranges = seq 0 n.
Proof using Hb Hn.
  apply linspace_int_cover, ceil_div_pos; subst n; lia.
Qed.

Lemma ranges_in_range r : r ∈ ranges → Forall (λ i, i < length sample_perm) r.
Proof using Hb Hn Hperm.
  intros Hr. apply Forall_forall. intros i Hi.
  assert (i ∈ concat ranges) as Hin.
  { apply list_elem_of_In, in_concat. exists r.
    split; by apply list_elem_of_In. }
  rewrite ranges_cover in Hin. apply elem_of_seq in Hin.
  apply Permutation_in_range in Hperm as [_ ->]. subst n. lia.
Qed.

Lemma iterbatches_intervals :
  ∃ batches,
    mapM (iterbatches_interval s sample_perm b false) ranges = Ok batches
    ∧ concat (samples <$> batches) ≡ₚ samples s.
Proof using Hb Hs Hn Hperm.
  exists ((λ r, gather s (reorder r sample_perm)) <$> ranges).
  pose proof (Permutation_in_range _ _ Hperm) as [Hlt Hlen].
  split.
  - apply mapM_Ok_intro. intros r Hr.
    apply iterbatches_interval_gather; auto using ranges_in_range.
  - rewrite <-list_fmap_compose.
    rewrite (list_fmap_ext _ (λ r, reorder (reorder r sample_perm) (samples s))
               ranges); [|intros i r Hr].
    + rewrite (list_fmap_compose (λ r, reorder r sample_perm)
                 (λ r, reorder r (samples s))).
      rewrite !reorder_concat, ranges_cover. subst n.
      rewrite <-Hlen, reorder_seq.
      apply reorder_Permutation. by rewrite samples_length.
    + simpl. apply samples_gather; [done|].
      by apply reorder_in_range.
Qed.
End one_shard.

Lemma iterbatches_shard_samples (ds : DiskDataset) (b : nat)
    (deterministic : bool) (rng : RandomState) (shard_perm : list nat)
    (i shard_num : nat) (s : Shard) :
  1 ≤ b → valid_random rng →
  shard_perm !! i = Some shard_num → get_shard ds shard_num = Ok s → aligned s →
  ∃ batches,
    iterbatches_shard ds (Some b) deterministic false rng shard_perm i = Ok batches
    ∧ concat (samples <$> batches) ≡ₚ samples s.
Proof.
  intros Hb [Hrng _] Hi Hget Hs. unfold iterbatches_shard.
  rewrite Hi. simpl. rewrite Hget. simpl.
  case_decide as Hn.
  - exists []. split; [done|]. simpl.
    rewrite samples_empty; [done|]. by apply nil_length_inv.
  - rewrite decide_False by lia.
    apply iterbatches_intervals; try done.
    destruct deterministic; [done|apply Hrng].
Qed.

Lemma concat_samples_Forall2 (bss : list (list Shard)) (L : list Shard) :
  Forall2 (λ bs s, concat (samples <$> bs) ≡ₚ samples s) bss L →
  concat (samples <$> concat bss) ≡ₚ concat (samples <$> L).
Proof.
  induction 1 as [|bs s bss L H _ IH]; csimpl; [done|].
  by rewrite fmap_app, concat_app, H, IH.
Qed.

(** [get_shard] first looks its row up and then reads it. *)
Definition get_shard_at (ds : DiskDataset) (row : MetaRow) : outcome Shard :=
  X ← join (col_X row) ≫= load_from_disk (data_dir ds);
  y ← load_labels (data_dir ds) row;
  w ← load_weights (data_dir ds) row y;
  ids ← join (col_ids row) ≫= load_from_disk (data_dir ds);
  Ok (mkShard X y w ids).

Lemma get_shard_unfold (ds : DiskDataset) (i : nat) :
  get_shard ds i = of_option IndexError (metadata_df ds !! i) ≫= get_shard_at ds.
Proof. reflexivity. Qed.

Lemma get_shard_at_ids (ds : DiskDataset) (row : MetaRow) (s : Shard) :
  get_shard_at ds row = Ok s →
  join (col_ids row) ≫= load_from_disk (data_dir ds) = Ok (shard_ids s).
Proof.
  unfold get_shard_at. intros H.
  apply bind_Ok in H as (X & _ & H). apply bind_Ok in H as (y & _ & H).
  apply bind_Ok in H as (w & _ & H). apply bind_Ok in H as (ids & Hids & H).
  injection H as <-. done.
Qed.

(** All shards of a dataset, read in index order. *)
Definition all_shards (ds : DiskDataset) : outcome (list Shard) :=
  mapM (get_shard ds) (seq 0 (get_number_shards ds)).

Lemma all_shards_rows (ds : DiskDataset) (shards : list Shard) :
  all_shards ds = Ok shards →
  Forall2 (λ row s, get_shard_at ds row = Ok s) (metadata_df ds) shards.
Proof.
  unfold all_shards, get_number_shards. intros H.
  apply mapM_Ok_Forall2 in H.
  pose proof (Forall2_seq_lookup (metadata_df ds)) as Hrows.
  apply Forall2_same_length_lookup_2.
  - apply Forall2_length in H, Hrows. congruence.
  - intros i row s Hrow Hs.
    destruct (Forall2_lookup_r _ _ _ _ _ H Hs) as (j & Hj & Hget).
    apply lookup_seq in Hj as [-> _]. simpl in Hget.
    rewrite get_shard_unfold, Hrow in Hget. done.
Qed.

Lemma len_foldl (ds : DiskDataset) (rows : list MetaRow) (shards : list Shard)
    (acc : nat) :
  Forall2 (λ row s, join (col_ids row) ≫= load_from_disk (data_dir ds)
                    = Ok (shard_ids s)) rows shards →
  foldl (λ acc row,
           total ← acc;
           y ← join (col_ids row) ≫= load_from_disk (data_dir ds);
           Ok (total + length y)) (Ok acc) rows
  = Ok (acc + length (concat (shard_ids <$> shards))).
Proof.
  intros H. revert acc. induction H as [|row s rows shards Hrow _ IH]; intros acc.
  - simpl. by rewrite Nat.add_0_r.
  - csimpl. rewrite Hrow. csimpl.
    rewrite IH, length_app. f_equal. lia.
Qed.

Lemma len_all_shards (ds : DiskDataset) (shards : list Shard) :
  all_shards ds = Ok shards → Forall aligned shards →
  len ds = Ok (length (concat (samples <$> shards))).
Proof.
  intros H Hal. unfold len.
  rewrite (len_foldl ds _ shards 0).
  2:{ eapply Forall2_impl; [by apply all_shards_rows|].
      intros row s. apply get_shard_at_ids. }
  simpl. f_equal. clear H.
  induction Hal as [|s shards Hs _ IH]; csimpl; [done|].
  rewrite !length_app, IH, samples_length by done. by destruct Hs as [-> _].
Qed.

Lemma Forall2_exists_mapM {A B C} (f : A → outcome B) (Q : B → C → Prop)
    (l : list A) (L : list C) :
  Forall2 (λ a c, ∃ b, f a = Ok b ∧ Q b c) l L →
  ∃ k, mapM f l = Ok k ∧ Forall2 Q k L.
Proof.
  induction 1 as [|a c l L (b & Hb & HQ) _ (k & Hk & IH)]; simpl.
  - exists []. by split.
  - exists (b :: k). rewrite Hb. simpl. rewrite Hk. simpl. split; [done|].
    by constructor.
Qed.

Lemma all_shards_lookup (ds : DiskDataset) (shards : list Shard) k s :
  all_shards ds = Ok shards → shards !! k = Some s → get_shard ds k = Ok s.
Proof.
  intros H Hs. apply mapM_Ok_Forall2 in H.
  destruct (Forall2_lookup_r _ _ _ _ _ H Hs) as (j & Hj & Hget).
  by apply lookup_seq in Hj as [-> _].
Qed.

Lemma all_shards_length (ds : DiskDataset) (shards : list Shard) :
  all_shards ds = Ok shards → length shards = get_number_shards ds.
Proof. intros H. apply mapM_Ok_length in H. by rewrite H, length_seq. Qed.

(** C1: for every batch size [b >= 1], a full pass of [iterbatches] without
    padding, deterministic or not, yields every sample of the dataset exactly
    once: the samples of the batches are a rearrangement of the samples of
    the shards, their number is [len(D)], and no sample is repeated if the
    dataset holds none twice. *)
Theorem iterbatches_every_sample_exactly_once
    (ds : DiskDataset) (b : nat) (deterministic : bool) (rng : RandomState)
    (shards : list Shard) :
  1 ≤ b → valid_random rng →
  all_shards ds = Ok shards → Forall aligned shards →
  ∃ batches,
    iterbatches ds (Some b) deterministic false rng = Ok batches
    ∧ concat (samples <$> batches) ≡ₚ concat (samples <$> shards)
    ∧ len ds = Ok (length (concat (samples <$> batches)))
    ∧ (NoDup (concat (samples <$> shards)) → NoDup (concat (samples <$> batches))).
Proof.
  intros Hb Hrng Hall Hal. unfold iterbatches.
  set (n := get_number_shards ds).
  set (p := if deterministic then arange n else permutation rng 0 n).
  assert (p ≡ₚ seq 0 n) as Hp.
  { subst p. destruct deterministic; [done|apply Hrng]. }
  pose proof (all_shards_length _ _ Hall) as Hlen. fold n in Hlen.
  destruct (Permutation_in_range p n Hp) as [Hlt Hplen].
  assert (Forall (λ k, k < length shards) p) as Hlt' by by rewrite Hlen.
  set (L := reorder p shards).
  assert (Forall2 (λ i s, ∃ bs,
            iterbatches_shard ds (Some b) deterministic false rng p i = Ok bs
            ∧ concat (samples <$> bs) ≡ₚ samples s) (seq 0 n) L) as HF.
  { pose proof (reorder_Forall2 p shards Hlt') as HL. fold L in HL.
    apply Forall2_same_length_lookup_2.
    - apply Forall2_length in HL. by rewrite length_seq, <-HL.
    - intros i j s Hj Hs. apply lookup_seq in Hj as [-> _]. simpl.
      destruct (Forall2_lookup_r _ _ _ _ _ HL Hs) as (k & Hk & Hks).
      eapply iterbatches_shard_samples; eauto using all_shards_lookup.
      eapply Forall_lookup_1; eauto. }
  apply Forall2_exists_mapM in HF as (bss & -> & HF).
  exists (concat bss). simpl. split; [done|].
  assert (concat (samples <$> concat bss) ≡ₚ concat (samples <$> shards)) as Hperm.
  { rewrite (concat_samples_Forall2 _ _ HF). subst L.
    rewrite (reorder_Permutation p shards); [done|]. by rewrite Hlen. }
  split; [done|]. split.
  - rewrite (len_all_shards _ _ Hall Hal). by rewrite Hperm.
  - intros Hnd. by rewrite Hperm.
Qed.

(** A random state whose draws reverse the order. *)
Definition reversing : RandomState :=
  {| permutation := λ _ n, reverse (seq 0 n); shuffle := λ n, reverse (seq 0 n) |}.

Lemma reversing_valid : valid_random reversing.
Proof. split; intros; simpl; by rewrite reverse_Permutation. Qed.

Definition three_shards : DiskDataset :=
  created [(Some [Row [1%Q]; Row [2%Q]; Row [3%Q]; Row [4%Q]; Row [5%Q]],
            Some [Row [0%Q]; Row [1%Q]; Row [0%Q]; Row [1%Q]; Row [0%Q]],
            None,
            Some [Obj "a"; Obj "b"; Obj "c"; Obj "d"; Obj "e"]);
           (Some [], Some [], None, Some []);
           (Some [Row [6%Q]; Row [7%Q]], Some [Row [1%Q]; Row [1%Q]], None,
            Some [Obj "f"; Obj "g"])].

Definition three_shards_read : list Shard :=
  match all_shards three_shards with Ok shards => shards | _ => [] end.

Lemma three_shards_aligned : Forall aligned three_shards_read.
Proof.
  repeat constructor; simpl; intros ? [= <-]; reflexivity.
Qed.

Lemma iterbatches_every_sample_exactly_once_witness :
  ∃ batches,
    iterbatches three_shards (Some 2) false false reversing = Ok batches
    ∧ concat (samples <$> batches) ≡ₚ concat (samples <$> three_shards_read)
    ∧ len three_shards = Ok (length (concat (samples <$> batches)))
    ∧ (NoDup (concat (samples <$> three_shards_read))
       → NoDup (concat (samples <$> batches))).
Proof.
  apply (iterbatches_every_sample_exactly_once three_shards 2 false reversing
           three_shards_read).
  - lia.
  - exact reversing_valid.
  - vm_compute. reflexivity.
  - exact three_shards_aligned.
Defined.

(** ** One shard of five rows, batch size 3, padded *)

Definition five_rows : DiskDataset :=
  created [(Some [Row [1%Q]; Row [2%Q]; Row [3%Q]; Row [4%Q]; Row [5%Q]],
            Some [Row [0%Q]; Row [1%Q]; Row [0%Q]; Row [1%Q]; Row [0%Q]],
            Some [Row [1%Q]; Row [1%Q]; Row [1%Q]; Row [1%Q]; Row [1%Q]],
            Some [Obj "a"; Obj "b"; Obj "c"; Obj "d"; Obj "e"])].

Definition five_rows_samples : list sample :=
  match get_shard five_rows 0 with Ok s => samples s | _ => [] end.

(** The statement of C4 about the batches of a shard with the samples
    [rows]: two batches, the first with the first three rows, the second with
    the remaining rows and one repeated row. *)
Definition first_full_second_padded (rows : list sample) (batches : list Shard)
    : Prop :=
  ∃ b1 b2 r, batches = [b1; b2] ∧ samples b1 = take 3 rows
             ∧ samples b2 = drop 3 rows ++ [r] ∧ r ∈ rows.

(** C4, as stated, fails: the interval points of five rows and batch size 3
    are 0, 2 and 5, so the first batch holds the rows 0 and 1, and it is the
    first batch that is padded. *)
Lemma five_rows_first_batch_not_full :
  ¬ ∃ batches,
      iterbatches five_rows (Some 3) true true rotating = Ok batches
      ∧ first_full_second_padded five_rows_samples batches.
Proof.
  intros (batches & Hit & b1 & b2 & r & -> & H1 & _).
  vm_compute in Hit. injection Hit as <- _.
  vm_compute in H1. discriminate H1.
Qed.

(** C4, amended: for a dataset with one shard of 5 rows,
    [iterbatches(batch_size=3, deterministic=True, pad_batches=True)] yields
    exactly two batches: the first holds the rows 0 and 1 and is padded with
    row 0 again to 3 rows, the second holds the rows 2, 3 and 4. *)
Theorem iterbatches_five_rows_padded
    (ds : DiskDataset) (s : Shard) (rng : RandomState) :
  get_number_shards ds = 1 → get_shard ds 0 = Ok s → aligned s →
  length (shard_X s) = 5 →
  ∃ b1 b2,
    iterbatches ds (Some 3) true true rng = Ok [b1; b2]
    ∧ samples b1 = reorder [0; 1; 0] (samples s)
    ∧ samples b2 = reorder [2; 3; 4] (samples s)
    ∧ length (samples b1) = 3 ∧ length (samples b2) = 3.
Proof.
  intros Hn Hget (Hids & Hy & Hw) Hlen.
  unfold iterbatches. rewrite Hn. simpl.
  unfold iterbatches_shard. simpl. rewrite Hget. simpl. rewrite Hlen. simpl.
  destruct s as [X y w ids]. simpl in *.
  destruct X as [|x0 [|x1 [|x2 [|x3 [|x4 [|]]]]]]; try discriminate Hlen.
  destruct ids as [|i0 [|i1 [|i2 [|i3 [|i4 [|]]]]]]; try discriminate Hids.
  assert (∀ a : option ndarray, (∀ a', a = Some a' → length a' = 5) →
            a = None ∨ ∃ a0 a1 a2 a3 a4, a = Some [a0; a1; a2; a3; a4]) as Hfive.
  { intros [a'|] Ha; [right|by left].
    specialize (Ha a' eq_refl).
    destruct a' as [|a0 [|a1 [|a2 [|a3 [|a4 [|]]]]]]; try discriminate Ha.
    by eexists _, _, _, _, _. }
  destruct (Hfive y Hy) as [->|(y0 & y1 & y2 & y3 & y4 & ->)];
    destruct (Hfive w Hw) as [->|(w0 & w1 & w2 & w3 & w4 & ->)];
    eexists _, _; (split; [reflexivity|]); repeat split.
Qed.

Lemma iterbatches_five_rows_padded_witness :
  ∃ b1 b2,
    iterbatches five_rows (Some 3) true true rotating = Ok [b1; b2]
    ∧ shard_ids b1 = [Obj "a"; Obj "b"; Obj "a"]
    ∧ shard_ids b2 = [Obj "c"; Obj "d"; Obj "e"].
Proof.
  destruct (iterbatches_five_rows_padded five_rows
              (mkShard [Row [1%Q]; Row [2%Q]; Row [3%Q]; Row [4%Q]; Row [5%Q]]
                 (Some [Row [0%Q]; Row [1%Q]; Row [0%Q]; Row [1%Q]; Row [0%Q]])
                 (Some [Row [1%Q]; Row [1%Q]; Row [1%Q]; Row [1%Q]; Row [1%Q]])
                 [Obj "a"; Obj "b"; Obj "c"; Obj "d"; Obj "e"]) rotating)
    as (b1 & b2 & Hit & _).
  - reflexivity.
  - vm_compute. reflexivity.
  - repeat split; simpl; intros ? [= <-]; reflexivity.
  - reflexivity.
  - exists b1, b2. split; [exact Hit|].
    vm_compute in Hit. injection Hit as <- <-. split; reflexivity.
Defined.

(** ** reshard: the shards that the generator yields *)

(** The four arrays of a list of buffers, each concatenated. *)
Definition bapp (a b : buffers) : buffers :=
  (a.1.1.1 ++ b.1.1.1, a.1.1.2 ++ b.1.1.2, a.1.2 ++ b.1.2, a.2 ++ b.2).

Definition flat (l : list buffers) : buffers := foldr bapp ([], [], [], []) l.

Lemma bapp_assoc (a b c : buffers) : bapp (bapp a b) c = bapp a (bapp b c).
Proof. unfold bapp. simpl. by rewrite <-!app_assoc. Qed.

Lemma bapp_nil_l (a : buffers) : bapp ([], [], [], []) a = a.
Proof. by destruct a as [[[??]?]?]. Qed.

Lemma bapp_nil_r (a : buffers) : bapp a ([], [], [], []) = a.
Proof. destruct a as [[[??]?]?]. unfold bapp. simpl. by rewrite !app_nil_r. Qed.

Lemma flat_app (l1 l2 : list buffers) : flat (l1 ++ l2) = bapp (flat l1) (flat l2).
Proof.
  induction l1 as [|a l1 IH]; simpl; [by rewrite bapp_nil_l|].
  by rewrite IH, bapp_assoc.
Qed.

(** A list of shards of which all but the last have [k] rows, and the last
    at most [k]. *)
Definition full_but_last (k : nat) (l : list buffers) : Prop :=
  ∃ full last, l = full ++ [last]
               ∧ Forall (λ b : buffers, length b.1.1.1 = k) full
               ∧ length last.1.1.1 ≤ k.

Lemma reshard_while_spec (fuel k : nat) (b : buffers) :
  0 < k → length b.1.1.1 ≤ fuel + k →
  ∃ out b',
    reshard_while fuel k b = Ok (buffers_raw <$> out, b')
    ∧ bapp (flat out) b' = b
    ∧ Forall (λ o : buffers, length o.1.1.1 = k) out
    ∧ length b'.1.1.1 ≤ k.
Proof.
  intros Hk. revert b. induction fuel as [|fuel IH]; intros [[[X y] w] ids] Hlen;
    simpl in *.
  - rewrite decide_False by lia. exists [], (X, y, w, ids).
    split; [done|]. split; [done|]. split; [constructor|simpl; lia].
  - case_decide as Hgt.
    + destruct (IH (drop k X, drop k y, drop k w, drop k ids))
        as (out & b' & -> & Hflat & Hfull & Hlast).
      { simpl. rewrite length_drop. lia. }
      destruct b' as [[[X' y'] w'] ids'].
      exists ((take k X, take k y, take k w, take k ids) :: out), (X', y', w', ids').
      simpl. split; [done|]. split; [|split].
      * rewrite bapp_assoc, Hflat. unfold bapp. simpl.
        by rewrite !take_drop.
      * constructor; [|done]. simpl. rewrite length_take. lia.
      * done.
    + exists [], (X, y, w, ids).
      split; [done|]. split; [done|]. split; [constructor|simpl; lia].
Qed.

(** The arrays of a shard with labels and weights. *)
Definition labelled (s : Shard) : Prop :=
  is_Some (shard_y s) ∧ is_Some (shard_w s).

Definition shard_buffers (s : Shard) : buffers :=
  (shard_X s, default [] (shard_y s), default [] (shard_w s), shard_ids s).

Definition buffers_shard (b : buffers) : Shard :=
  mkShard b.1.1.1 (Some b.1.1.2) (Some b.1.2) b.2.

Lemma shard_buffers_shard (b : buffers) : shard_buffers (buffers_shard b) = b.
Proof. by destruct b as [[[??]?]?]. Qed.

(** The rows of [a] have [width] entries each. *)
Definition fits (width : nat) (a : ndarray) : Prop :=
  Forall (λ c, row_width c = Some width) a.

(** The entries of [a] are single numbers or objects. *)
Definition flat_array (a : ndarray) : Prop :=
  Forall (λ c, row_width c = None) a.

(** The arrays of a shard have the shapes that the buffers of [reshard]
    are made for: X is two-dimensional with rows of [width] entries, the
    labels and the weights are two-dimensional with one column per task,
    and the ids are one-dimensional. *)
Definition shaped (width n_tasks : nat) (s : Shard) : Prop :=
  fits width (shard_X s)
  ∧ fits n_tasks (default [] (shard_y s))
  ∧ fits n_tasks (default [] (shard_w s))
  ∧ flat_array (shard_ids s).

Lemma vstack_fits (width : nat) (a_next a : ndarray) :
  fits width a → vstack width a_next (Some a) = Ok (a_next ++ a).
Proof.
  intros Ha. unfold vstack, atleast_2d.
  assert (forallb is_row a = true) as ->.
  { apply forallb_forall. intros c Hc%list_elem_of_In.
    unfold is_row. apply bool_decide_eq_true.
    rewrite (proj1 (Forall_forall _ _) Ha c Hc). by eexists. }
  cbn [mbind outcome_bind].
  assert (forallb (λ r, bool_decide (row_width r = Some width)) a = true) as ->.
  { apply forallb_forall. intros c Hc%list_elem_of_In.
    apply bool_decide_eq_true. exact (proj1 (Forall_forall _ _) Ha c Hc). }
  done.
Qed.

Lemma concatenate_flat (a_next a : ndarray) :
  flat_array a → concatenate a_next a = Ok (a_next ++ a).
Proof.
  intros Ha. unfold concatenate.
  assert (forallb (λ c, negb (is_row c)) a = true) as ->; [|done].
  apply forallb_forall. intros c Hc%list_elem_of_In.
  unfold is_row. apply negb_true_iff, bool_decide_eq_false.
  rewrite (proj1 (Forall_forall _ _) Ha c Hc). by intros [? [=]].
Qed.

Lemma reshard_for_spec (ds : DiskDataset) (k width : nat) (rows : list MetaRow)
    (shards : list Shard) (b : buffers) :
  0 < k → length b.1.1.1 ≤ k →
  Forall2 (λ row s, itershards_row ds row = Ok s ∧ labelled s
                    ∧ shaped width (length (tasks ds)) s) rows shards →
  ∃ out,
    reshard_for ds k width b rows = Ok (buffers_raw <$> out)
    ∧ flat out = bapp b (flat (shard_buffers <$> shards))
    ∧ full_but_last k out.
Proof.
  intros Hk Hb H. revert b Hb.
  induction H as [|row s rows shards (Hrow & [[y Hy] [w Hw]] & Hshape) _ IH];
    intros b Hb.
  - exists [b]. simpl. split; [done|]. split.
    + by rewrite bapp_nil_r.
    + exists [], b. by repeat split.
  - destruct b as [[[X_next y_next] w_next] ids_next]. simpl.
    destruct Hshape as (HsX & Hsy & Hsw & Hsids). rewrite Hy in Hsy.
    rewrite Hw in Hsw. simpl in Hsy, Hsw.
    rewrite Hrow. simpl. rewrite Hy, Hw. unfold get_task_names.
    rewrite (vstack_fits _ _ _ HsX). cbn [mbind outcome_bind].
    rewrite (vstack_fits _ _ _ Hsy). cbn [mbind outcome_bind].
    rewrite (vstack_fits _ _ _ Hsw). cbn [mbind outcome_bind].
    rewrite (concatenate_flat _ _ Hsids). cbn [mbind outcome_bind].
    destruct (reshard_while_spec (length (X_next ++ shard_X s)) k
                (X_next ++ shard_X s, y_next ++ y, w_next ++ w,
                 ids_next ++ shard_ids s))
      as (out1 & b' & -> & Hflat & Hfull & Hlast); [done|simpl; lia|].
    simpl. destruct (IH b' Hlast) as (out2 & Hout2 & Hflat2 & Hfbl).
    destruct Hfbl as (full & last & -> & Hf2 & Hl2).
    rewrite Hout2. simpl. exists (out1 ++ full ++ [last]). split; [by rewrite !fmap_app|].
    split.
    + rewrite flat_app, Hflat2, <-bapp_assoc, Hflat.
      unfold shard_buffers at 2. rewrite Hy, Hw. simpl.
      unfold bapp. simpl. by rewrite <-!app_assoc.
    + exists (out1 ++ full), last. rewrite app_assoc. split; [done|].
      split; [|done]. by apply Forall_app.
Qed.

(** ** create_dataset: what is read back *)

(** The metadata row of shard number [n] when all four arrays are written. *)
Definition full_row (n : nat) (tasks : list string) : MetaRow :=
  let b := shard_basename n in
  mkMetaRow b tasks (Some (b +:+ "-ids.joblib")) (Some (b +:+ "-X.joblib"))
    (Some (b +:+ "-y.joblib")) (Some (b +:+ "-w.joblib")).

(** The files of shard number [n] hold the arrays [b]. *)
Definition holds (d : directory) (n : nat) (b : buffers) : Prop :=
  data_files d !! (shard_basename n +:+ "-X.joblib") = Some b.1.1.1
  ∧ data_files d !! (shard_basename n +:+ "-y.joblib") = Some b.1.1.2
  ∧ data_files d !! (shard_basename n +:+ "-w.joblib") = Some b.1.2
  ∧ data_files d !! (shard_basename n +:+ "-ids.joblib") = Some b.2.

Lemma write_full_shard (d : directory) (n : nat) (tasks : list string)
    (X y w ids : ndarray) :
  let d' := (write_data_to_disk d (shard_basename n) tasks
               (Some X) (Some y) (Some w) (Some ids)).1 in
  write_data_to_disk d (shard_basename n) tasks (Some X) (Some y) (Some w) (Some ids)
  = (d', full_row n tasks)
  ∧ holds d' n (X, y, w, ids)
  ∧ metadata_file d' = metadata_file d
  ∧ (∀ name, (∀ sfx, sfx ∈ suffixes → name ≠ shard_basename n +:+ sfx) →
       data_files d' !! name = data_files d !! name).
Proof.
  intros d'.
  pose proof (write_data_to_disk_files d (shard_basename n) tasks
                (Some X) (Some y) (Some w) (Some ids)) as (HX & Hy & Hw & Hids).
  fold d' in HX, Hy, Hw, Hids.
  split; [|split; [|split]].
  - subst d'. rewrite write_data_to_disk_eq. reflexivity.
  - unfold holds. cbn [fst snd]. auto.
  - apply write_data_to_disk_metadata.
  - intros name Hname. by apply write_data_to_disk_other.
Qed.

Lemma write_shards_spec (d : directory) (tasks : list string) (k : nat)
    (bufs : list buffers) :
  ∃ d',
    write_shards d tasks k (buffers_raw <$> bufs)
    = (d', imap (λ i _, full_row (k + i) tasks) bufs)
    ∧ metadata_file d' = metadata_file d
    ∧ (∀ name, (∀ j sfx, k ≤ j → sfx ∈ suffixes → name ≠ shard_basename j +:+ sfx) →
         data_files d' !! name = data_files d !! name)
    ∧ (∀ i b, bufs !! i = Some b → holds d' (k + i) b).
Proof.
  revert d k. induction bufs as [|b bufs IH]; intros d k.
  - exists d. by repeat split.
  - destruct b as [[[X y] w] ids].
    pose proof (write_full_shard d k tasks X y w ids) as Hw. cbv zeta in Hw.
    destruct Hw as (Hw & Hholds & Hmeta & Hother).
    set (d1 := (write_data_to_disk d (shard_basename k) tasks (Some X) (Some y)
                  (Some w) (Some ids)).1) in *.
    destruct (IH d1 (S k)) as (d' & Hws & Hmeta' & Hother' & Hholds').
    exists d'. split; [|split; [|split]].
    + rewrite fmap_cons. cbn [write_shards buffers_raw].
      rewrite Hw, Hws. rewrite imap_cons, Nat.add_0_r. do 2 f_equal.
      apply imap_ext. intros i b _. simpl. f_equal. lia.
    + congruence.
    + intros name Hname. rewrite Hother'.
      * apply Hother. intros sfx Hsfx. by apply Hname.
      * intros j sfx Hj Hsfx. apply Hname; [lia|done].
    + intros [|i] b Hb; simpl in Hb.
      * injection Hb as <-. rewrite Nat.add_0_r.
        destruct Hholds as (H1 & H2 & H3 & H4). unfold holds.
        destruct in_suffixes as (? & ? & ? & ?).
        rewrite !Hother'; [done|..];
          intros j sfx Hj Hsfx; apply shard_file_ne; (lia || done).
      * replace (k + S i) with (S k + i) by lia. by apply Hholds'.
Qed.

Lemma itershards_row_full (ds : DiskDataset) (n : nat) (tasks : list string)
    (b : buffers) :
  holds (data_dir ds) n b →
  itershards_row ds (full_row n tasks) = Ok (buffers_shard b).
Proof.
  intros (HX & Hy & Hw & Hids).
  unfold itershards_row, load_labels, load_weights, path_exists, load_from_disk.
  simpl. rewrite HX, Hids, Hy, Hw. simpl. done.
Qed.

Lemma create_dataset_read (bufs : list buffers) (tasks : list string) :
  ∃ ds',
    create_dataset (buffers_raw <$> bufs) empty_directory tasks = Ok ds'
    ∧ DiskDataset.tasks ds' = tasks
    ∧ length (metadata_df ds') = length bufs
    ∧ Forall2 (λ row b, itershards_row ds' row = Ok (buffers_shard b))
        (metadata_df ds') bufs.
Proof.
  destruct (write_shards_spec empty_directory tasks 0 bufs)
    as (d' & Hws & _ & _ & Hholds).
  unfold create_dataset. rewrite Hws. simpl.
  eexists. split; [reflexivity|]. simpl. split; [done|].
  split; [by rewrite length_imap|].
  apply Forall2_same_length_lookup_2; [by rewrite length_imap|].
  intros i row b Hrow Hb. rewrite list_lookup_imap, Hb in Hrow.
  injection Hrow as <-. apply itershards_row_full. simpl.
  destruct (Hholds i b Hb) as (H1 & H2 & H3 & H4). by repeat split.
Qed.

(** ** reshard *)

Lemma itershards_row_parts (ds : DiskDataset) (row : MetaRow) (s : Shard) :
  itershards_row ds row = Ok s →
  join (col_X row) ≫= load_from_disk (data_dir ds) = Ok (shard_X s)
  ∧ join (col_ids row) ≫= load_from_disk (data_dir ds) = Ok (shard_ids s)
  ∧ load_labels (data_dir ds) row = Ok (shard_y s).
Proof.
  unfold itershards_row. intros H.
  apply bind_Ok in H as (X & HX & H). apply bind_Ok in H as (ids & Hids & H).
  apply bind_Ok in H as (y & Hy & H). apply bind_Ok in H as (w & _ & H).
  injection H as <-. done.
Qed.

Lemma len_itershards (ds : DiskDataset) (shards : list Shard) :
  itershards ds = Ok shards →
  len ds = Ok (length (concat (shard_ids <$> shards))).
Proof.
  intros H. apply mapM_Ok_Forall2 in H. unfold len.
  rewrite (len_foldl ds _ shards 0); [done|].
  eapply Forall2_impl; [exact H|].
  intros row s Hrow. by apply itershards_row_parts in Hrow as (_ & ? & _).
Qed.

(** The rows of a dataset in shard order: its four arrays, each put
    together over all shards. *)
Definition contents (shards : list Shard) : buffers :=
  flat (shard_buffers <$> shards).

Lemma contents_ids (shards : list Shard) :
  (contents shards).2 = concat (shard_ids <$> shards).
Proof.
  unfold contents. induction shards as [|s shards IH]; csimpl; [done|].
  by rewrite IH.
Qed.

(** The first shard has a first row. *)
Definition first_nonempty (shards : list Shard) : Prop :=
  ∃ s rest x, shards = s :: rest ∧ shard_X s !! 0 = Some x.

Lemma full_but_last_first (k : nat) (out : list buffers) :
  0 < k → full_but_last k out → (flat out).1.1.1 ≠ [] →
  first_nonempty (buffers_shard <$> out).
Proof.
  intros Hk (full & last & -> & Hfull & _) Hne.
  destruct full as [|b full]; simpl in *.
  - rewrite app_nil_r in Hne.
    destruct (last.1.1.1) as [|x X] eqn:HX; [done|].
    exists (buffers_shard last), [], x. simpl. by rewrite HX.
  - apply Forall_cons in Hfull as [Hb _].
    destruct (b.1.1.1) as [|x X] eqn:HX; [simpl in Hb; lia|].
    eexists (buffers_shard b), _, x. simpl. by rewrite HX.
Qed.

Lemma contents_first_nonempty (shards : list Shard) :
  first_nonempty shards → (contents shards).1.1.1 ≠ [].
Proof.
  intros (s & rest & x & -> & Hx). unfold contents. csimpl.
  intros Hnil. apply app_eq_nil in Hnil as [Hnil _].
  by rewrite Hnil in Hx.
Qed.

Definition shaped_buffers (width n_tasks : nat) (b : buffers) : Prop :=
  fits width b.1.1.1 ∧ fits n_tasks b.1.1.2 ∧ fits n_tasks b.1.2
  ∧ flat_array b.2.

Lemma shaped_bapp (width n_tasks : nat) (a b : buffers) :
  shaped_buffers width n_tasks (bapp a b)
  ↔ shaped_buffers width n_tasks a ∧ shaped_buffers width n_tasks b.
Proof.
  unfold shaped_buffers, bapp, fits, flat_array. cbn [fst snd].
  rewrite !Forall_app. tauto.
Qed.

Lemma shaped_flat (width n_tasks : nat) (l : list buffers) :
  shaped_buffers width n_tasks (flat l) ↔ Forall (shaped_buffers width n_tasks) l.
Proof.
  induction l as [|b l IH]; cbn [flat foldr].
  - split; [constructor|]. intros _. by repeat split; constructor.
  - fold (flat l). by rewrite shaped_bapp, IH, Forall_cons.
Qed.

Lemma shaped_contents (width n_tasks : nat) (shards : list Shard) :
  Forall (shaped width n_tasks) shards →
  shaped_buffers width n_tasks (contents shards).
Proof.
  intros H. unfold contents. apply shaped_flat, Forall_fmap.
  eapply Forall_impl; [exact H|]. by intros s Hs.
Qed.

Lemma fits_cell_shape (width : nat) (a : ndarray) (x : cell) :
  fits width a → a !! 0 = Some x → cell_shape x = [width].
Proof.
  intros Ha Hx. pose proof (Forall_lookup_1 _ _ _ _ Ha Hx) as Hw.
  destruct x; simpl in *; congruence.
Qed.

Lemma reshard_spec (ds : DiskDataset) (k width : nat) (shards : list Shard) :
  0 < k → itershards ds = Ok shards → Forall labelled shards →
  Forall (shaped width (length (tasks ds))) shards →
  first_nonempty shards →
  ∃ ds' out,
    reshard ds k = Ok ds'
    ∧ tasks ds' = tasks ds
    ∧ metadata_file (data_dir ds') = Some (tasks ds', metadata_df ds')
    ∧ itershards ds' = Ok (buffers_shard <$> out)
    ∧ flat out = contents shards
    ∧ full_but_last k out
    ∧ Forall (shaped width (length (tasks ds'))) (buffers_shard <$> out).
Proof.
  intros Hk Hit Hlab Hshape (s0 & rest & x & -> & Hx).
  apply mapM_Ok_Forall2 in Hit.
  assert (Forall2 (λ row s, itershards_row ds row = Ok s ∧ labelled s
                            ∧ shaped width (length (tasks ds)) s)
            (metadata_df ds) (s0 :: rest)) as HF.
  { apply Forall2_same_length_lookup_2; [by eapply Forall2_length|].
    intros i row s Hrow Hs. split; [|split].
    - exact (Forall2_lookup_lr _ _ _ _ _ _ Hit Hrow Hs).
    - by eapply Forall_lookup_1.
    - exact (Forall_lookup_1 _ _ _ _ Hshape Hs). }
  destruct (reshard_for_spec ds k width (metadata_df ds) (s0 :: rest)
              ([], [], [], []))
    as (out & Hgen & Hflat & Hfbl); [done|simpl; lia|done|].
  rewrite bapp_nil_l in Hflat.
  destruct (create_dataset_read out (tasks ds)) as (ds1 & Hcreate & Htasks & _ & Hread).
  exists (save_to_disk {| data_dir := data_dir ds1; tasks := tasks ds;
                          metadata_df := metadata_df ds1 |}), out.
  split; [|split; [done|split; [done|split; [|split; [done|split; [done|]]]]]].
  - assert (get_data_shape ds = Ok [width]) as Hshape0.
    { unfold get_data_shape, first_row.
      destruct (metadata_df ds) as [|row rows]; [by inversion Hit|].
      apply Forall2_cons in Hit as [Hrow0 _]. simpl.
      apply itershards_row_parts in Hrow0 as (-> & _). simpl. rewrite Hx. simpl.
      apply Forall_cons in Hshape as [(HsX & _) _].
      by rewrite (fits_cell_shape _ _ _ HsX Hx). }
    unfold reshard, reshard_generator. rewrite Hshape0.
    cbn [mbind outcome_bind zeros_buffer]. rewrite Hgen.
    cbn [mbind outcome_bind]. rewrite Hcreate. done.
  - apply mapM_Ok_Forall2. simpl.
    eapply Forall2_fmap_r, Forall2_impl; [exact Hread|].
    intros row b Hb. simpl in *. rewrite <-Hb. by apply itershards_row_ext.
  - cbn [save_to_disk tasks]. apply Forall_fmap.
    apply (shaped_contents width (length (tasks ds))) in Hshape.
    fold (contents (s0 :: rest)) in Hflat. rewrite <-Hflat in Hshape.
    apply shaped_flat in Hshape. eapply Forall_impl; [exact Hshape|].
    by intros b Hb.
Qed.

Lemma contents_buffers (out : list buffers) :
  contents (buffers_shard <$> out) = flat out.
Proof.
  unfold contents. rewrite <-list_fmap_compose. f_equal.
  rewrite <-(list_fmap_id out) at 2. apply list_fmap_ext.
  intros i b _. apply shard_buffers_shard.
Qed.

Lemma labelled_buffers (out : list buffers) :
  Forall labelled (buffers_shard <$> out).
Proof.
  apply Forall_fmap, Forall_forall. intros b _. split; by eexists.
Qed.

(** All shards but the last have [k] rows and the last has at most [k]. *)
Definition cut_at (k : nat) (shards : list Shard) : Prop :=
  ∃ full last, shards = full ++ [last]
               ∧ Forall (λ s, length (shard_X s) = k) full
               ∧ length (shard_X last) ≤ k.

Lemma full_but_last_cut_at (k : nat) (out : list buffers) :
  full_but_last k out → cut_at k (buffers_shard <$> out).
Proof.
  intros (full & last & -> & Hfull & Hlast).
  exists (buffers_shard <$> full), (buffers_shard last).
  split; [by rewrite fmap_app|]. split; [|done].
  apply Forall_fmap. eapply Forall_impl; [exact Hfull|]. done.
Qed.

(** What the claim says of a dataset and a shard size: the call returns, and
    the rows of the dataset, put together in shard order, are what they
    were. *)
Definition reshard_keeps_rows (ds : DiskDataset) (shard_size : nat) : Prop :=
  ∃ shards ds1 shards1,
    itershards ds = Ok shards
    ∧ reshard ds shard_size = Ok ds1
    ∧ itershards ds1 = Ok shards1
    ∧ contents shards1 = contents shards.

(** A dataset of one shard. *)
Definition one_shard (X y w ids : ndarray) : DiskDataset :=
  created [(Some X, Some y, Some w, Some ids)].

(** A dataset whose first shard has no row. *)
Definition empty_first : DiskDataset :=
  created [(Some [], Some [], Some [], Some []); shard_of 0 "a"].

(** A dataset with an empty list of task names, whose labels and weights
    have a column all the same. *)
Definition without_tasks : DiskDataset :=
  match create_dataset [shard_of 0 "a"] empty_directory [] with
  | Ok ds => ds
  | _ => mkDiskDataset empty_directory [] []
  end.

(** C2: the claim does not hold for every dataset and every shard size.
    With shard size 0 the inner loop of the generator never ends.  When the
    first shard has no row, [get_data_shape] raises IndexError.  When the
    weights are absent and there is one task, [np.vstack] stacks None as a
    row of its own for every shard, and the dataset that comes back has
    other weights than it had.  When the rows of X do not all have the shape
    of the first one, when the labels or the weights do not have one column
    per task, as in a dataset without task names, or when the ids are not
    one-dimensional, [np.vstack] or [np.concatenate] raises ValueError. *)
Lemma reshard_does_not_always_keep_rows :
  ¬ reshard_keeps_rows four_shards 0
  ∧ ¬ reshard_keeps_rows empty_first 2
  ∧ ¬ reshard_keeps_rows three_shards 2
  ∧ ¬ reshard_keeps_rows without_tasks 2
  ∧ ¬ reshard_keeps_rows
        (one_shard [Row [1%Q]; Row [2%Q; 3%Q]] [Row [0%Q]; Row [1%Q]]
           [Row [1%Q]; Row [1%Q]] [Obj "a"; Obj "b"]) 2
  ∧ ¬ reshard_keeps_rows
        (one_shard [Row [1%Q]] [Row [0%Q; 1%Q]] [Row [1%Q]] [Obj "a"]) 2
  ∧ ¬ reshard_keeps_rows
        (one_shard [Row [1%Q]] [Row [0%Q]] [Row [1%Q; 1%Q]] [Obj "a"]) 2
  ∧ ¬ reshard_keeps_rows
        (one_shard [Row [1%Q]] [Row [0%Q]] [Row [1%Q]] [Objs [PyStr "a"]]) 2.
Proof.
  repeat split; intros (shards & ds1 & shards1 & Hit & Hre & Hit1 & Hc);
    vm_compute in Hre; try discriminate Hre.
  injection Hre as <-. vm_compute in Hit1. injection Hit1 as <-.
  vm_compute in Hit. injection Hit as <-. vm_compute in Hc. discriminate Hc.
Qed.

(** C2: [reshard(shard_size)] with a positive shard size, on a dataset whose
    first shard has a row and whose shards all have labels and weights and
    arrays of the shapes the buffers are made for (rows of one width in X,
    one column per task in the labels and the weights, one-dimensional
    ids), keeps the rows of the dataset and their order, as seen by putting
    the shards together in index order, and so the total row count; only
    the places where the shards are cut change.  Resharding the result back
    to the original shard size, when that is positive, gives the rows of
    the original dataset in the original order again. *)
Theorem reshard_preserves_rows
    (ds : DiskDataset) (shard_size original_size width : nat)
    (shards : list Shard) :
  0 < shard_size →
  itershards ds = Ok shards → Forall labelled shards →
  Forall (shaped width (length (tasks ds))) shards → first_nonempty shards →
  get_shard_size ds = Ok original_size → 0 < original_size →
  ∃ ds1 shards1,
    reshard ds shard_size = Ok ds1
    ∧ itershards ds1 = Ok shards1
    ∧ contents shards1 = contents shards
    ∧ len ds1 = len ds
    ∧ cut_at shard_size shards1
    ∧ ∃ ds2 shards2,
        reshard ds1 original_size = Ok ds2
        ∧ itershards ds2 = Ok shards2
        ∧ contents shards2 = contents shards
        ∧ len ds2 = len ds.
Proof.
  intros Hk Hit Hlab Hshape Hfirst _ Hk0.
  destruct (reshard_spec ds shard_size width shards Hk Hit Hlab Hshape Hfirst)
    as (ds1 & out1 & Hre1 & Htasks1 & _ & Hit1 & Hflat1 & Hfbl1 & Hshape1).
  assert (contents (buffers_shard <$> out1) = contents shards) as Hc1.
  { by rewrite contents_buffers. }
  assert (first_nonempty (buffers_shard <$> out1)) as Hfirst1.
  { apply (full_but_last_first shard_size); [done..|].
    rewrite Hflat1. by apply contents_first_nonempty. }
  destruct (reshard_spec ds1 original_size width (buffers_shard <$> out1) Hk0 Hit1
              (labelled_buffers out1) Hshape1 Hfirst1)
    as (ds2 & out2 & Hre2 & _ & _ & Hit2 & Hflat2 & _).
  assert (contents (buffers_shard <$> out2) = contents shards) as Hc2.
  { by rewrite contents_buffers, Hflat2. }
  assert (∀ ds' shards', itershards ds' = Ok shards' →
            contents shards' = contents shards → len ds' = len ds) as Hlen.
  { intros ds' shards' Hit' Hc'.
    rewrite (len_itershards _ _ Hit'), (len_itershards _ _ Hit).
    by rewrite <-!contents_ids, Hc'. }
  exists ds1, (buffers_shard <$> out1).
  do 3 (split; [done|]). split; [by eapply Hlen|].
  split; [by apply full_but_last_cut_at|].
  exists ds2, (buffers_shard <$> out2).
  do 3 (split; [done|]). by eapply Hlen.
Qed.

Definition four_shards_read : list Shard :=
  match itershards four_shards with Ok shards => shards | _ => [] end.

Lemma reshard_preserves_rows_witness :
  ∃ ds1 shards1,
    reshard four_shards 3 = Ok ds1
    ∧ itershards ds1 = Ok shards1
    ∧ contents shards1 = contents four_shards_read
    ∧ len ds1 = len four_shards
    ∧ cut_at 3 shards1
    ∧ ∃ ds2 shards2,
        reshard ds1 2 = Ok ds2
        ∧ itershards ds2 = Ok shards2
        ∧ contents shards2 = contents four_shards_read
        ∧ len ds2 = len four_shards.
Proof.
  apply (reshard_preserves_rows four_shards 3 2 1 four_shards_read).
  - lia.
  - vm_compute. reflexivity.
  - repeat constructor; by eexists.
  - repeat constructor.
  - eexists _, _, _. split; vm_compute; reflexivity.
  - vm_compute. reflexivity.
  - lia.
Defined.

(** With shard size 0 the inner loop of the generator never ends once the
    buffer holds a row. *)
Example reshard_zero_diverges : reshard four_shards 0 = Diverge.
Proof. vm_compute. reflexivity. Qed.

(** What [reshard] does in these cases. *)
Example reshard_raises :
  reshard empty_first 2 = Raise IndexError
  ∧ reshard without_tasks 2 = Raise ValueError
  ∧ reshard (one_shard [Row [1%Q]; Row [2%Q; 3%Q]] [Row [0%Q]; Row [1%Q]]
               [Row [1%Q]; Row [1%Q]] [Obj "a"; Obj "b"]) 2
    = Raise ValueError
  ∧ reshard (one_shard [Row [1%Q]] [Row [0%Q; 1%Q]] [Row [1%Q]] [Obj "a"]) 2
    = Raise ValueError
  ∧ reshard (one_shard [Row [1%Q]] [Row [0%Q]] [Row [1%Q]] [Objs [PyStr "a"]]) 2
    = Raise ValueError
  ∧ reshard (one_shard [Num 1%Q; Num 2%Q] [Row [0%Q]; Row [1%Q]]
               [Row [1%Q]; Row [1%Q]] [Obj "a"; Obj "b"]) 2
    = Raise ValueError.
Proof. repeat split; vm_compute; reflexivity. Qed.

(** Without weights and with one task the call returns: None is stacked as
    a row of its own for each of the three shards. *)
Example reshard_stacks_None :
  ∃ ds1 shards1,
    reshard three_shards 2 = Ok ds1
    ∧ itershards ds1 = Ok shards1
    ∧ (contents shards1).1.2 = [Objs [PyNone]; Objs [PyNone]; Objs [PyNone]].
Proof.
  eexists _, _. split; [vm_compute; reflexivity|].
  split; vm_compute; reflexivity.
Qed.

End DiskDatasetFacts.

(** ** Transformers *)

Module TransformerFacts.
Import Float Transformers.

(** Exactly one of X, y and w is targeted. *)
Definition one_target (transform_X transform_y transform_w : bool) : bool :=
  Nat.b2n transform_X + Nat.b2n transform_y + Nat.b2n transform_w =? 1.

Lemma Transformer_init_checks (tX tY tW : bool) :
  Transformer_init tX tY tW
  = if one_target tX tY tW then Ok (mkTransformer tX tY tW)
    else Raise AssertionError.
Proof. by destruct tX, tY, tW. Qed.

(** C5: the constructors that call [Transformer.__init__] (Normalization,
    Clipping, Log, Balancing) raise an assertion error unless exactly one of
    X, y and w is targeted.  The constructors of CDFTransformer and
    PowerTransformer do not call it: they return an instance with both X and y
    targeted, and with neither. *)
Theorem constructors_and_targets :
  (∀ tX tY tW X_statistics y_statistics x_max y_max dataset features tasks,
     one_target tX tY tW = false →
     Transformer_init tX tY tW = Raise AssertionError
     ∧ NormalizationTransformer.init tX tY tW X_statistics y_statistics
       = Raise AssertionError
     ∧ ClippingTransformer.init tX tY tW x_max y_max = Raise AssertionError
     ∧ BalancingTransformer.init tX tY tW dataset = Raise AssertionError
     ∧ (tW = false → LogTransformer.init tX tY features tasks = Raise AssertionError))
  ∧ (∀ tX tY y bins,
       CDFTransformer.init tX tY (Some y) bins = Ok (CDFTransformer.mk tX tY bins y))
  ∧ (∀ tX tY powers,
       PowerTransformer.init tX tY powers = Ok (PowerTransformer.mk tX tY powers)).
Proof.
  split; [|by split].
  intros tX tY tW Xs ys xm ym d f t H.
  unfold NormalizationTransformer.init, ClippingTransformer.init,
    BalancingTransformer.init, LogTransformer.init.
  rewrite Transformer_init_checks, H.
  repeat split. intros ->. by rewrite Transformer_init_checks, H.
Qed.

(** What becomes of the instances that the two unchecked constructors
    return: with no target [transform] stops at a name that was never bound,
    and with both targets it returns X as it was. *)
Example power_transform_without_single_target :
  PowerTransformer.transform (PowerTransformer.mk false false [1%R])
    (PowerTransformer.mkNumpyDataset [[Fin 2]] [[Fin 3]] [] [])
  = Raise NameError
  ∧ PowerTransformer.X
      <$> PowerTransformer.transform (PowerTransformer.mk true true [0%R])
            (PowerTransformer.mkNumpyDataset [[Fin 2]] [[Fin 3]] [] [])
    = Ok [[Fin 2]].
Proof. split; reflexivity. Qed.

Lemma constructors_and_targets_witness :
  Transformer_init true true false = Raise AssertionError
  ∧ CDFTransformer.init true true (Some [[Fin 1]]) 2
    = Ok (CDFTransformer.mk true true 2 [[Fin 1]])
  ∧ PowerTransformer.init false false [1%R]
    = Ok (PowerTransformer.mk false false [1%R]).
Proof.
  destruct constructors_and_targets as (Hbase & HCDF & HPower).
  destruct (Hbase true true false ([], []) ([], []) (Fin 5) (Fin 500) None None None)
    as (H & _); [reflexivity|].
  split; [exact H|]. split; [apply HCDF|apply HPower].
Defined.

(** ** BalancingTransformer *)

Section balancing.
Import BalancingTransformer.

(** An example of task [ind], given by its row of labels and its row of
    weights, has the label [c] and a non-zero weight. *)
Definition in_class (c : Q) (ind : nat) (yw : list Q * list Q) : bool :=
  match yw.1 !! ind, yw.2 !! ind with
  | Some a, Some b => Qeq_bool a c && nonzero b
  | _, _ => false
  end.

(** The number of examples of task [ind] with label [c] and a non-zero
    weight. *)
Definition count_class (c : Q) (y w : qmatrix) (ind : nat) : nat :=
  length (filter (λ yw, in_class c ind yw = true) (zip y w)).

(** Every label is 0 or 1. *)
Definition binary (y : qmatrix) : Prop :=
  Forall (Forall (λ q, (q == 0)%Q ∨ (q == 1)%Q)) y.

(** The weight of the positive class as the specification gives it. *)
Definition balanced_weight (y w : qmatrix) (ind : nat) : Q :=
  if decide (0 < count_class 1 y w ind)
  then (inject_Z (Z.of_nat (count_class 0 y w ind))
        / inject_Z (Z.of_nat (count_class 1 y w ind)))%Q
  else 1%Q.

Lemma binary_cases (q : Q) :
  (q == 0)%Q ∨ (q == 1)%Q →
  (Qeq_bool q 0 = true ∧ Qeq_bool q 1 = false)
  ∨ (Qeq_bool q 0 = false ∧ Qeq_bool q 1 = true).
Proof.
  intros [H|H].
  - left. split; [by apply Qeq_bool_iff|].
    apply not_true_is_false. intros H1. apply Qeq_bool_iff in H1.
    rewrite H in H1. discriminate H1.
  - right. split; [|by apply Qeq_bool_iff].
    apply not_true_is_false. intros H0. apply Qeq_bool_iff in H0.
    rewrite H in H0. discriminate H0.
Qed.

Lemma filter_bool_cons {A} (f : A → bool) (x : A) (l : list A) :
  filter (λ x, f x = true) (x :: l)
  = if f x then x :: filter (λ x, f x = true) l else filter (λ x, f x = true) l.
Proof.
  rewrite filter_cons. destruct (f x); [by rewrite decide_True|by rewrite decide_False].
Qed.

Lemma column_cons (row : list Q) (M : qmatrix) (ind : nat) (col : list Q) :
  column (row :: M) ind = Ok col →
  ∃ a col', row !! ind = Some a ∧ column M ind = Ok col' ∧ col = a :: col'.
Proof.
  unfold column. simpl. intros H.
  apply bind_Ok in H as (a & Ha & H). apply bind_Ok in H as (col' & Hcol' & [= <-]).
  destruct (row !! ind) as [a'|]; [|done]. injection Ha as ->. eauto.
Qed.

Lemma qcolumn_length (M : qmatrix) (ind : nat) (col : list Q) :
  column M ind = Ok col → length col = length M.
Proof. apply mapM_Ok_length. Qed.

(** The counts that the constructor computes from the two columns of a task
    are the counts of the positive and of the negative examples with a
    non-zero weight. *)
Lemma counts_of_columns (y w : qmatrix) (ind : nat) (task_y task_w : list Q) :
  binary y → column y ind = Ok task_y → column w ind = Ok task_w →
  length y = length w →
  let selected :=
    (λ am : Q * bool, am.1)
    <$> filter (λ am : Q * bool, am.2 = true) (zip task_y (nonzero <$> task_w)) in
  length (filter (λ q, nonzero q = true) selected) = count_class 1 y w ind
  ∧ length selected = count_class 1 y w ind + count_class 0 y w ind.
Proof.
  intros Hbin. revert w task_y task_w.
  induction Hbin as [|yr y Hyr _ IH]; intros [|wr w] task_y task_w Hy Hw Hlen;
    try discriminate Hlen.
  - injection Hy as <-. injection Hw as <-. done.
  - apply column_cons in Hy as (a & ty & Ha & Hy & ->).
    apply column_cons in Hw as (b & tw & Hb & Hw & ->).
    injection Hlen as Hlen.
    destruct (IH w ty tw Hy Hw Hlen) as [IH1 IH2]. clear IH.
    assert ((a == 0)%Q ∨ (a == 1)%Q) as Ha01.
    { eapply Forall_forall in Hyr; [exact Hyr|]. by eapply list_elem_of_lookup_2. }
    assert (∀ c, in_class c ind (yr, wr) = Qeq_bool a c && nonzero b) as Hin.
    { intros c. unfold in_class. simpl. by rewrite Ha, Hb. }
    unfold count_class in *. csimpl.
    rewrite !(filter_bool_cons (λ yw, in_class _ ind yw)), !Hin.
    rewrite (filter_bool_cons (λ am : Q * bool, am.2)). simpl.
    destruct (nonzero b) eqn:Hnz; rewrite ?andb_false_r, ?andb_true_r; [|done].
    csimpl. rewrite (filter_bool_cons nonzero).
    unfold nonzero at 1 3.
    cbv zeta in IH1, IH2.
    destruct (binary_cases a Ha01) as [[H0 H1]|[H0 H1]]; rewrite H0, H1; simpl;
      (split; [|rewrite ?Nat.add_succ_r]; try apply (f_equal S);
       [exact IH1|exact IH2]).
Qed.

Lemma task_weights_balanced (y w : qmatrix) (ind : nat) (nw pw : Q) :
  binary y → task_weights y w ind = Ok (nw, pw) →
  nw = 1%Q ∧ pw = balanced_weight y w ind.
Proof.
  intros Hbin H. unfold task_weights in H.
  apply bind_Ok in H as (task_w & Hw & H).
  apply bind_Ok in H as (task_y & Hy & H).
  apply bind_Ok in H as (sel & Hsel & H).
  unfold mask_select in Hsel.
  destruct (decide (length task_y = length (nonzero <$> task_w))) as [Hlen|?];
    [|discriminate Hsel].
  injection Hsel as <-. rewrite length_fmap in Hlen.
  apply qcolumn_length in Hy as Hly. apply qcolumn_length in Hw as Hlw.
  destruct (counts_of_columns y w ind task_y task_w Hbin Hy Hw ltac:(congruence))
    as [H1 H2]. simpl in H1, H2.
  rewrite H1, H2 in H. injection H as <- <-. split; [done|].
  unfold balanced_weight.
  replace (count_class 1 y w ind + count_class 0 y w ind - count_class 1 y w ind)
    with (count_class 0 y w ind) by lia.
  done.
Qed.

(** The entry [M[i, j]]. *)
Definition entry (M : qmatrix) (i j : nat) : option Q :=
  M !! i ≫= λ row : list Q, row !! j.

(** The weight that balancing gives to an example with label [yv] and
    original weight [wv] when the class weights are [weight]. *)
Definition balanced_entry (weight : Q * Q) (yv wv : Q) : Q :=
  if nonzero wv then
    if Qeq_bool yv 0 then weight.1
    else if Qeq_bool yv 1 then weight.2
    else 0%Q
  else 0%Q.

(** What one round of the loop of [transform_array] does to a row. *)
Definition balance_row (weight : Q * Q) (ind : nat) (a b : Q) (r : list Q)
    : list Q :=
  let r := if Qeq_bool a 0 && nonzero b then <[ind := weight.1]> r else r in
  if Qeq_bool a 1 && nonzero b then <[ind := weight.2]> r else r.

Lemma balance_row_length weight ind a b r :
  length (balance_row weight ind a b r) = length r.
Proof.
  unfold balance_row.
  destruct (Qeq_bool a 0 && nonzero b), (Qeq_bool a 1 && nonzero b);
    by rewrite ?length_insert.
Qed.

Lemma balance_row_other weight ind a b r j :
  j ≠ ind → balance_row weight ind a b r !! j = r !! j.
Proof.
  intros Hj. unfold balance_row.
  destruct (Qeq_bool a 0 && nonzero b), (Qeq_bool a 1 && nonzero b);
    by rewrite ?list_lookup_insert_ne.
Qed.

Lemma Qeq_bool_0_1 (a : Q) : Qeq_bool a 0 = true → Qeq_bool a 1 = false.
Proof.
  intros H0. apply not_true_is_false. intros H1.
  apply Qeq_bool_iff in H0, H1. rewrite H0 in H1. discriminate H1.
Qed.

Lemma balance_row_at weight ind a b r :
  ind < length r → r !! ind = Some 0%Q →
  balance_row weight ind a b r !! ind = Some (balanced_entry weight a b).
Proof.
  intros Hlt Hr. unfold balance_row, balanced_entry.
  destruct (nonzero b); rewrite ?andb_false_r, ?andb_true_r; [|done].
  destruct (Qeq_bool a 0) eqn:H0.
  - rewrite (Qeq_bool_0_1 a H0). by rewrite list_lookup_insert_eq.
  - destruct (Qeq_bool a 1); [|done]. by rewrite list_lookup_insert_eq.
Qed.

Lemma column_lookup (M : qmatrix) (ind : nat) (col : list Q) i row :
  column M ind = Ok col → M !! i = Some row →
  ∃ v, row !! ind = Some v ∧ col !! i = Some v.
Proof.
  intros H Hrow.
  destruct (mapM_Ok_lookup _ _ _ _ _ H Hrow) as (v & Hv & Hcol).
  exists v. split; [|done]. by destruct (row !! ind) as [v'|]; simplify_eq/=.
Qed.

Lemma column_Ok (M : qmatrix) (ind : nat) :
  Forall (λ row, ind < length row) M → ∃ col, column M ind = Ok col.
Proof.
  unfold column. induction 1 as [|row M Hrow _ [col IH]]; simpl.
  - by exists [].
  - destruct (lookup_lt_is_Some_2 row ind Hrow) as [v Hv].
    rewrite Hv. simpl. rewrite IH. simpl. by eexists.
Qed.

(** One round of the loop of [transform_array], row by row. *)
Lemma balance_task_rows (self : t) (y w wb : qmatrix) (ind : nat) (weight : Q * Q) :
  length y = length w → length wb = length w →
  Forall (λ row, ind < length row) y → Forall (λ row, ind < length row) w →
  weights self !! ind = Some weight →
  ∃ wb',
    balance_task self y w (Ok wb) ind = Ok wb'
    ∧ length wb' = length w
    ∧ ∀ i yr wr r a b,
        y !! i = Some yr → w !! i = Some wr → wb !! i = Some r →
        yr !! ind = Some a → wr !! ind = Some b →
        wb' !! i = Some (balance_row weight ind a b r).
Proof.
  intros Hyw Hwb Hy Hw Hweight.
  destruct (column_Ok y ind Hy) as [ty Hty].
  destruct (column_Ok w ind Hw) as [tw Htw].
  pose proof (qcolumn_length _ _ _ Hty) as Hlty.
  pose proof (qcolumn_length _ _ _ Htw) as Hltw.
  unfold balance_task, class_indices, assign. simpl.
  rewrite Hty, Htw. simpl.
  rewrite decide_True by congruence. simpl.
  rewrite decide_True by congruence. simpl.
  rewrite Hweight. simpl.
  rewrite decide_True by (rewrite length_zip_with; lia). simpl.
  rewrite decide_True by (rewrite !length_zip_with; lia).
  eexists. split; [reflexivity|]. split.
  - rewrite !length_zip_with. lia.
  - intros i yr wr r a b Hyr Hwr Hr Ha Hb.
    destruct (column_lookup _ _ _ _ _ Hty Hyr) as (a' & Ha' & Htya).
    destruct (column_lookup _ _ _ _ _ Htw Hwr) as (b' & Hb' & Htwb).
    assert (a' = a) as -> by congruence. assert (b' = b) as -> by congruence.
    rewrite !lookup_zip_with, Hr, Htya, Htwb. simpl.
    unfold balance_row.
    by destruct (Qeq_bool a 0 && nonzero b), (Qeq_bool a 1 && nonzero b).
Qed.

Lemma zeros_like_lookup (w : qmatrix) i wr :
  w !! i = Some wr → zeros_like w !! i = Some ((λ _, 0%Q) <$> wr).
Proof. intros H. unfold zeros_like. by rewrite list_lookup_fmap, H. Qed.

(** The state of [w_balanced] after the rounds for the tasks below [m]. *)
Definition balanced_up_to (self : t) (y w : qmatrix) (m : nat) (wb : qmatrix)
    : Prop :=
  length wb = length w
  ∧ ∀ i yr wr, y !! i = Some yr → w !! i = Some wr →
      ∃ r, wb !! i = Some r ∧ length r = length wr
           ∧ ∀ j a b, yr !! j = Some a → wr !! j = Some b →
               (j < m → ∀ weight, weights self !! j = Some weight →
                        r !! j = Some (balanced_entry weight a b))
               ∧ (m ≤ j → r !! j = Some 0%Q).

Lemma transform_fold (self : t) (y w : qmatrix) (n : nat) :
  length y = length w →
  Forall (λ row, n ≤ length row) y → Forall (λ row, n ≤ length row) w →
  n ≤ length (weights self) →
  ∀ m, m ≤ n →
    ∃ wb, foldl (balance_task self y w) (Ok (zeros_like w)) (seq 0 m) = Ok wb
          ∧ balanced_up_to self y w m wb.
Proof.
  intros Hyw Hy Hw Hweights. induction m as [|m IH]; intros Hm.
  - exists (zeros_like w). split; [done|]. split.
    + unfold zeros_like. by rewrite length_fmap.
    + intros i yr wr Hyr Hwr. eexists. split; [by apply zeros_like_lookup|].
      split; [by rewrite length_fmap|].
      intros j a b Ha Hb. split; [lia|]. intros _.
      by rewrite list_lookup_fmap, Hb.
  - destruct IH as (wb & Hfold & Hlen & Hrows); [lia|].
    rewrite seq_S, foldl_app, Hfold. cbn [foldl Nat.add].
    destruct (lookup_lt_is_Some_2 (weights self) m ltac:(lia)) as [weight Hweight].
    destruct (balance_task_rows self y w wb m weight Hyw Hlen)
      as (wb' & -> & Hlen' & Hrows'); [| |done|].
    { eapply Forall_impl; [exact Hy|]. simpl. lia. }
    { eapply Forall_impl; [exact Hw|]. simpl. lia. }
    exists wb'. split; [done|]. split; [done|].
    intros i yr wr Hyr Hwr.
    destruct (Hrows i yr wr Hyr Hwr) as (r & Hr & Hrlen & Hentries).
    assert (m < length yr) as Hmy.
    { eapply Forall_lookup_1 in Hy; [|exact Hyr]. simpl in Hy. lia. }
    assert (m < length wr) as Hmw.
    { eapply Forall_lookup_1 in Hw; [|exact Hwr]. simpl in Hw. lia. }
    destruct (lookup_lt_is_Some_2 yr m Hmy) as [am Ham].
    destruct (lookup_lt_is_Some_2 wr m Hmw) as [bm Hbm].
    exists (balance_row weight m am bm r).
    split; [by eapply Hrows'|]. split; [by rewrite balance_row_length|].
    intros j a b Ha Hb. destruct (Hentries j a b Ha Hb) as [Hlt Hge].
    destruct (decide (j = m)) as [->|Hjm].
    + split; [|lia]. intros _ weight' Hweight'.
      assert (weight' = weight) as -> by congruence.
      assert (am = a) as -> by congruence. assert (bm = b) as -> by congruence.
      apply balance_row_at; [lia|]. apply Hge. lia.
    + rewrite balance_row_other by done. split.
      * intros Hj. apply Hlt. lia.
      * intros Hj. apply Hge. lia.
Qed.

Lemma init_Ok (tX tY tW : bool) (d : option Dataset) (self : t) :
  init tX tY tW d = Ok self →
  ∃ d', d = Some d' ∧ dataset self = d'
        ∧ mapM (task_weights (y d') (w d')) (seq 0 (length (task_names d')))
          = Ok (weights self).
Proof.
  unfold init. intros H.
  apply bind_Ok in H as (base & _ & H). apply bind_Ok in H as (_ & _ & H).
  apply bind_Ok in H as (_ & _ & H). apply bind_Ok in H as (_ & _ & H).
  apply bind_Ok in H as (d' & Hd & H). apply bind_Ok in H as (_ & _ & H).
  apply bind_Ok in H as (ws & Hws & H). injection H as <-.
  destruct d as [d''|]; [|done]. injection Hd as ->. eauto.
Qed.

(** The reference dataset of the scenario: one task, 80 negatives and 20
    positives, all with weight 1. *)
Definition eighty_twenty : Dataset :=
  mkDataset (replicate 80 [0%Q] ++ replicate 20 [1%Q]) (replicate 100 [1%Q])
    ["task"].

(** C6: for a BalancingTransformer built from a reference dataset with
    labels in {0, 1}, the weights of each task are 1 for the negative class
    and, for the positive class, the number of negatives with non-zero weight
    over the number of positives with non-zero weight if there is a positive,
    else 1.  [transform_array] gives every entry with a non-zero original
    weight the weight of its class and leaves 0 where the original weight is
    0.  For 80 negatives and 20 positives the weights are 1 and 4. *)
Theorem balancing_weights_and_transform (d : Dataset) (self : t) :
  init false false true (Some d) = Ok self → binary (y d) →
  (∀ ind, ind < length (task_names d) →
     ∃ weight, weights self !! ind = Some weight
               ∧ weight.1 = 1%Q
               ∧ weight.2 = balanced_weight (y d) (w d) ind)
  ∧ (∀ (X : qmatrix) (y' w' : qmatrix),
       length y' = length w' →
       Forall (λ row, length (task_names d) ≤ length row) y' →
       Forall (λ row, length (task_names d) ≤ length row) w' →
       ∃ w_balanced,
         transform_array self X y' w' = Ok (X, y', w_balanced)
         ∧ ∀ i j yv wv weight,
             j < length (task_names d) → weights self !! j = Some weight →
             entry y' i j = Some yv → entry w' i j = Some wv →
             entry w_balanced i j = Some (balanced_entry weight yv wv)
             ∧ ((wv == 0)%Q → balanced_entry weight yv wv = 0%Q))
  ∧ (∃ pos_weight,
       weights <$> init false false true (Some eighty_twenty)
       = Ok [(1%Q, pos_weight)] ∧ (pos_weight == 4)%Q).
Proof.
  intros Hinit Hbin.
  apply init_Ok in Hinit as (d' & [= <-] & Hds & Hws).
  pose proof (mapM_Ok_length _ _ _ Hws) as Hlen. rewrite length_seq in Hlen.
  split; [|split].
  - intros ind Hind.
    destruct (mapM_Ok_lookup _ _ _ ind ind Hws) as ([nw pw] & Htw & Hlook).
    { by apply lookup_seq_lt. }
    exists (nw, pw). split; [done|].
    by apply task_weights_balanced.
  - intros X y' w' Hyw Hy Hw. unfold transform_array. rewrite Hds.
    destruct (transform_fold self y' w' (length (task_names d)) Hyw Hy Hw
                ltac:(lia) (length (task_names d)) ltac:(lia))
      as (wb & -> & _ & Hrows).
    exists wb. split; [done|].
    intros i j yv wv weight Hj Hweight Hyv Hwv. split.
    + unfold entry in *.
      destruct (y' !! i) as [yr|] eqn:Hyr; [|done].
      destruct (w' !! i) as [wr|] eqn:Hwr; [|done]. simpl in *.
      destruct (Hrows i yr wr Hyr Hwr) as (r & -> & _ & Hentries).
      simpl. destruct (Hentries j yv wv Hyv Hwv) as [Hlt _]. by apply Hlt.
    + intros Hzero. unfold balanced_entry, nonzero.
      apply Qeq_bool_iff in Hzero. by rewrite Hzero.
  - eexists. split; [vm_compute; reflexivity|reflexivity].
Qed.

Definition eighty_twenty_transformer : t :=
  match init false false true (Some eighty_twenty) with
  | Ok self => self
  | _ => mk (mkTransformer false false true) eighty_twenty []
  end.

Lemma balancing_weights_and_transform_witness :
  (∃ weight, weights eighty_twenty_transformer !! 0 = Some weight
             ∧ weight.1 = 1%Q
             ∧ weight.2 = balanced_weight (y eighty_twenty) (w eighty_twenty) 0)
  ∧ (balanced_weight (y eighty_twenty) (w eighty_twenty) 0 == 4)%Q.
Proof.
  assert (init false false true (Some eighty_twenty)
          = Ok eighty_twenty_transformer) as Hinit.
  { vm_compute. reflexivity. }
  assert (binary (y eighty_twenty)) as Hbin.
  { apply Forall_app. split; apply Forall_replicate.
    - constructor; [by left|constructor].
    - constructor; [by right|constructor]. }
  destruct (balancing_weights_and_transform eighty_twenty
              eighty_twenty_transformer Hinit Hbin) as (Hweights & _).
  split; [apply Hweights; simpl; lia|]. vm_compute. reflexivity.
Defined.

End balancing.

(** ** Floating-point values *)

Lemma sgn_pos (x : R) : (0 < x)%R → sgn x = Gt.
Proof. intros H. unfold sgn. destruct (total_order_T x 0) as [[?|?]|?]; (done || lra). Qed.

Lemma sgn_neg (x : R) : (x < 0)%R → sgn x = Lt.
Proof. intros H. unfold sgn. destruct (total_order_T x 0) as [[?|?]|?]; (done || lra). Qed.

Lemma sgn_zero (x : R) : x = 0%R → sgn x = Eq.
Proof. intros H. unfold sgn. destruct (total_order_T x 0) as [[?|?]|?]; (done || lra). Qed.

Lemma div_finite (x s : R) : s ≠ 0%R → div (Fin x) (Fin s) = Fin (x / s).
Proof.
  intros Hs. unfold div.
  destruct (Rtotal_order s 0) as [H|[H|H]]; [|done|].
  - by rewrite sgn_neg.
  - by rewrite sgn_pos.
Qed.

(** The values that are close in the sense of [np.allclose] with its default
    tolerances. *)
Definition rtol : R := (/ 100000)%R.
Definition atol : R := (/ 100000000)%R.

Definition close (a b : float) : Prop :=
  match a, b with
  | Fin x, Fin y => (Rabs (x - y) <= atol + rtol * Rabs y)%R
  | _, _ => False
  end.

Definition allclose (A B : matrix) : Prop := Forall2 (Forall2 close) A B.

(** The matrix of the finite values [M]. *)
Definition finite (M : list (list R)) : matrix :=
  (λ row : list R, Fin <$> row) <$> M.

Lemma close_refl (x : R) : close (Fin x) (Fin x).
Proof.
  simpl. replace (x - x)%R with 0%R by lra. rewrite Rabs_R0.
  pose proof (Rabs_pos x). unfold atol, rtol. nra.
Qed.

Lemma allclose_refl (M : list (list R)) : allclose (finite M) (finite M).
Proof.
  unfold allclose, finite. apply Forall2_fmap, Forall_Forall2_diag, Forall_forall.
  intros row _. apply Forall2_fmap, Forall_Forall2_diag, Forall_forall.
  intros x _. apply close_refl.
Qed.

(** ** Broadcasting *)

Lemma broadcast_Ok (op : float → float → float) (M : matrix) (v : list float) :
  Forall (λ row, length row = length v) M →
  broadcast op M v = Ok ((λ row, zip_with op row v) <$> M).
Proof.
  intros H. unfold broadcast. apply mapM_Ok_intro.
  intros row Hrow. eapply Forall_forall in H; [|exact Hrow].
  by rewrite decide_True.
Qed.

(** ** Rounding to binary64 *)

(** Half the distance between 1 and the next double, and half the
    smallest positive double. *)
Definition u : R := (/ 2 ^ 53)%R.
Definition eta : R := (/ 2 ^ 1075)%R.

Lemma u_pos : (0 < u)%R.
Proof. apply Rinv_0_lt_compat, pow_lt; lra. Qed.

Lemma eta_pos : (0 < eta)%R.
Proof. apply Rinv_0_lt_compat, pow_lt; lra. Qed.

Lemma pow2_pos (e : Z) : (0 < powerRZ 2 e)%R.
Proof. apply powerRZ_lt. lra. Qed.

Lemma ln2_pos : (0 < ln 2)%R.
Proof. rewrite <-ln_1. apply ln_increasing; lra. Qed.

Lemma ln2_le_1 : (ln 2 <= 1)%R.
Proof.
  pose proof (exp_ineq1_le 1) as H.
  destruct (Rle_dec (ln 2) 1) as [Hle|Hgt]; [done|].
  apply Rnot_le_lt in Hgt. apply exp_increasing in Hgt.
  rewrite exp_ln in Hgt by lra. lra.
Qed.

Lemma pow2_exp (e : Z) : powerRZ 2 e = Rtrigo_def.exp (IZR e * ln 2)%R.
Proof. by rewrite powerRZ_Rpower by lra. Qed.

Lemma pow2_le (e1 e2 : Z) : (e1 ≤ e2)%Z → (powerRZ 2 e1 <= powerRZ 2 e2)%R.
Proof.
  intros H. rewrite !pow2_exp. pose proof ln2_pos as Hl.
  apply IZR_le in H.
  destruct (Req_dec (IZR e1 * ln 2) (IZR e2 * ln 2)) as [->|Hne]; [lra|].
  left. apply exp_increasing. nra.
Qed.

Lemma pow2_lt (e1 e2 : Z) : (e1 < e2)%Z → (powerRZ 2 e1 < powerRZ 2 e2)%R.
Proof.
  intros H. rewrite !pow2_exp. pose proof ln2_pos as Hl.
  apply IZR_lt in H. apply exp_increasing. nra.
Qed.

(** The binary logarithm, rounded down, of a number between two powers of
    two that follow each other. *)
Lemma floor_log2 (x : R) (k : Z) :
  (powerRZ 2 k <= x)%R → (x < powerRZ 2 (k + 1))%R →
  Int_part (ln x / ln 2) = k.
Proof.
  intros Hlo Hhi. pose proof ln2_pos as Hl. pose proof (pow2_pos k) as Hk.
  assert (0 < x)%R as Hx by lra.
  symmetry. apply Int_part_spec.
  assert (IZR k * ln 2 <= ln x)%R as H1.
  { rewrite pow2_exp in Hlo.
    destruct (Rle_dec (IZR k * ln 2) (ln x)) as [?|Hgt]; [done|].
    apply Rnot_le_lt, exp_increasing in Hgt. rewrite exp_ln in Hgt by lra. lra. }
  assert (ln x < IZR (k + 1) * ln 2)%R as H2.
  { rewrite pow2_exp in Hhi. apply exp_lt_inv. by rewrite exp_ln by lra. }
  rewrite plus_IZR in H2.
  split.
  - apply (Rmult_lt_reg_r (ln 2)); [done|].
    replace ((ln x / ln 2 - 1) * ln 2)%R with (ln x - ln 2)%R by (field; lra).
    lra.
  - apply (Rmult_le_reg_r (ln 2)); [done|].
    replace (ln x / ln 2 * ln 2)%R with (ln x) by (field; lra). done.
Qed.

(** 2 to the binary logarithm, rounded down, is at most the number. *)
Lemma pow2_floor_le (x : R) :
  (0 < x)%R → (powerRZ 2 (Int_part (ln x / ln 2)) <= x)%R.
Proof.
  intros Hx. destruct (base_Int_part (ln x / ln 2)) as [H1 _].
  rewrite pow2_exp. rewrite <-(exp_ln x) at 2 by done.
  assert (IZR (Int_part (ln x / ln 2)) * ln 2 <= ln x)%R as Hle.
  { pose proof ln2_pos as Hl.
    apply (Rmult_le_compat_r (ln 2)) in H1; [|lra].
    replace (ln x / ln 2 * ln 2)%R with (ln x) in H1 by (field; lra). done. }
  destruct Hle as [Hlt| ->]; [left; by apply exp_increasing|right; done].
Qed.

Lemma nearest_even_error (x : R) : (Rabs (IZR (nearest_even x) - x) <= / 2)%R.
Proof.
  unfold nearest_even.
  destruct (base_Int_part x) as [H1 H2].
  destruct (total_order_T (x - IZR (Int_part x)) (/ 2)) as [[H|H]|H].
  - apply Rabs_le. lra.
  - destruct (Z.even (Int_part x)).
    + apply Rabs_le. lra.
    + rewrite plus_IZR. apply Rabs_le. lra.
  - rewrite plus_IZR. apply Rabs_le. lra.
Qed.

(** A number less than a half away from an integer is rounded to it. *)
Lemma nearest_even_near (x : R) (n : Z) :
  (Rabs (x - IZR n) < / 2)%R → nearest_even x = n.
Proof.
  intros Hn. apply Rabs_def2 in Hn as [Hn1 Hn2].
  unfold nearest_even. destruct (base_Int_part x) as [H1 H2].
  assert (Int_part x = n ∨ Int_part x = (n - 1)%Z) as [Hf|Hf].
  { assert (IZR (Int_part x) < IZR (n + 1))%R as Ha
      by (rewrite plus_IZR; lra).
    assert (IZR (n - 2) < IZR (Int_part x))%R as Hb
      by (rewrite minus_IZR; lra).
    apply lt_IZR in Ha, Hb. lia. }
  - rewrite Hf in *.
    destruct (total_order_T (x - IZR n) (/ 2)) as [[H|H]|H]; [done|lra|lra].
  - rewrite Hf in *. rewrite minus_IZR in *.
    destruct (total_order_T (x - (IZR n - 1)) (/ 2)) as [[H|H]|H];
      [lra|lra|lia].
Qed.

Lemma nearest_even_IZR (k : Z) : nearest_even (IZR k) = k.
Proof.
  apply nearest_even_near. replace (IZR k - IZR k)%R with 0%R by lra.
  rewrite Rabs_R0. lra.
Qed.

Lemma nearest_even_nonneg (x : R) : (0 <= x)%R → (0 ≤ nearest_even x)%Z.
Proof.
  intros Hx. unfold nearest_even. destruct (base_Int_part x) as [H1 H2].
  assert (0 ≤ Int_part x)%Z as Hf.
  { assert (IZR (-1) < IZR (Int_part x))%R as Ha by lra.
    apply lt_IZR in Ha. lia. }
  destruct (total_order_T (x - IZR (Int_part x)) (/ 2)) as [[H|H]|H];
    [done| |lia].
  destruct (Z.even (Int_part x)); lia.
Qed.

Lemma round_0 : round 0 = 0%R.
Proof.
  unfold round. unfold Rdiv. rewrite Rmult_0_l.
  rewrite (nearest_even_IZR 0). lra.
Qed.

Lemma round_nonneg (x : R) : (0 <= x)%R → (0 <= round x)%R.
Proof.
  intros Hx. unfold round. pose proof (pow2_pos (ulp_exponent x)) as He.
  assert (0 <= x / powerRZ 2 (ulp_exponent x))%R as Hq.
  { apply Rmult_le_pos; [done|]. left. by apply Rinv_0_lt_compat. }
  apply nearest_even_nonneg, IZR_le in Hq. nra.
Qed.

(** A positive result of rounding is at least the smallest positive
    double. *)
Lemma round_positive (x : R) :
  (0 < round x)%R → (powerRZ 2 (-1074) <= round x)%R.
Proof.
  unfold round. set (e := ulp_exponent x). set (n := nearest_even _).
  intros Hpos. pose proof (pow2_pos e) as He.
  assert (1 <= IZR n)%R as Hn.
  { apply IZR_le.
    assert (0 < IZR n)%R as H0 by nra. apply lt_IZR in H0. lia. }
  assert (powerRZ 2 (-1074) <= powerRZ 2 e)%R as Hle.
  { apply pow2_le. unfold e, ulp_exponent. lia. }
  pose proof (pow2_pos (-1074)). nra.
Qed.

Lemma half_pow2_neg (n : nat) : (powerRZ 2 (- Z.of_nat n) / 2 = / 2 ^ S n)%R.
Proof.
  rewrite powerRZ_neg', <-pow_powerRZ. simpl pow.
  field; apply pow_nonzero; lra.
Qed.

(** The error of rounding: a relative error of at most [u], but for the
    subnormal range, where the error is at most [eta]. *)
Lemma round_error (x : R) : (Rabs (round x - x) <= u * Rabs x + eta)%R.
Proof.
  pose proof u_pos as Hu. pose proof eta_pos as Heta.
  destruct (Req_dec x 0) as [->|Hx0].
  { rewrite round_0, Rminus_0_r, Rabs_R0. lra. }
  unfold round. set (e := ulp_exponent x).
  pose proof (pow2_pos e) as He.
  pose proof (nearest_even_error (x / powerRZ 2 e)) as Hn.
  assert (Rabs (IZR (nearest_even (x / powerRZ 2 e)) * powerRZ 2 e - x)
          <= powerRZ 2 e / 2)%R as Hhalf.
  { replace (IZR (nearest_even (x / powerRZ 2 e)) * powerRZ 2 e - x)%R
      with ((IZR (nearest_even (x / powerRZ 2 e)) - x / powerRZ 2 e)
            * powerRZ 2 e)%R by (field; lra).
    rewrite Rabs_mult, (Rabs_pos_eq (powerRZ 2 e)) by lra. nra. }
  eapply Rle_trans; [exact Hhalf|].
  assert (0 < Rabs x)%R as Hpos by (by apply Rabs_pos_lt).
  unfold e, ulp_exponent.
  destruct (Z.max_spec (Int_part (ln (Rabs x) / ln 2) - 52) (-1074))
    as [[_ ->]|[_ ->]].
  - change (-1074)%Z with (- Z.of_nat 1074)%Z. rewrite half_pow2_neg.
    fold eta. nra.
  - pose proof (pow2_floor_le (Rabs x) Hpos) as Hfl.
    unfold Z.sub. rewrite powerRZ_add by lra.
    pose proof (half_pow2_neg 52) as Hu2. fold u in Hu2.
    change (- Z.of_nat 52)%Z with (- (52))%Z in Hu2.
    replace (powerRZ 2 (Int_part (ln (Rabs x) / ln 2)) * powerRZ 2 (- (52)) / 2)%R
      with (powerRZ 2 (Int_part (ln (Rabs x) / ln 2)) * u)%R
      by (rewrite <-Hu2; lra).
    nra.
Qed.

Lemma round_bound (x : R) : (Rabs (round x) <= (1 + u) * Rabs x + eta)%R.
Proof.
  pose proof (round_error x) as H.
  replace (round x) with ((round x - x) + x)%R at 1 by lra.
  eapply Rle_trans; [apply Rabs_triang|]. lra.
Qed.

(** A number of magnitude between [2^(e+52)] and [2^(e+53)] is rounded to
    the multiple of [2^e] that is less than half of [2^e] away. *)
Lemma round_near (x : R) (n e : Z) :
  (-1074 ≤ e)%Z →
  (powerRZ 2 (e + 52) <= Rabs x)%R → (Rabs x < powerRZ 2 (e + 52 + 1))%R →
  (Rabs (x / powerRZ 2 e - IZR n) < / 2)%R →
  round x = (IZR n * powerRZ 2 e)%R.
Proof.
  intros He Hlo Hhi Hn. unfold round.
  assert (ulp_exponent x = e) as ->.
  { unfold ulp_exponent. rewrite (floor_log2 (Rabs x) (e + 52)) by done. lia. }
  by rewrite (nearest_even_near _ n).
Qed.

(** A double is rounded to itself. *)
Lemma round_double (n e : Z) :
  (-1074 ≤ e)%Z → (4503599627370496 ≤ Z.abs n < 9007199254740992)%Z →
  round (IZR n * powerRZ 2 e) = (IZR n * powerRZ 2 e)%R.
Proof.
  intros He [Hn1 Hn2]. pose proof (pow2_pos e) as Hp.
  assert (Rabs (IZR n * powerRZ 2 e) = IZR (Z.abs n) * powerRZ 2 e)%R as Habs.
  { rewrite Rabs_mult, (Rabs_pos_eq (powerRZ 2 e)) by lra. by rewrite abs_IZR. }
  apply IZR_le in Hn1. apply IZR_lt in Hn2.
  apply round_near; [done|..].
  - rewrite Habs, powerRZ_add by lra.
    change (powerRZ 2 52) with (2 ^ 52)%R. rewrite Rmult_comm.
    apply Rmult_le_compat_r; lra.
  - rewrite Habs. replace (e + 52 + 1)%Z with (e + 53)%Z by lia.
    rewrite powerRZ_add by lra.
    change (powerRZ 2 53) with (2 ^ 53)%R. rewrite (Rmult_comm (powerRZ 2 e)).
    apply Rmult_lt_compat_r; lra.
  - replace (IZR n * powerRZ 2 e / powerRZ 2 e - IZR n)%R with 0%R
      by (field; lra).
    rewrite Rabs_R0. lra.
Qed.

Lemma float_max_pos : (0 < float_max)%R.
Proof. unfold float_max. lra. Qed.

Lemma rounded_finite (x : R) :
  (Rabs (round x) <= float_max)%R → rounded x = Fin (round x).
Proof. intros H. unfold rounded. by destruct (Rle_dec _ _). Qed.

(** No overflow when the exact result is below [2^1023]. *)
Lemma rounded_small (x : R) :
  (Rabs x <= 2 ^ 1023)%R → rounded x = Fin (round x).
Proof.
  intros Hx. apply rounded_finite.
  eapply Rle_trans; [apply round_bound|].
  unfold u, eta, float_max. lra.
Qed.

(** A double that is given by its digits [n] and its exponent [e] is the
    result when it is the exact value. *)
Lemma rounded_double (x : R) (n e : Z) :
  x = (IZR n * powerRZ 2 e)%R → (-1074 ≤ e)%Z →
  (4503599627370496 ≤ Z.abs n < 9007199254740992)%Z →
  (Rabs x <= float_max)%R →
  rounded x = Fin x.
Proof.
  intros -> He Hn Hmax. rewrite rounded_finite; rewrite round_double; done.
Qed.

Lemma rounded_0 : rounded 0 = Fin 0.
Proof.
  rewrite rounded_finite; rewrite round_0; [done|].
  rewrite Rabs_R0. left. apply float_max_pos.
Qed.

Lemma rounded_1 : rounded 1 = Fin 1.
Proof.
  apply (rounded_double 1 4503599627370496 (-52)); [|lia|lia|].
  - change (powerRZ 2 (-52)) with (/ 2 ^ 52)%R. lra.
  - rewrite Rabs_R1. unfold float_max. lra.
Qed.

Lemma rounded_minus_1 : rounded (-1) = Fin (-1).
Proof.
  apply (rounded_double (-1) (-4503599627370496) (-52)); [|lia|lia|].
  - change (powerRZ 2 (-52)) with (/ 2 ^ 52)%R. lra.
  - apply Rabs_le. unfold float_max. lra.
Qed.


(** ** NormalizationTransformer *)

Lemma abs_bounds (x : R) : (- Rabs x <= x <= Rabs x)%R.
Proof.
  split; [|apply Rle_abs].
  pose proof (Rle_abs (- x)) as H. rewrite Rabs_Ropp in H. lra.
Qed.

Lemma abs_le_inv (x b : R) : (Rabs x <= b)%R → (- b <= x <= b)%R.
Proof. intros H. pose proof (abs_bounds x). lra. Qed.

(** What normalising and its inverse make of one entry [x], for the mean
    [m] and the standard deviation [s] of its column. *)
Definition normalized (x m s : R) : R := round (round (x + - m) / s).
Definition denormalized (z m s : R) : R := round (round (z * s) + m).

(** The magnitudes for which recovery is proved. *)
Definition moderate (x : R) : Prop := (Rabs x <= 10 ^ 100)%R.
Definition moderate_mean (m : R) : Prop := (Rabs m <= 10 ^ 6)%R.
Definition moderate_std (s : R) : Prop := (/ 10 ^ 100 <= Rabs s <= float_max)%R.

Lemma moderate_std_nonzero (s : R) : moderate_std s → s ≠ 0%R.
Proof.
  intros [H _] ->. rewrite Rabs_R0 in H.
  assert (0 < / 10 ^ 100)%R by (apply Rinv_0_lt_compat; lra). lra.
Qed.

Lemma normalize_entry (x m s : R) :
  moderate x → moderate_mean m → moderate_std s →
  nan_to_num (fdiv (fsub (Fin x) (Fin m)) (Fin s)) = Fin (normalized x m s)
  ∧ fadd (fmul (Fin (normalized x m s)) (Fin s)) (Fin m)
    = Fin (denormalized (normalized x m s) m s)
  ∧ close (Fin (denormalized (normalized x m s) m s)) (Fin x).
Proof.
  unfold moderate, moderate_mean. intros Hx Hm Hs.
  pose proof (moderate_std_nonzero s Hs) as Hs0. destruct Hs as [Hs1 Hs2].
  unfold float_max in Hs2.
  pose proof (abs_bounds x) as Bx. pose proof (abs_bounds m) as Bm.
  pose proof (Rabs_pos x) as Px. pose proof (Rabs_pos m) as Pm.
  assert (0 < Rabs s)%R as Ps by (by apply Rabs_pos_lt).
  unfold normalized, denormalized.
  set (d := (x + - m)%R). set (c := round d).
  set (q := (c / s)%R). set (z := round q).
  set (p := (z * s)%R). set (t := round p). set (x' := round (t + m)).
  (* the difference *)
  assert (Rabs d <= Rabs x + Rabs m)%R as Hd by (apply Rabs_le; unfold d; lra).
  pose proof (round_error d) as Ec. fold c in Ec.
  assert (Rabs c <= (1 + u) * (Rabs x + Rabs m) + eta)%R as Hc.
  { pose proof (round_bound d) as H. fold c in H. unfold u, eta in *. lra. }
  (* the quotient *)
  assert (Rabs q = Rabs c * / Rabs s)%R as Hq.
  { unfold q, Rdiv. by rewrite Rabs_mult, Rabs_inv. }
  assert (/ Rabs s <= 10 ^ 100)%R as Hinv.
  { rewrite <-(Rinv_inv (10 ^ 100)). apply Rinv_le_contravar; [|done].
    apply Rinv_0_lt_compat. lra. }
  assert (Rabs q <= Rabs c * 10 ^ 100)%R as Hq'.
  { rewrite Hq. apply Rmult_le_compat_l; [apply Rabs_pos|done]. }
  pose proof (Rabs_pos c) as Pc.
  pose proof (round_error q) as Ez. fold z in Ez.
  assert (Rabs (p - c) <= u * Rabs c + eta * Rabs s)%R as Ep.
  { replace (p - c)%R with ((z - q) * s)%R by (unfold p, q; field; done).
    rewrite Rabs_mult.
    replace (u * Rabs c + eta * Rabs s)%R
      with ((u * Rabs q + eta) * Rabs s)%R by (rewrite Hq; field; lra).
    apply Rmult_le_compat_r; [lra|done]. }
  assert (Rabs p <= (1 + u) * Rabs c + eta * Rabs s)%R as Hp.
  { replace p with ((p - c) + c)%R by lra.
    eapply Rle_trans; [apply Rabs_triang|]. lra. }
  pose proof (round_error p) as Et. fold t in Et.
  pose proof (round_error (t + m)) as Ex. fold x' in Ex.
  apply abs_le_inv in Ec, Ep, Et.
  pose proof (abs_bounds c) as Bc. pose proof (abs_bounds p) as Bp.
  pose proof (Rabs_pos p) as Pp.
  assert (Rabs (t + m) <= 8 * (Rabs x + Rabs m) + 1)%R as Htm.
  { apply Rabs_le. unfold d, u, eta in *. lra. }
  apply abs_le_inv in Ex. pose proof (Rabs_pos (t + m)) as Ptm.
  (* no overflow *)
  assert (rounded d = Fin c) as R1.
  { apply rounded_small. lra. }
  assert (rounded q = Fin z) as R2.
  { apply rounded_small. unfold u, eta in *. lra. }
  assert (rounded p = Fin t) as R3.
  { apply rounded_small. unfold u, eta in *. lra. }
  assert (rounded (t + m) = Fin x') as R4.
  { apply rounded_small. lra. }
  split; [|split].
  - unfold fsub, fdiv, sub. cbn [neg add rnd]. fold d. rewrite R1.
    rewrite div_finite by done. fold q. cbn [rnd]. by rewrite R2.
  - unfold fmul, fadd. cbn [mul rnd]. fold p. rewrite R3. cbn [add rnd].
    by rewrite R4.
  - cbn [close]. apply Rabs_le. unfold d, u, eta, atol, rtol in *. lra.
Qed.

(** ** LogTransformer *)

Lemma exp_near_1 (d : R) :
  (Rabs d <= / 2)%R → (Rabs (Rtrigo_def.exp d - 1) <= 2 * Rabs d)%R.
Proof.
  intros Hd. apply abs_le_inv in Hd.
  pose proof (exp_ineq1_le d) as H1. pose proof (exp_ineq1_le (- d)) as H2.
  pose proof (exp_pos d) as Hp.
  assert (Rtrigo_def.exp d * Rtrigo_def.exp (- d) = 1)%R as Hinv.
  { rewrite <-exp_plus, Rplus_opp_r. apply exp_0. }
  assert (Rtrigo_def.exp d * (1 - d) <= 1)%R as H3 by nra.
  apply Rabs_le. destruct (Rle_dec 0 d) as [Hpos|Hneg].
  - rewrite (Rabs_pos_eq d) by done. split; [lra|]. nra.
  - apply Rnot_le_lt in Hneg. rewrite (Rabs_left d) by done. split; [lra|nra].
Qed.

Lemma ln_pow2 (e : Z) : ln (powerRZ 2 e) = (IZR e * ln 2)%R.
Proof. by rewrite pow2_exp, ln_exp. Qed.

(** The logarithm of a number between the smallest positive double and
    [2^1022]. *)
Lemma ln_double_range (a : R) :
  (powerRZ 2 (-1074) <= a)%R → (a <= 2 ^ 1022)%R → (Rabs (ln a) <= 1074)%R.
Proof.
  intros Hlo Hhi. pose proof (pow2_pos (-1074)) as Hp.
  pose proof ln2_pos as Hl. pose proof ln2_le_1 as Hl1.
  assert (ln (powerRZ 2 (-1074)) <= ln a)%R as H1.
  { destruct Hlo as [Hlt| <-]; [left; apply ln_increasing; lra|lra]. }
  assert (ln a <= ln (powerRZ 2 1022))%R as H2.
  { change (powerRZ 2 1022) with (2 ^ 1022)%R.
    destruct Hhi as [Hlt| ->]; [left; apply ln_increasing; lra|lra]. }
  rewrite ln_pow2 in H1, H2. apply Rabs_le. lra.
Qed.

(** What is used of the logarithm and the exponential of the C library
    behind [np.log] and [np.exp]: the logarithm of 0 is minus infinity and
    the exponential of minus infinity is 0, and on the positive doubles up
    to [2^1022], and where the exponential is at most [2^1023], the result
    is finite and has a relative error of at most [2^-40], that is 8192
    units in the last place, but for an absolute error of [eta]. *)
Definition accurate (np_log np_exp : float → float) : Prop :=
  np_log (Fin 0) = NInf
  ∧ np_exp NInf = Fin 0
  ∧ (∀ a, (powerRZ 2 (-1074) <= a <= 2 ^ 1022)%R →
       ∃ y, np_log (Fin a) = Fin y
            ∧ (Rabs (y - ln a) <= / 2 ^ 40 * Rabs (ln a) + eta)%R)
  ∧ (∀ y, (Rtrigo_def.exp y <= 2 ^ 1023)%R →
       ∃ e, np_exp (Fin y) = Fin e
            ∧ (Rabs (e - Rtrigo_def.exp y) <= / 2 ^ 40 * Rtrigo_def.exp y + eta)%R).

(** The functions of the embedding, which round correctly, are accurate. *)
Lemma flog_fexp_accurate : accurate flog fexp.
Proof.
  split; [|split; [|split]].
  - unfold flog. cbn [log]. by rewrite (sgn_zero 0).
  - unfold fexp. cbn [exp rnd]. apply rounded_0.
  - intros a [Hlo Hhi]. pose proof (pow2_pos (-1074)) as Hp.
    pose proof (ln_double_range a Hlo Hhi) as HL.
    exists (round (ln a)). unfold flog. cbn [log].
    rewrite sgn_pos by lra. cbn [rnd].
    rewrite rounded_small by lra. split; [done|].
    pose proof (round_error (ln a)) as H. pose proof (Rabs_pos (ln a)).
    unfold u in H. lra.
  - intros y Hy. pose proof (exp_pos y) as Hp.
    exists (round (Rtrigo_def.exp y)). unfold fexp. cbn [exp rnd].
    rewrite rounded_small by (rewrite Rabs_pos_eq; lra). split; [done|].
    pose proof (round_error (Rtrigo_def.exp y)) as H.
    rewrite (Rabs_pos_eq (Rtrigo_def.exp y)) in H by lra.
    unfold u in H. lra.
Qed.

(** [np.exp(np.log(x + 1)) - 1] for an entry that is not below -1. *)
Lemma log_entry (np_log np_exp : float → float) (x : R) :
  accurate np_log np_exp → (-1 <= x)%R → (x <= 10 ^ 307)%R →
  ∃ x', fsub (np_exp (np_log (fadd (Fin x) (Fin 1)))) (Fin 1) = Fin x'
        ∧ close (Fin x') (Fin x).
Proof.
  intros (Hlog0 & Hexp0 & Hlog & Hexp) Hlo Hhi.
  pose proof (Rabs_pos x) as Px. pose proof (abs_bounds x) as Bx.
  set (a := round (x + 1)).
  pose proof (round_error (x + 1)) as Ea. fold a in Ea.
  rewrite (Rabs_pos_eq (x + 1)) in Ea by lra. apply abs_le_inv in Ea.
  assert (0 <= a)%R as Pa by (apply round_nonneg; lra).
  assert (rounded (x + 1) = Fin a) as Ra.
  { apply rounded_small. rewrite Rabs_pos_eq by lra. lra. }
  unfold fadd, fsub, sub. cbn [add rnd neg]. rewrite Ra.
  destruct (Req_EM_T a 0) as [Ha0|Ha0].
  - rewrite Ha0, Hlog0, Hexp0. cbn [add rnd].
    replace (0 + - (1))%R with (-1)%R by lra. rewrite rounded_minus_1.
    exists (-1)%R. split; [done|].
    cbn [close]. apply Rabs_le. unfold u, eta, atol, rtol in *. lra.
  - assert (0 < a)%R as Ha by lra.
    assert (powerRZ 2 (-1074) <= a)%R as Hmin by (by apply round_positive).
    assert (a <= 2 ^ 1022)%R as Hmax by (unfold u, eta in *; lra).
    pose proof (ln_double_range a Hmin Hmax) as HL.
    destruct (Hlog a (conj Hmin Hmax)) as (y & -> & Ey).
    set (E := Rtrigo_def.exp y).
    assert (Rabs (y - ln a) <= / 2 ^ 29)%R as Hdelta.
    { unfold eta in *. lra. }
    assert (E = a * Rtrigo_def.exp (y - ln a))%R as HE.
    { unfold E. replace y with (ln a + (y - ln a))%R at 1 by lra.
      by rewrite exp_plus, exp_ln. }
    pose proof (exp_near_1 (y - ln a)) as Hnear.
    assert (Rabs (Rtrigo_def.exp (y - ln a) - 1) <= / 2 ^ 28)%R as Hrel.
    { eapply Rle_trans; [apply Hnear; lra|]. lra. }
    apply abs_le_inv in Hrel.
    assert (a * (1 - / 2 ^ 28) <= E <= a * (1 + / 2 ^ 28))%R as BE.
    { rewrite HE. split; apply Rmult_le_compat_l; lra. }
    destruct (Hexp y) as (e & -> & Ee); [fold E; lra|]. fold E in Ee.
    apply abs_le_inv in Ee. cbn [add rnd].
    set (x' := round (e + - (1))).
    pose proof (round_error (e + - (1))) as Ex. fold x' in Ex.
    assert (Rabs (e + - (1)) <= 2 * a + 2)%R as Hem.
    { apply Rabs_le. unfold eta in *. lra. }
    pose proof (Rabs_pos (e + - (1))) as Pem. apply abs_le_inv in Ex.
    assert (rounded (e + - (1)) = Fin x') as Rx
      by (apply rounded_small; unfold u, eta in *; lra).
    rewrite Rx. exists x'. split; [done|].
    cbn [close]. apply Rabs_le. unfold u, eta, atol, rtol in *. lra.
Qed.

(** ** Arrays *)

Definition normalized_row (xs ms ss : list R) : list R :=
  zip_with (λ c s, round (c / s)) (zip_with (λ x m, round (x + - m)) xs ms) ss.

Definition denormalized_row (zs ms ss : list R) : list R :=
  zip_with (λ t m, round (t + m)) (zip_with (λ z s, round (z * s)) zs ss) ms.

Lemma normalize_row (xs ms ss : list R) :
  length xs = length ms → length ms = length ss →
  Forall moderate xs → Forall moderate_mean ms → Forall moderate_std ss →
  nan_to_num <$> zip_with fdiv (zip_with fsub (Fin <$> xs) (Fin <$> ms))
                   (Fin <$> ss)
  = Fin <$> normalized_row xs ms ss
  ∧ zip_with fadd (zip_with fmul (Fin <$> normalized_row xs ms ss) (Fin <$> ss))
      (Fin <$> ms)
    = Fin <$> denormalized_row (normalized_row xs ms ss) ms ss
  ∧ Forall2 close (Fin <$> denormalized_row (normalized_row xs ms ss) ms ss)
      (Fin <$> xs).
Proof.
  revert ms ss.
  induction xs as [|x xs IH]; intros [|m ms] [|s ss] H1 H2 Hx Hm Hs;
    try discriminate; [by repeat split; constructor|].
  apply Forall_cons in Hx as [Hx Hxs]. apply Forall_cons in Hm as [Hm Hms].
  apply Forall_cons in Hs as [Hs Hss].
  destruct (normalize_entry x m s Hx Hm Hs) as (E1 & E2 & E3).
  destruct (IH ms ss) as (I1 & I2 & I3); [by simplify_eq/=..|done|done|done|].
  unfold normalized_row, denormalized_row in *.
  rewrite !fmap_cons. cbn [zip_with]. rewrite ?fmap_cons. cbn [zip_with].
  rewrite ?fmap_cons.
  unfold normalized, denormalized in *. rewrite E1, E2, I1, I2.
  split; [done|]. split; [done|]. by constructor.
Qed.

Lemma normalized_row_length (xs ms ss : list R) :
  length xs = length ms → length ms = length ss →
  length (normalized_row xs ms ss) = length ms.
Proof.
  intros H1 H2. unfold normalized_row. rewrite !length_zip_with. lia.
Qed.

Local Ltac row_lengths HM :=
  unfold map_matrix, finite; rewrite <-?list_fmap_compose; apply Forall_fmap;
  eapply Forall_impl; [exact HM|];
  let row := fresh "row" in let Hrow := fresh "Hrow" in
  intros row Hrow; simpl in *;
  rewrite ?length_fmap, ?length_zip_with, ?length_fmap, ?length_zip_with,
    ?length_fmap; lia.

(** Normalising and undoing it with the means [ms] and the standard
    deviations [ss]. *)
Lemma normalize_denormalize (M : list (list R)) (ms ss : list R) :
  Forall (λ row, length row = length ms) M → length ms = length ss →
  Forall (Forall moderate) M → Forall moderate_mean ms →
  Forall moderate_std ss →
  ∃ Z M',
    NormalizationTransformer.normalize (Some (Fin <$> ms, Fin <$> ss)) (finite M)
    = Ok Z
    ∧ NormalizationTransformer.denormalize (Some (Fin <$> ms, Fin <$> ss)) Z
      = Ok M'
    ∧ allclose M' (finite M).
Proof.
  intros HM Hlen Hx Hm Hs.
  exists (finite ((λ row, normalized_row row ms ss) <$> M)),
    (finite ((λ row, denormalized_row (normalized_row row ms ss) ms ss) <$> M)).
  assert (∀ i row, M !! i = Some row →
            nan_to_num <$> zip_with fdiv (zip_with fsub (Fin <$> row) (Fin <$> ms))
                             (Fin <$> ss)
            = Fin <$> normalized_row row ms ss
            ∧ zip_with fadd
                (zip_with fmul (Fin <$> normalized_row row ms ss) (Fin <$> ss))
                (Fin <$> ms)
              = Fin <$> denormalized_row (normalized_row row ms ss) ms ss
            ∧ Forall2 close
                (Fin <$> denormalized_row (normalized_row row ms ss) ms ss)
                (Fin <$> row)) as Hrows.
  { intros i row Hrow. apply normalize_row; [|done| |done|done].
    - exact (Forall_lookup_1 _ _ _ _ HM Hrow).
    - exact (Forall_lookup_1 _ _ _ _ Hx Hrow). }
  unfold NormalizationTransformer.normalize, NormalizationTransformer.denormalize.
  simpl.
  rewrite broadcast_Ok by row_lengths HM. simpl.
  rewrite broadcast_Ok by row_lengths HM. simpl.
  assert (map_matrix nan_to_num
            ((λ row, zip_with fdiv row (Fin <$> ss))
             <$> ((λ row, zip_with fsub row (Fin <$> ms)) <$> finite M))
          = finite ((λ row, normalized_row row ms ss) <$> M)) as ->.
  { unfold map_matrix, finite. rewrite <-!list_fmap_compose.
    apply list_fmap_ext. intros i row Hrow. simpl.
    exact (proj1 (Hrows i row Hrow)). }
  split; [done|].
  rewrite broadcast_Ok.
  2:{ unfold finite. rewrite <-list_fmap_compose. apply Forall_fmap.
      eapply Forall_impl; [exact HM|]. intros row Hrow. simpl in *.
      rewrite !length_fmap, normalized_row_length by done. lia. }
  simpl. rewrite broadcast_Ok.
  2:{ unfold finite. rewrite <-!list_fmap_compose. apply Forall_fmap.
      eapply Forall_impl; [exact HM|]. intros row Hrow. simpl in *.
      rewrite length_zip_with, !length_fmap, normalized_row_length by done. lia. }
  split.
  - f_equal. unfold finite. rewrite <-!list_fmap_compose.
    apply list_fmap_ext. intros i row Hrow. simpl.
    exact (proj1 (proj2 (Hrows i row Hrow))).
  - unfold allclose, finite. rewrite <-list_fmap_compose.
    apply Forall2_fmap, Forall2_same_length_lookup_2; [done|].
    intros i row row' Hrow Hrow'. simplify_eq/=.
    exact (proj2 (proj2 (Hrows i row Hrow))).
Qed.

(** Zero standard deviations of the labels are replaced by 1. *)
Definition nonzero_std (s : R) : R := if Req_EM_T s 0 then 1%R else s.

Lemma replace_zero_stds (ss : list R) :
  (λ s, if is_zero s then Fin 1 else s) <$> (Fin <$> ss) = Fin <$> (nonzero_std <$> ss).
Proof.
  rewrite <-!list_fmap_compose. apply list_fmap_ext. intros i s _. simpl.
  unfold nonzero_std. destruct (Req_EM_T s 0) as [->|Hs].
  - by rewrite sgn_zero.
  - destruct (Rtotal_order s 0) as [H|[H|H]]; [|done|].
    + by rewrite sgn_neg.
    + by rewrite sgn_pos.
Qed.

Lemma nonzero_stds (ss : list R) :
  Forall (λ s, s = 0%R ∨ moderate_std s) ss →
  Forall moderate_std (nonzero_std <$> ss).
Proof.
  intros H. apply Forall_fmap. eapply Forall_impl; [exact H|].
  intros s [->|Hs]; simpl; unfold nonzero_std.
  - destruct (Req_EM_T 0 0); [|done]. unfold moderate_std, float_max.
    rewrite Rabs_R1. split; [|lra].
    rewrite <-Rinv_1. apply Rinv_le_contravar; lra.
  - destruct (Req_EM_T s 0) as [->|]; [|done].
    by apply moderate_std_nonzero in Hs.
Qed.

(** Column [j] is one that the transformer works on, for rows of which the
    first has [n] entries. *)
Definition selected (cols : option (list nat)) (n j : nat) : Prop :=
  match cols with
  | None => True
  | Some cols => j < n ∧ j ∈ cols
  end.

(** Every entry of [M] in a selected column is at least -1 and at most
    [10^307]. *)
Definition log_defined (cols : option (list nat)) (M : list (list R)) : Prop :=
  ∀ i row j x, M !! i = Some row → row !! j = Some x →
               selected cols (default 0 (length <$> head M)) j →
               (-1 <= x <= 10 ^ 307)%R.

Lemma len_first_finite (M : list (list R)) :
  M ≠ [] → len_first (finite M) = Ok (default 0 (length <$> head M)).
Proof.
  destruct M as [|row M]; [done|]. intros _. unfold len_first. simpl.
  by rewrite length_fmap.
Qed.

(** An array is given back within the tolerances by [g] on the columns of
    what [f] on the columns has returned, when that is so for every entry
    of a column that is worked on. *)
Lemma on_columns_round_trip (f g : float → float) (cols : option (list nat))
    (M : list (list R)) :
  M ≠ [] →
  (∀ i row j x, M !! i = Some row → row !! j = Some x →
                selected cols (default 0 (length <$> head M)) j →
                ∃ x', g (f (Fin x)) = Fin x' ∧ close (Fin x') (Fin x)) →
  ∃ Z M',
    LogTransformer.on_columns f cols (finite M) = Ok Z
    ∧ LogTransformer.on_columns g cols Z = Ok M'
    ∧ allclose M' (finite M).
Proof.
  intros HM Hentry. unfold LogTransformer.on_columns.
  rewrite len_first_finite by done. simpl.
  set (n := default 0 (length <$> head M)) in *.
  destruct cols as [cols|]; (eexists _, _; split; [reflexivity|]).
  - assert (len_first (map_columns f n cols (finite M)) = Ok n) as ->.
    { destruct M as [|row M]; [done|]. unfold len_first. simpl.
      by rewrite length_imap, length_fmap. }
    simpl. split; [reflexivity|].
    unfold allclose, map_columns, finite. rewrite <-!list_fmap_compose.
    apply Forall2_fmap, Forall2_same_length_lookup_2; [done|].
    intros i row row' Hrow Hrow'. simplify_eq/=.
    apply Forall2_same_length_lookup_2;
      [by rewrite !length_imap, !length_fmap|].
    intros j x' x Hx' Hx.
    rewrite list_lookup_fmap in Hx.
    repeat (rewrite list_lookup_imap in Hx' || rewrite list_lookup_fmap in Hx').
    destruct (row !! j) as [r|] eqn:Hr; simplify_eq/=.
    case_decide as Hsel; [|apply close_refl].
    destruct (Hentry i row j r Hrow Hr Hsel) as (x' & -> & Hc). exact Hc.
  - assert (len_first (map_matrix f (finite M)) = Ok n) as ->.
    { destruct M as [|row M]; [done|]. unfold len_first. simpl.
      by rewrite !length_fmap. }
    simpl. split; [reflexivity|].
    unfold allclose, map_matrix, finite. rewrite <-!list_fmap_compose.
    apply Forall2_fmap, Forall2_same_length_lookup_2; [done|].
    intros i row row' Hrow Hrow'. simplify_eq/=.
    rewrite <-!list_fmap_compose.
    apply Forall2_fmap, Forall2_same_length_lookup_2; [done|].
    intros j x x0 Hx Hx0. simplify_eq/=.
    destruct (Hentry i row j x Hrow Hx I) as (x' & -> & Hc). exact Hc.
Qed.

(** The round trip through the logarithm with any accurate [np.log] and
    [np.exp]. *)
Lemma log_exp_columns (np_log np_exp : float → float)
    (cols : option (list nat)) (M : list (list R)) :
  accurate np_log np_exp → M ≠ [] → log_defined cols M →
  ∃ Z M',
    LogTransformer.on_columns (λ x, np_log (fadd x (Fin 1))) cols (finite M)
    = Ok Z
    ∧ LogTransformer.on_columns (λ x, fsub (np_exp x) (Fin 1)) cols Z = Ok M'
    ∧ allclose M' (finite M).
Proof.
  intros Hacc HM Hdef. apply on_columns_round_trip; [done|].
  intros i row j x Hrow Hx Hsel.
  destruct (Hdef i row j x Hrow Hx Hsel) as [Hlo Hhi].
  by apply log_entry.
Qed.

(** ** Forward and back *)

(** The statement of C7 for one array: the forward transformation succeeds,
    undoing it gives an array, and that array is close to the original. *)
Definition recovered (forward : matrix → outcome matrix)
    (backward : matrix → outcome (option matrix)) (X : matrix) : Prop :=
  ∃ X_t X', forward X = Ok X_t ∧ backward X_t = Ok (Some X') ∧ allclose X' X.

Definition log_forward (self : LogTransformer.t) (X : matrix) : outcome matrix :=
  (λ Xyw : matrix * matrix * matrix, Xyw.1.1)
  <$> LogTransformer.transform_array self X [] [].

Definition normalization_forward (self : NormalizationTransformer.t) (X : matrix)
    : outcome matrix :=
  (λ Xyw : matrix * matrix * matrix, Xyw.1.1)
  <$> NormalizationTransformer.transform_array self X [] [].

(** [LogTransformer(transform_X=True)] *)
Definition log_all : LogTransformer.t :=
  LogTransformer.mk (mkTransformer true false false) None None.

(** [NormalizationTransformer(transform_X=True, dataset=...)] for a dataset
    whose one feature has mean 1 and standard deviation 0. *)
Definition normalization_constant_feature : NormalizationTransformer.t :=
  NormalizationTransformer.mk (mkTransformer true false false)
    (Some ([Fin 1], [Fin 0])) None.

(** The same for a feature with mean and standard deviation [10^20]. *)
Definition normalization_large_mean : NormalizationTransformer.t :=
  NormalizationTransformer.mk (mkTransformer true false false)
    (Some ([Fin (10 ^ 20)], [Fin (10 ^ 20)])) None.

(** The double nearest to [1 - 10^20] is [-10^20]. *)
Lemma rounded_cancellation : rounded (1 + - 10 ^ 20) = Fin (- 10 ^ 20).
Proof.
  assert (round (1 + - 10 ^ 20) = (- 10 ^ 20)%R) as Hr.
  { rewrite (round_near _ (-6103515625000000) 14).
    - change (powerRZ 2 14) with (2 ^ 14)%R. lra.
    - lia.
    - change (powerRZ 2 (14 + 52)) with (2 ^ 66)%R.
      rewrite Rabs_left by lra. lra.
    - change (powerRZ 2 (14 + 52 + 1)) with (2 ^ 67)%R.
      rewrite Rabs_left by lra. lra.
    - change (powerRZ 2 14) with (2 ^ 14)%R. apply Rabs_def1; lra. }
  rewrite rounded_finite; rewrite Hr; [done|].
  rewrite Rabs_left by lra. unfold float_max. lra.
Qed.

Lemma rounded_minus_large : rounded (- 10 ^ 20) = Fin (- 10 ^ 20).
Proof.
  apply (rounded_double _ (-6103515625000000) 14); [|lia|lia|].
  - change (powerRZ 2 14) with (2 ^ 14)%R. lra.
  - rewrite Rabs_left by lra. unfold float_max. lra.
Qed.

(** The same for a feature with mean 0 and standard deviation [2^-600]. *)
Definition normalization_small_std : NormalizationTransformer.t :=
  NormalizationTransformer.mk (mkTransformer true false false)
    (Some ([Fin 0], [Fin (/ 2 ^ 600)])) None.

(** [2^600] divided by [2^-600] is beyond the largest double. *)
Lemma rounded_overflow : rounded (2 ^ 600 / / 2 ^ 600) = PInf.
Proof.
  assert (round (2 ^ 600 / / 2 ^ 600) = (2 ^ 1200)%R) as Hr.
  { replace (2 ^ 600 / / 2 ^ 600)%R
      with (IZR 4503599627370496 * powerRZ 2 1148)%R.
    - rewrite round_double by lia.
      change (powerRZ 2 1148) with (2 ^ 1148)%R. lra.
    - change (powerRZ 2 1148) with (2 ^ 1148)%R. field_simplify; lra. }
  unfold rounded. rewrite Hr.
  destruct (Rle_dec (Rabs (2 ^ 1200)) float_max) as [Hle|_].
  - rewrite Rabs_pos_eq in Hle by lra. unfold float_max in Hle. lra.
  - rewrite sgn_pos; [done|].
    apply Rmult_lt_0_compat; [lra|]. rewrite Rinv_inv. lra.
Qed.

Lemma rounded_large : rounded (2 ^ 600) = Fin (2 ^ 600).
Proof.
  apply (rounded_double _ 4503599627370496 548); [|lia|lia|].
  - change (powerRZ 2 548) with (2 ^ 548)%R. lra.
  - rewrite Rabs_pos_eq by lra. unfold float_max. lra.
Qed.

(** The largest double times [2^-600]. *)
Lemma rounded_scaled_max :
  rounded (float_max * / 2 ^ 600) = Fin (float_max * / 2 ^ 600).
Proof.
  apply (rounded_double _ 9007199254740991 371); [|lia|lia|].
  - change (powerRZ 2 371) with (2 ^ 371)%R. unfold float_max. lra.
  - rewrite Rabs_pos_eq by (unfold float_max; lra). unfold float_max. lra.
Qed.

Lemma normalize_one (x m s : float) :
  NormalizationTransformer.normalize (Some ([m], [s])) [[x]]
  = Ok [[nan_to_num (fdiv (fsub x m) s)]].
Proof.
  unfold NormalizationTransformer.normalize. cbn [of_option mbind outcome_bind].
  rewrite broadcast_Ok by (by repeat constructor).
  cbn [mbind outcome_bind fmap list_fmap zip_with].
  rewrite broadcast_Ok by (by repeat constructor). done.
Qed.

Lemma denormalize_one (z m s : float) :
  NormalizationTransformer.denormalize (Some ([m], [s])) [[z]]
  = Ok [[fadd (fmul z s) m]].
Proof.
  unfold NormalizationTransformer.denormalize. cbn [of_option mbind outcome_bind].
  rewrite broadcast_Ok by (by repeat constructor).
  cbn [mbind outcome_bind fmap list_fmap zip_with].
  rewrite broadcast_Ok by (by repeat constructor). done.
Qed.

(** C7, as stated, fails.  The logarithm of a negative number is NaN, so
    [LogTransformer] does not give back an entry below -1; it raises on an
    array without rows; [NormalizationTransformer] on features gives back
    the stored mean where the stored standard deviation is 0; and where the
    mean is large the entry is lost in the rounding of the difference: with
    mean and standard deviation [10^20] the entry 1 comes back as 0; and
    where the quotient by a small standard deviation is beyond the largest
    double, [np.nan_to_num] replaces the infinity: with mean 0 and standard
    deviation [2^-600] the entry [2^600] comes back as less than [2^424]. *)
Lemma transforms_do_not_always_recover :
  LogTransformer.init true false None None = Ok log_all
  ∧ ¬ recovered (log_forward log_all) (LogTransformer.untransform log_all)
        [[Fin (-2)]]
  ∧ ¬ recovered (log_forward log_all) (LogTransformer.untransform log_all) []
  ∧ NormalizationTransformer.init true false false ([Fin 1], [Fin 0]) ([], [])
    = Ok normalization_constant_feature
  ∧ ¬ recovered (normalization_forward normalization_constant_feature)
        (NormalizationTransformer.untransform normalization_constant_feature)
        [[Fin 2]]
  ∧ NormalizationTransformer.init true false false
      ([Fin (10 ^ 20)], [Fin (10 ^ 20)]) ([], [])
    = Ok normalization_large_mean
  ∧ ¬ recovered (normalization_forward normalization_large_mean)
        (NormalizationTransformer.untransform normalization_large_mean)
        [[Fin 1]]
  ∧ NormalizationTransformer.init true false false
      ([Fin 0], [Fin (/ 2 ^ 600)]) ([], [])
    = Ok normalization_small_std
  ∧ ¬ recovered (normalization_forward normalization_small_std)
        (NormalizationTransformer.untransform normalization_small_std)
        [[Fin (2 ^ 600)]].
Proof.
  split; [reflexivity|].
  split; [|split; [|split; [reflexivity|split; [|split; [reflexivity|
    split; [|split; [reflexivity|]]]]]]].
  - intros (X_t & X' & Hf & Hb & Hclose).
    unfold log_forward, LogTransformer.transform_array,
      LogTransformer.on_columns, len_first, map_matrix in Hf.
    cbn -[LogTransformer.log1] in Hf.
    assert (LogTransformer.log1 (Fin (-2)) = NaN) as Hlog.
    { unfold LogTransformer.log1, fadd, flog. cbn [add rnd].
      replace (-2 + 1)%R with (-1)%R by lra. rewrite rounded_minus_1.
      cbn [log]. by rewrite sgn_neg by lra. }
    rewrite Hlog in Hf. injection Hf as <-.
    unfold LogTransformer.untransform, LogTransformer.on_columns, len_first,
      map_matrix in Hb. simpl in Hb. injection Hb as <-.
    apply Forall2_cons in Hclose as [Hrow _].
    apply Forall2_cons in Hrow as [Hx _]. exact Hx.
  - intros (X_t & X' & Hf & _). discriminate Hf.
  - intros (X_t & X' & Hf & Hb & Hclose).
    unfold normalization_forward, NormalizationTransformer.transform_array in Hf.
    cbn [normalization_constant_feature NormalizationTransformer.base
           NormalizationTransformer.X_stats transform_X transform_y] in Hf.
    rewrite normalize_one in Hf. cbn [mbind outcome_bind fmap outcome_fmap] in Hf.
    assert (nan_to_num (fdiv (fsub (Fin 2) (Fin 1)) (Fin 0)) = Fin float_max)
      as Hn.
    { unfold fsub, fdiv, sub. cbn [neg add rnd].
      replace (2 + - (1))%R with 1%R by lra. rewrite rounded_1.
      cbn [div]. rewrite (sgn_zero 0) by done. by rewrite sgn_pos by lra. }
    rewrite Hn in Hf. injection Hf as <-.
    unfold NormalizationTransformer.untransform in Hb.
    cbn [normalization_constant_feature NormalizationTransformer.base
           NormalizationTransformer.X_stats transform_X transform_y] in Hb.
    rewrite denormalize_one in Hb. cbn [fmap outcome_fmap] in Hb.
    assert (fadd (fmul (Fin float_max) (Fin 0)) (Fin 1) = Fin 1) as Hd.
    { unfold fmul, fadd. cbn [mul rnd]. rewrite Rmult_0_r, rounded_0.
      cbn [add rnd]. rewrite Rplus_0_l. apply rounded_1. }
    rewrite Hd in Hb. injection Hb as <-.
    apply Forall2_cons in Hclose as [Hrow _].
    apply Forall2_cons in Hrow as [Hx _]. cbn [close] in Hx.
    apply abs_le_inv in Hx. rewrite (Rabs_pos_eq 2) in Hx by lra.
    unfold atol, rtol in Hx. lra.
  - intros (X_t & X' & Hf & Hb & Hclose).
    unfold normalization_forward, NormalizationTransformer.transform_array in Hf.
    cbn [normalization_large_mean NormalizationTransformer.base
           NormalizationTransformer.X_stats transform_X transform_y] in Hf.
    rewrite normalize_one in Hf. cbn [mbind outcome_bind fmap outcome_fmap] in Hf.
    assert (nan_to_num (fdiv (fsub (Fin 1) (Fin (10 ^ 20))) (Fin (10 ^ 20)))
            = Fin (-1)) as Hn.
    { unfold fsub, fdiv, sub. cbn [neg add rnd]. rewrite rounded_cancellation.
      rewrite div_finite by lra. cbn [rnd].
      replace (- 10 ^ 20 / 10 ^ 20)%R with (-1)%R by (field; lra).
      by rewrite rounded_minus_1. }
    rewrite Hn in Hf. injection Hf as <-.
    unfold NormalizationTransformer.untransform in Hb.
    cbn [normalization_large_mean NormalizationTransformer.base
           NormalizationTransformer.X_stats transform_X transform_y] in Hb.
    rewrite denormalize_one in Hb. cbn [fmap outcome_fmap] in Hb.
    assert (fadd (fmul (Fin (-1)) (Fin (10 ^ 20))) (Fin (10 ^ 20)) = Fin 0) as Hd.
    { unfold fmul, fadd. cbn [mul rnd].
      replace (-1 * 10 ^ 20)%R with (- 10 ^ 20)%R by lra.
      rewrite rounded_minus_large. cbn [add rnd].
      replace (- 10 ^ 20 + 10 ^ 20)%R with 0%R by lra. apply rounded_0. }
    rewrite Hd in Hb. injection Hb as <-.
    apply Forall2_cons in Hclose as [Hrow _].
    apply Forall2_cons in Hrow as [Hx _]. cbn [close] in Hx.
    apply abs_le_inv in Hx. rewrite Rabs_R1 in Hx.
    unfold atol, rtol in Hx. lra.
  - intros (X_t & X' & Hf & Hb & Hclose).
    unfold normalization_forward, NormalizationTransformer.transform_array in Hf.
    cbn [normalization_small_std NormalizationTransformer.base
           NormalizationTransformer.X_stats transform_X transform_y] in Hf.
    rewrite normalize_one in Hf. cbn [mbind outcome_bind fmap outcome_fmap] in Hf.
    assert (nan_to_num (fdiv (fsub (Fin (2 ^ 600)) (Fin 0)) (Fin (/ 2 ^ 600)))
            = Fin float_max) as Hn.
    { unfold fsub, fdiv, sub. cbn [neg add rnd].
      replace (2 ^ 600 + - 0)%R with (2 ^ 600)%R by lra. rewrite rounded_large.
      rewrite div_finite.
      - cbn [rnd]. by rewrite rounded_overflow.
      - apply Rinv_neq_0_compat. lra. }
    rewrite Hn in Hf. injection Hf as <-.
    unfold NormalizationTransformer.untransform in Hb.
    cbn [normalization_small_std NormalizationTransformer.base
           NormalizationTransformer.X_stats transform_X transform_y] in Hb.
    rewrite denormalize_one in Hb. cbn [fmap outcome_fmap] in Hb.
    assert (fadd (fmul (Fin float_max) (Fin (/ 2 ^ 600))) (Fin 0)
            = Fin (float_max * / 2 ^ 600)) as Hd.
    { unfold fmul, fadd. cbn [mul rnd]. rewrite rounded_scaled_max.
      cbn [add rnd]. rewrite Rplus_0_r. apply rounded_scaled_max. }
    rewrite Hd in Hb. injection Hb as <-.
    apply Forall2_cons in Hclose as [Hrow _].
    apply Forall2_cons in Hrow as [Hx _]. cbn [close] in Hx.
    apply abs_le_inv in Hx. rewrite Rabs_pos_eq in Hx by lra.
    unfold atol, rtol, float_max in Hx. lra.
Qed.

Lemma normalization_y_roundtrip (M : list (list R)) (ms ss : list R)
    (X w : matrix) (X_statistics : list float * list float) :
  Forall (λ row, length row = length ms) M → length ms = length ss →
  Forall (Forall moderate) M → Forall moderate_mean ms →
  Forall (λ s, s = 0%R ∨ moderate_std s) ss →
  ∃ self y_t y',
    NormalizationTransformer.init false true false X_statistics
      (Fin <$> ms, Fin <$> ss) = Ok self
    ∧ NormalizationTransformer.transform_array self X (finite M) w = Ok (X, y_t, w)
    ∧ NormalizationTransformer.untransform self y_t = Ok (Some y')
    ∧ allclose y' (finite M).
Proof.
  intros HM Hlen Hx Hm Hs.
  destruct (normalize_denormalize M ms (nonzero_std <$> ss) HM)
    as (Z & M' & Hn & Hd & Hc);
    [by rewrite length_fmap|done|done|by apply nonzero_stds|].
  eexists _, Z, M'. split; [reflexivity|].
  unfold NormalizationTransformer.transform_array,
    NormalizationTransformer.untransform. simpl.
  rewrite replace_zero_stds, Hn, Hd. done.
Qed.

(** C7, amended: on doubles, [untransform] after [transform_array] gives
    back the original values within the tolerances of [np.allclose]
    (relative [10^-5], absolute [10^-8]) for NormalizationTransformer on
    labels and on features, when the entries are at most [10^100] in
    magnitude, the stored means at most [10^6] and the stored standard
    deviations at least [10^-100], where for the labels a standard deviation
    may also be 0; and for LogTransformer on features or on labels when the
    array has a row and every entry in a transformed column is at least -1
    and at most [10^307].  In particular LogTransformer without a selection
    of columns gives [[0, 3]] back within these tolerances.  For the
    LogTransformer this does not depend on [np.log] and [np.exp] being
    rounded correctly: it holds with any logarithm and exponential that are
    accurate in the sense above. *)
Theorem transforms_with_inverse_recover :
  (∀ (M : list (list R)) (ms ss : list R) (X w : matrix) X_statistics,
     Forall (λ row, length row = length ms) M → length ms = length ss →
     Forall (Forall moderate) M → Forall moderate_mean ms →
     Forall (λ s, s = 0%R ∨ moderate_std s) ss →
     ∃ self y_t y',
       NormalizationTransformer.init false true false X_statistics
         (Fin <$> ms, Fin <$> ss) = Ok self
       ∧ NormalizationTransformer.transform_array self X (finite M) w
         = Ok (X, y_t, w)
       ∧ NormalizationTransformer.untransform self y_t = Ok (Some y')
       ∧ allclose y' (finite M))
  ∧ (∀ (M : list (list R)) (ms ss : list R) (y w : matrix) y_statistics,
       Forall (λ row, length row = length ms) M → length ms = length ss →
       Forall (Forall moderate) M → Forall moderate_mean ms →
       Forall moderate_std ss →
       ∃ self X_t X',
         NormalizationTransformer.init true false false (Fin <$> ms, Fin <$> ss)
           y_statistics = Ok self
         ∧ NormalizationTransformer.transform_array self (finite M) y w
           = Ok (X_t, y, w)
         ∧ NormalizationTransformer.untransform self X_t = Ok (Some X')
         ∧ allclose X' (finite M))
  ∧ (∀ (M : list (list R)) (features tasks : option (list nat)) (y w : matrix),
       M ≠ [] → log_defined features M →
       ∃ self X_t X',
         LogTransformer.init true false features tasks = Ok self
         ∧ LogTransformer.transform_array self (finite M) y w = Ok (X_t, y, w)
         ∧ LogTransformer.untransform self X_t = Ok (Some X')
         ∧ allclose X' (finite M))
  ∧ (∀ (M : list (list R)) (features tasks : option (list nat)) (X w : matrix),
       M ≠ [] → log_defined tasks M →
       ∃ self y_t y',
         LogTransformer.init false true features tasks = Ok self
         ∧ LogTransformer.transform_array self X (finite M) w = Ok (X, y_t, w)
         ∧ LogTransformer.untransform self y_t = Ok (Some y')
         ∧ allclose y' (finite M))
  ∧ recovered (log_forward log_all) (LogTransformer.untransform log_all)
      (finite [[0; 3]]%R)
  ∧ (∀ (np_log np_exp : float → float) (cols : option (list nat))
       (M : list (list R)),
       accurate np_log np_exp → M ≠ [] → log_defined cols M →
       ∃ Z M',
         LogTransformer.on_columns (λ x, np_log (fadd x (Fin 1))) cols (finite M)
         = Ok Z
         ∧ LogTransformer.on_columns (λ x, fsub (np_exp x) (Fin 1)) cols Z
           = Ok M'
         ∧ allclose M' (finite M)).
Proof.
  assert (∀ (M : list (list R)) features tasks y w,
            M ≠ [] → log_defined features M →
            ∃ self X_t X',
              LogTransformer.init true false features tasks = Ok self
              ∧ LogTransformer.transform_array self (finite M) y w = Ok (X_t, y, w)
              ∧ LogTransformer.untransform self X_t = Ok (Some X')
              ∧ allclose X' (finite M))
    as Hlog.
  { intros M features tasks y w HM Hdef.
    destruct (log_exp_columns flog fexp features M flog_fexp_accurate HM Hdef)
      as (Z & M' & Hf & Hb & Hc).
    eexists _, Z, M'. split; [reflexivity|].
    unfold LogTransformer.transform_array, LogTransformer.untransform. simpl.
    fold LogTransformer.log1 in Hf. fold LogTransformer.exp1 in Hb.
    rewrite Hf, Hb. done. }
  split; [|split; [|split; [|split; [|split]]]].
  - intros. by apply normalization_y_roundtrip.
  - intros M ms ss y w y_statistics HM Hlen Hx Hm Hs.
    destruct (normalize_denormalize M ms ss HM Hlen Hx Hm Hs)
      as (Z & M' & Hn & Hd & Hc).
    eexists _, Z, M'. split; [reflexivity|].
    unfold NormalizationTransformer.transform_array,
      NormalizationTransformer.untransform. simpl.
    rewrite Hn, Hd. done.
  - exact Hlog.
  - intros M features tasks X w HM Hdef.
    destruct (log_exp_columns flog fexp tasks M flog_fexp_accurate HM Hdef)
      as (Z & M' & Hf & Hb & Hc).
    eexists _, Z, M'. split; [reflexivity|].
    unfold LogTransformer.transform_array, LogTransformer.untransform. simpl.
    fold LogTransformer.log1 in Hf. fold LogTransformer.exp1 in Hb.
    rewrite Hf, Hb. done.
  - destruct (Hlog [[0; 3]]%R None None [] [])
      as (self & X_t & X' & H1 & H2 & H3 & H4).
    + done.
    + intros i row j x Hrow Hx _.
      destruct i as [|i]; [|done]. injection Hrow as <-.
      destruct j as [|[|j]]; simplify_eq/=; lra.
    + injection H1 as <-. exists X_t, X'. unfold log_forward, log_all.
      rewrite H2. done.
  - intros. by apply log_exp_columns.
Qed.

Lemma transforms_with_inverse_recover_witness :
  (∃ self y_t y',
     NormalizationTransformer.init false true false ([], [])
       (Fin <$> [2; 0]%R, Fin <$> [4; 0]%R) = Ok self
     ∧ NormalizationTransformer.transform_array self [] (finite [[3; 5]]%R) []
       = Ok ([], y_t, [])
     ∧ NormalizationTransformer.untransform self y_t = Ok (Some y')
     ∧ allclose y' (finite [[3; 5]]%R))
  ∧ ∃ self X_t X',
      LogTransformer.init true false None None = Ok self
      ∧ LogTransformer.transform_array self (finite [[0; 3]]%R) [] []
        = Ok (X_t, [], [])
      ∧ LogTransformer.untransform self X_t = Ok (Some X')
      ∧ allclose X' (finite [[0; 3]]%R).
Proof.
  destruct transforms_with_inverse_recover as (Hy & _ & Hlog & _).
  split.
  - apply Hy.
    + by repeat constructor.
    + done.
    + repeat constructor; unfold moderate; rewrite Rabs_pos_eq; lra.
    + repeat constructor; unfold moderate_mean; rewrite Rabs_pos_eq; lra.
    + apply Forall_cons. split; [right|by repeat constructor; left].
      unfold moderate_std, float_max. rewrite Rabs_pos_eq by lra.
      split; [|lra]. apply Rle_trans with 1%R; [|lra].
      rewrite <-Rinv_1. apply Rinv_le_contravar; lra.
  - apply Hlog; [done|].
    intros i row j x Hrow Hx _.
    destruct i as [|i]; [|done]. injection Hrow as <-.
    destruct j as [|[|j]]; simplify_eq/=; lra.
Defined.

(** ** PowerTransformer *)

(** The dataset of the scenario below: one row with the features 0 and 3. *)
Definition zero_three : PowerTransformer.NumpyDataset :=
  PowerTransformer.mkNumpyDataset [[Fin 0; Fin 3]] [[Fin 1]] [[Fin 1]] ["a"].

(** [PowerTransformer(transform_X=True, powers=[2])] *)
Definition squaring : PowerTransformer.t := PowerTransformer.mk true false [2%R].

(** C8: [untransform] of a PowerTransformer returns no array.  The quotient
    [orig_len] of the number of columns by the number of powers is a float,
    and the slice [z[:, :orig_len]] raises TypeError for every array [z] and
    every list of powers that is not empty, the single-power lists among
    them; for the empty list the division raises ZeroDivisionError.  So the
    forward transform of a single-power list succeeds and is not undone. *)
Theorem power_untransform_raises :
  (∀ (self : PowerTransformer.t) (z : matrix),
     PowerTransformer.powers self ≠ [] →
     PowerTransformer.untransform self z = Raise TypeError)
  ∧ (∀ (self : PowerTransformer.t) (z : matrix),
       PowerTransformer.powers self = [] →
       PowerTransformer.untransform self z = Raise ZeroDivisionError)
  ∧ (∀ (tX tY : bool) (p : R) (z : matrix),
       PowerTransformer.untransform (PowerTransformer.mk tX tY [p]) z
       = Raise TypeError)
  ∧ (∃ transformed,
       PowerTransformer.transform squaring zero_three = Ok transformed
       ∧ PowerTransformer.untransform squaring (PowerTransformer.X transformed)
         = Raise TypeError).
Proof.
  assert (∀ self z, PowerTransformer.powers self ≠ [] →
            PowerTransformer.untransform self z = Raise TypeError) as Hraise.
  { intros self z Hp.
    unfold PowerTransformer.untransform, PowerTransformer.true_divide.
    rewrite decide_False; [done|]. by destruct (PowerTransformer.powers self). }
  split; [exact Hraise|]. split; [|split].
  - intros self z Hp.
    unfold PowerTransformer.untransform, PowerTransformer.true_divide.
    by rewrite Hp.
  - intros tX tY p z. by apply Hraise.
  - eexists. split; [reflexivity|]. by apply Hraise.
Qed.

Lemma power_untransform_raises_witness :
  PowerTransformer.untransform squaring [[Fin 0; Fin 9]] = Raise TypeError
  ∧ PowerTransformer.untransform (PowerTransformer.mk true false []) [[Fin 0; Fin 9]]
    = Raise ZeroDivisionError.
Proof.
  destruct power_untransform_raises as (H1 & H2 & _).
  split; [apply H1; discriminate|by apply H2].
Defined.

End TransformerFacts.

(** * Properties of the further operations *)

Module DiskDatasetOpsFacts.
Import DiskDataset DiskDatasetOps DiskDatasetFacts.

(** ** create_dataset: any shards with features and ids are read back *)

(** The metadata row of shard number [n] when the arrays of [s] are written. *)
Definition row_of (n : nat) (tasks : list string) (s : Shard) : MetaRow :=
  let b := shard_basename n in
  mkMetaRow b tasks (Some (b +:+ "-ids.joblib")) (Some (b +:+ "-X.joblib"))
    ((λ _, b +:+ "-y.joblib") <$> shard_y s)
    ((λ _, b +:+ "-w.joblib") <$> shard_w s).

(** The files of shard number [n] hold the arrays of [s]. *)
Definition holds_shard (d : directory) (n : nat) (s : Shard) : Prop :=
  data_files d !! (shard_basename n +:+ "-X.joblib") = Some (shard_X s)
  ∧ (∀ y, shard_y s = Some y →
       data_files d !! (shard_basename n +:+ "-y.joblib") = Some y)
  ∧ (∀ w, shard_w s = Some w →
       data_files d !! (shard_basename n +:+ "-w.joblib") = Some w)
  ∧ data_files d !! (shard_basename n +:+ "-ids.joblib") = Some (shard_ids s).

Lemma write_shard (d : directory) (n : nat) (tasks : list string) (s : Shard) :
  let w := write_data_to_disk d (shard_basename n) tasks (Some (shard_X s))
             (shard_y s) (shard_w s) (Some (shard_ids s)) in
  w.2 = row_of n tasks s
  ∧ holds_shard w.1 n s
  ∧ metadata_file w.1 = metadata_file d
  ∧ (∀ name, (∀ sfx, sfx ∈ suffixes → name ≠ shard_basename n +:+ sfx) →
       data_files w.1 !! name = data_files d !! name).
Proof.
  intros w.
  pose proof (write_data_to_disk_files d (shard_basename n) tasks
                (Some (shard_X s)) (shard_y s) (shard_w s) (Some (shard_ids s)))
    as (HX & Hy & Hw & Hids).
  fold w in HX, Hy, Hw, Hids.
  split; [|split; [|split]].
  - subst w. rewrite write_data_to_disk_eq. reflexivity.
  - unfold holds_shard. auto.
  - apply write_data_to_disk_metadata.
  - intros name Hname. by apply write_data_to_disk_other.
Qed.

Lemma read_row_of (ds : DiskDataset) (n : nat) (tasks : list string) (s : Shard) :
  holds_shard (data_dir ds) n s →
  itershards_row ds (row_of n tasks s) = Ok s
  ∧ get_shard_at ds (row_of n tasks s) = Ok s.
Proof.
  intros (HX & Hy & Hw & Hids). destruct s as [X y w ids]. simpl in *.
  unfold itershards_row, get_shard_at, load_labels, load_weights, path_exists,
    load_from_disk.
  simpl. rewrite HX, Hids. simpl.
  destruct y as [y|], w as [w|]; simpl;
    rewrite ?(Hy _ eq_refl), ?(Hw _ eq_refl); simpl; done.
Qed.

Lemma write_shards_shards (d : directory) (tasks : list string) (k : nat)
    (shards : list Shard) :
  let w := write_shards d tasks k (to_raw <$> shards) in
  w.2 = imap (λ i s, row_of (k + i) tasks s) shards
  ∧ metadata_file w.1 = metadata_file d
  ∧ (∀ name, (∀ j sfx, k ≤ j → sfx ∈ suffixes → name ≠ shard_basename j +:+ sfx) →
       data_files w.1 !! name = data_files d !! name)
  ∧ (∀ i s, shards !! i = Some s → holds_shard w.1 (k + i) s).
Proof.
  revert d k. induction shards as [|s shards IH]; intros d k.
  - by repeat split.
  - pose proof (write_shard d k tasks s) as Hw. cbv zeta in Hw.
    destruct Hw as (Hrow & Hholds & Hmeta & Hother).
    rewrite fmap_cons. unfold to_raw at 1. cbn [write_shards].
    destruct (write_data_to_disk d (shard_basename k) tasks (Some (shard_X s))
                (shard_y s) (shard_w s) (Some (shard_ids s))) as [d1 row].
    simpl in Hrow, Hholds, Hmeta, Hother.
    specialize (IH d1 (S k)). cbv zeta in IH.
    destruct (write_shards d1 tasks (S k) (to_raw <$> shards)) as [d' rows].
    simpl in IH. destruct IH as (Hrows & Hmeta' & Hother' & Hholds').
    cbn [fst snd]. split; [|split; [|split]].
    + rewrite imap_cons, Nat.add_0_r, Hrow, Hrows. f_equal.
      apply imap_ext. intros i s' _. simpl. f_equal. lia.
    + congruence.
    + intros name Hname. rewrite Hother'.
      * apply Hother. intros sfx Hsfx. by apply Hname.
      * intros j sfx Hj Hsfx. apply Hname; [lia|done].
    + intros [|i] s' Hs'; simpl in Hs'.
      * injection Hs' as <-. rewrite Nat.add_0_r.
        destruct Hholds as (H1 & H2 & H3 & H4). unfold holds_shard.
        destruct in_suffixes as (? & ? & ? & ?).
        split; [|split; [|split]].
        -- rewrite Hother'; [done|].
           intros j sfx Hj Hsfx; apply shard_file_ne; (lia || done).
        -- intros y Hy. rewrite Hother'; [by apply H2|].
           intros j sfx Hj Hsfx; apply shard_file_ne; (lia || done).
        -- intros w Hw. rewrite Hother'; [by apply H3|].
           intros j sfx Hj Hsfx; apply shard_file_ne; (lia || done).
        -- rewrite Hother'; [done|].
           intros j sfx Hj Hsfx; apply shard_file_ne; (lia || done).
      * replace (k + S i) with (S k + i) by lia. by apply Hholds'.
Qed.

(** The dataset is as [DiskDataset(data_dir)] loads it again. *)
Definition saved (ds : DiskDataset) : Prop :=
  DiskDataset_init (data_dir ds) = Ok ds.

Lemma saved_metadata (ds : DiskDataset) :
  saved ds ↔ metadata_file (data_dir ds) = Some (tasks ds, metadata_df ds).
Proof.
  unfold saved, DiskDataset_init. destruct ds as [d t m]. simpl. split.
  - destruct (metadata_file d) as [[t' m']|]; [|done]. by intros [= -> ->].
  - by intros ->.
Qed.

Lemma create_dataset_shards (shards : list Shard) (d : directory)
    (tasks : list string) :
  ∃ ds,
    create_dataset (to_raw <$> shards) d tasks = Ok ds
    ∧ DiskDataset.tasks ds = tasks
    ∧ metadata_df ds = imap (λ i s, row_of i tasks s) shards
    ∧ saved ds
    ∧ (∀ i s, shards !! i = Some s → holds_shard (data_dir ds) i s)
    ∧ (∀ name, (∀ j sfx, sfx ∈ suffixes → name ≠ shard_basename j +:+ sfx) →
         data_files (data_dir ds) !! name = data_files d !! name).
Proof.
  pose proof (write_shards_shards d tasks 0 shards) as Hw. cbv zeta in Hw.
  unfold create_dataset.
  destruct (write_shards d tasks 0 (to_raw <$> shards)) as [d' rows].
  simpl in Hw. destruct Hw as (-> & _ & Hother & Hholds).
  eexists. split; [reflexivity|]. simpl. do 3 (split; [done|]). split.
  - done.
  - intros name Hname. apply Hother. intros j sfx _. apply Hname.
Qed.

Lemma rows_read (ds : DiskDataset) (tasks : list string) (shards : list Shard) :
  metadata_df ds = imap (λ i s, row_of i tasks s) shards →
  (∀ i s, shards !! i = Some s → holds_shard (data_dir ds) i s) →
  itershards ds = Ok shards ∧ all_shards ds = Ok shards.
Proof.
  intros Hrows Hholds. split.
  - apply mapM_Ok_Forall2. rewrite Hrows.
    apply Forall2_same_length_lookup_2; [by rewrite length_imap|].
    intros i row s Hrow Hs. rewrite list_lookup_imap, Hs in Hrow.
    injection Hrow as <-. by apply read_row_of, Hholds.
  - apply mapM_Ok_Forall2. unfold get_number_shards. rewrite Hrows, length_imap.
    apply Forall2_same_length_lookup_2; [by rewrite length_seq|].
    intros i j s Hj Hs. apply lookup_seq in Hj as [-> _]. simpl.
    rewrite get_shard_unfold, Hrows, list_lookup_imap, Hs. simpl.
    by apply read_row_of, Hholds.
Qed.

(** X1: [create_dataset] never raises, whatever directory it writes to; the
    dataset it returns has the task names given, one shard for each tuple of
    the generator, and is what loading the directory again gives.  When every
    tuple has its features and its ids, [itershards] and [get_shard] read
    back the arrays that were written, in the order of the generator, with
    None for the labels or the weights that were None. *)
Theorem create_dataset_reads_back
    (shards : list Shard) (d : directory) (tasks : list string) :
  (∀ generator : list raw_shard, ∃ ds,
     create_dataset generator d tasks = Ok ds
     ∧ DiskDataset.tasks ds = tasks
     ∧ get_number_shards ds = length generator
     ∧ DiskDataset_init (data_dir ds) = Ok ds)
  ∧ ∃ ds,
      create_dataset (to_raw <$> shards) d tasks = Ok ds
      ∧ itershards ds = Ok shards
      ∧ (∀ i s, shards !! i = Some s → get_shard ds i = Ok s).
Proof.
  split.
  - intros generator. unfold create_dataset.
    assert (∀ k d0, length (write_shards d0 tasks k generator).2
                    = length generator) as Hlen.
    { induction generator as [|[[[X y] w] ids] g IH]; intros k d0; [done|].
      cbn [write_shards].
      destruct (write_data_to_disk _ _ _ _ _ _ _) as [d1 row].
      specialize (IH (S k) d1).
      destruct (write_shards d1 tasks (S k) g) as [d2 rows].
      simpl in *. by rewrite IH. }
    specialize (Hlen 0 d).
    destruct (write_shards d tasks 0 generator) as [d' rows]. simpl in *.
    eexists. split; [reflexivity|]. simpl. by repeat split.
  - destruct (create_dataset_shards shards d tasks)
      as (ds & Hc & _ & Hrows & _ & Hholds & _).
    destruct (rows_read ds tasks shards Hrows Hholds) as [Hit Hall].
    exists ds. do 2 (split; [done|]).
    intros i s Hs. by eapply all_shards_lookup.
Qed.

(** ** The layout of a dataset directory

    [stored ds nums shards]: the i-th metadata row of [ds] is the row written
    for shard number [nums !! i], whose files hold the arrays of
    [shards !! i]; no shard number occurs twice. *)
Definition stored (ds : DiskDataset) (nums : list nat) (shards : list Shard)
    : Prop :=
  NoDup nums
  ∧ length nums = length shards
  ∧ metadata_df ds = zip_with (λ n s, row_of n (tasks ds) s) nums shards
  ∧ ∀ i n s, nums !! i = Some n → shards !! i = Some s →
             holds_shard (data_dir ds) n s.

Lemma stored_row (ds : DiskDataset) nums shards i row :
  stored ds nums shards → metadata_df ds !! i = Some row →
  ∃ n s, nums !! i = Some n ∧ shards !! i = Some s
         ∧ row = row_of n (tasks ds) s ∧ holds_shard (data_dir ds) n s.
Proof.
  intros (_ & _ & Hrows & Hholds) Hrow. rewrite Hrows in Hrow.
  apply lookup_zip_with_Some in Hrow as (n & s & -> & Hn & Hs).
  exists n, s. eauto.
Qed.

Lemma stored_length (ds : DiskDataset) nums shards :
  stored ds nums shards → length (metadata_df ds) = length shards.
Proof.
  intros (_ & Hlen & -> & _). rewrite length_zip_with. lia.
Qed.

Lemma stored_read (ds : DiskDataset) nums shards :
  stored ds nums shards → itershards ds = Ok shards ∧ all_shards ds = Ok shards.
Proof.
  intros Hst. pose proof (stored_length _ _ _ Hst) as Hlen. split.
  - apply mapM_Ok_Forall2.
    apply Forall2_same_length_lookup_2; [done|].
    intros i row s Hrow Hs.
    destruct (stored_row _ _ _ _ _ Hst Hrow) as (n & s' & _ & Hs' & -> & Hh).
    assert (s' = s) as -> by congruence. by apply read_row_of.
  - apply mapM_Ok_Forall2. unfold get_number_shards. rewrite Hlen.
    apply Forall2_same_length_lookup_2; [by rewrite length_seq|].
    intros i j s Hj Hs. apply lookup_seq in Hj as [-> _]. simpl.
    destruct (lookup_lt_is_Some_2 (metadata_df ds) i) as [row Hrow].
    { rewrite Hlen. by eapply lookup_lt_Some. }
    destruct (stored_row _ _ _ _ _ Hst Hrow) as (n & s' & _ & Hs' & -> & Hh).
    assert (s' = s) as -> by congruence.
    rewrite get_shard_unfold, Hrow. simpl. by apply read_row_of.
Qed.

Lemma imap_zip_with_seq {A B} (f : nat → A → B) (l : list A) :
  imap f l = zip_with f (seq 0 (length l)) l.
Proof.
  apply list_eq. intros i. rewrite list_lookup_imap, lookup_zip_with.
  destruct (l !! i) as [a|] eqn:Ha; simpl.
  - rewrite lookup_seq_lt by (by eapply lookup_lt_Some). done.
  - by destruct (seq 0 (length l) !! i).
Qed.

Lemma create_dataset_stored (shards : list Shard) (d : directory)
    (tasks : list string) :
  ∃ ds, create_dataset (to_raw <$> shards) d tasks = Ok ds
        ∧ DiskDataset.tasks ds = tasks
        ∧ stored ds (seq 0 (length shards)) shards.
Proof.
  destruct (create_dataset_shards shards d tasks)
    as (ds & Hc & Ht & Hrows & _ & Hholds & _).
  exists ds. do 2 (split; [done|]).
  split; [apply NoDup_seq|]. split; [by rewrite length_seq|]. split.
  - by rewrite Hrows, Ht, imap_zip_with_seq.
  - intros i n s Hn Hs. apply lookup_seq in Hn as [-> _]. by apply Hholds.
Qed.

(** Reading a row looks at the files the row names and at no other. *)
Definition row_files (row : MetaRow) : list string :=
  omap (λ ref : option string, ref) [col_X row; col_y row; col_w row; col_ids row].

Lemma read_row_agree (ds ds' : DiskDataset) (row : MetaRow) :
  (∀ f, f ∈ row_files row →
        data_files (data_dir ds') !! f = data_files (data_dir ds) !! f) →
  get_shard_at ds' row = get_shard_at ds row
  ∧ itershards_row ds' row = itershards_row ds row.
Proof.
  intros H. unfold get_shard_at, itershards_row, load_labels, load_weights,
    path_exists, load_from_disk, row_files in *.
  destruct row as [b t [ids|] [X|] [y|] [w|]]; simpl in *;
    rewrite ?(H X), ?(H y), ?(H w), ?(H ids) by set_solver; done.
Qed.

Lemma row_of_files (n : nat) (tasks : list string) (s : Shard) (f : string) :
  f ∈ row_files (row_of n tasks s) → f ∈ shard_files n.
Proof.
  intros Hf.
  assert (∀ sfx, sfx ∈ suffixes → shard_basename n +:+ sfx ∈ shard_files n) as Hin.
  { intros sfx Hsfx. unfold shard_files. by apply list_elem_of_fmap_2. }
  destruct in_suffixes as (? & ? & ? & ?).
  unfold row_files, row_of in Hf.
  destruct (shard_y s), (shard_w s); simpl in Hf;
    repeat (apply elem_of_cons in Hf as [->|Hf]; [by apply Hin|]);
    by apply elem_of_nil in Hf.
Qed.

Lemma shard_files_disjoint (n m : nat) (f : string) :
  f ∈ shard_files n → f ∈ shard_files m → n = m.
Proof.
  unfold shard_files. intros Hn Hm.
  apply list_elem_of_fmap in Hn as (s & -> & Hs).
  apply list_elem_of_fmap in Hm as (t & Heq & Ht).
  by apply shard_file_inj in Heq as [? _].
Qed.

Lemma holds_shard_agree (d d' : directory) (n : nat) (s : Shard) :
  (∀ f, f ∈ shard_files n → data_files d' !! f = data_files d !! f) →
  holds_shard d n s → holds_shard d' n s.
Proof.
  intros H (HX & Hy & Hw & Hids). unfold holds_shard.
  assert (∀ sfx, sfx ∈ suffixes → shard_basename n +:+ sfx ∈ shard_files n) as Hin.
  { intros sfx Hsfx. unfold shard_files. by apply list_elem_of_fmap_2. }
  destruct in_suffixes as (? & ? & ? & ?).
  rewrite !H by auto. auto.
Qed.

(** ** add_shard *)

Lemma add_shard_eq (ds : DiskDataset) (X y w ids : option ndarray) :
  add_shard ds X y w ids =
  let wr := write_data_to_disk (data_dir ds)
              (shard_basename (length (metadata_df ds))) (tasks ds) X y w ids in
  save_to_disk {| data_dir := wr.1; tasks := tasks ds;
                  metadata_df := metadata_df ds ++ [wr.2] |}.
Proof.
  unfold add_shard, get_task_names.
  by destruct (write_data_to_disk _ _ _ _ _ _ _).
Qed.

Lemma add_shard_stored (ds : DiskDataset) nums shards (s : Shard) :
  stored ds nums shards → length shards ∉ nums →
  stored (add_shard ds (Some (shard_X s)) (shard_y s) (shard_w s)
            (Some (shard_ids s)))
         (nums ++ [length shards]) (shards ++ [s]).
Proof.
  intros Hst Hfresh. pose proof (stored_length _ _ _ Hst) as Hlen.
  destruct Hst as (Hnd & Hln & Hrows & Hholds).
  rewrite add_shard_eq, Hlen. cbv zeta.
  pose proof (write_shard (data_dir ds) (length shards) (tasks ds) s) as Hw.
  cbv zeta in Hw. destruct Hw as (Hrow & Hh & _ & Hother).
  set (wr := write_data_to_disk _ _ _ _ _ _ _) in *.
  split; [|split; [|split]]; simpl.
  - apply NoDup_app. split; [done|]. split; [|apply NoDup_singleton].
    intros n Hn ->%list_elem_of_singleton. done.
  - rewrite !length_app. simpl. lia.
  - rewrite Hrow, Hrows, zip_with_app by done. done.
  - intros i n s' Hn Hs'.
    destruct (decide (i < length shards)) as [Hi|Hi].
    + rewrite lookup_app_l in Hn by lia. rewrite lookup_app_l in Hs' by lia.
      eapply holds_shard_agree; [|by eapply Hholds].
      intros f Hf. apply Hother. intros sfx Hsfx ->.
      assert (length shards = n) as <-.
      { eapply shard_files_disjoint; [|exact Hf].
        unfold shard_files. by apply list_elem_of_fmap_2. }
      apply Hfresh. by eapply list_elem_of_lookup_2.
    + assert (i = length shards) as ->.
      { apply lookup_lt_Some in Hs'. rewrite length_app in Hs'. simpl in Hs'. lia. }
      rewrite list_lookup_middle in Hn by done.
      rewrite list_lookup_middle in Hs' by done.
      injection Hn as <-. injection Hs' as <-. done.
Qed.

(** X2: [add_shard] with features and ids writes the arrays under the name of
    the next free position, "shard-<number of shards>", appends the row to
    the metadata table and saves the table: the new shard is the last one,
    read back as it was given, whatever the directory held before.  On a
    dataset whose rows are those of the shards 0, ..., n-1 in any order, as
    [create_dataset] and [shuffle_shards] leave it, the other shards are
    read as before. *)
Theorem add_shard_appends
    (ds : DiskDataset) (nums : list nat) (shards : list Shard) (s : Shard) :
  let ds' := add_shard ds (Some (shard_X s)) (shard_y s) (shard_w s)
               (Some (shard_ids s)) in
  (get_number_shards ds' = S (get_number_shards ds)
   ∧ tasks ds' = tasks ds
   ∧ DiskDataset_init (data_dir ds') = Ok ds'
   ∧ get_shard ds' (get_number_shards ds) = Ok s)
  ∧ (stored ds nums shards → nums ≡ₚ seq 0 (length shards) →
     itershards ds' = Ok (shards ++ [s])
     ∧ (∀ i, i < length shards → get_shard ds' i = get_shard ds i)
     ∧ stored ds' (nums ++ [length shards]) (shards ++ [s])).
Proof.
  intros ds'. split.
  - subst ds'. rewrite add_shard_eq. cbv zeta.
    pose proof (write_shard (data_dir ds) (length (metadata_df ds)) (tasks ds) s)
      as Hw.
    cbv zeta in Hw. destruct Hw as (Hrow & Hh & _ & _).
    set (wr := write_data_to_disk _ _ _ _ _ _ _) in *.
    unfold get_number_shards. simpl.
    split; [rewrite length_app; simpl; lia|]. do 2 (split; [done|]).
    rewrite get_shard_unfold. simpl.
    rewrite list_lookup_middle by done. simpl. rewrite Hrow.
    by apply read_row_of.
  - intros Hst Hperm.
    assert (length shards ∉ nums) as Hfresh.
    { rewrite Hperm, elem_of_seq. lia. }
    pose proof (add_shard_stored ds nums shards s Hst Hfresh) as Hst'.
    fold ds' in Hst'.
    destruct (stored_read _ _ _ Hst') as [Hit Hall].
    destruct (stored_read _ _ _ Hst) as [_ Hall0].
    split; [done|]. split; [|done].
    intros i Hi. destruct (lookup_lt_is_Some_2 shards i Hi) as [s' Hs'].
    rewrite (all_shards_lookup _ _ _ _ Hall0 Hs').
    apply (all_shards_lookup _ _ _ _ Hall). by rewrite lookup_app_l.
Qed.

Lemma four_shards_stored : stored four_shards (seq 0 4) four_shards_read.
Proof.
  destruct (create_dataset_stored four_shards_read empty_directory ["task"])
    as (ds & Hc & _ & Hst).
  vm_compute in Hc. injection Hc as <-. exact Hst.
Qed.

Lemma add_shard_appends_witness :
  itershards (add_shard four_shards (Some (shard_X replacement))
                (shard_y replacement) (shard_w replacement)
                (Some (shard_ids replacement)))
  = Ok (four_shards_read ++ [replacement]).
Proof.
  refine (proj1 (proj2 (add_shard_appends four_shards (seq 0 4) four_shards_read
                          replacement) _ _)).
  - exact four_shards_stored.
  - reflexivity.
Defined.

(** ** itersamples *)

Lemma column_sanitize (a : option ndarray) (n i : nat) (c : option cell) :
  column a n !! i = Some c → sanitize a i = Ok c.
Proof.
  destruct a as [a|]; simpl.
  - rewrite list_lookup_fmap. destruct (a !! i); simpl; by intros [= <-].
  - intros H. by apply lookup_replicate in H as [-> _].
Qed.

Lemma itersamples_shard_samples (s : Shard) :
  aligned s → itersamples_shard s = Ok (samples s).
Proof.
  intros Hs. unfold itersamples_shard. apply mapM_Ok_Forall2.
  apply Forall2_same_length_lookup_2.
  - by rewrite length_seq, samples_length.
  - intros i j smp Hj Hsmp. apply lookup_seq in Hj as [-> _]. simpl.
    unfold samples in Hsmp.
    apply lookup_zip_with_Some in Hsmp as (xyw & id & -> & Hxyw & Hid).
    apply lookup_zip_with_Some in Hxyw as (xy & w & -> & Hxy & Hw).
    apply lookup_zip_with_Some in Hxy as (x & y & -> & Hx & Hy).
    rewrite Hx, Hid. simpl.
    rewrite (column_sanitize _ _ _ _ Hy). simpl.
    rewrite (column_sanitize _ _ _ _ Hw). done.
Qed.

Lemma length_concat_samples (shards : list Shard) :
  Forall aligned shards →
  length (concat (samples <$> shards)) = length (concat (shard_ids <$> shards)).
Proof.
  induction 1 as [|s shards Hs _ IH]; csimpl; [done|].
  rewrite !length_app, IH, samples_length by done. by destruct Hs as [-> _].
Qed.

(** X3: [itersamples] yields one tuple (x, y, w, id) for every row, shard after
    shard in the order of the metadata table and row after row within a
    shard, with None in place of the label or the weight of a shard that has
    none; the number of tuples is [len(dataset)]. *)
Theorem itersamples_in_shard_order (ds : DiskDataset) (shards : list Shard) :
  itershards ds = Ok shards → Forall aligned shards →
  itersamples ds = Ok (concat (samples <$> shards))
  ∧ len ds = Ok (length (concat (samples <$> shards))).
Proof.
  intros Hit Hal. split.
  - unfold itersamples.
    assert (mapM (λ row, itershards_row ds row ≫= itersamples_shard)
                 (metadata_df ds) = Ok (samples <$> shards)) as ->; [|done].
    apply mapM_Ok_Forall2, Forall2_fmap_r.
    apply mapM_Ok_Forall2 in Hit. clear -Hit Hal.
    induction Hit as [|row s rows shards Hrow _ IH]; [constructor|].
    apply Forall_cons in Hal as [Hs Hal].
    constructor; [|by apply IH].
    rewrite Hrow. simpl. by apply itersamples_shard_samples.
  - rewrite (len_itershards _ _ Hit). by rewrite length_concat_samples.
Qed.

Lemma itersamples_in_shard_order_witness :
  itersamples three_shards
  = Ok (concat (samples <$> three_shards_read))
  ∧ len three_shards = Ok (length (concat (samples <$> three_shards_read))).
Proof.
  apply (itersamples_in_shard_order three_shards three_shards_read).
  - vm_compute. reflexivity.
  - repeat constructor; simpl; intros ? [= <-]; reflexivity.
Defined.

(** ** subset *)

Lemma reorder_app_l {A} (idx : list nat) (a b : list A) :
  Forall (λ i, i < length a) idx → reorder idx (a ++ b) = reorder idx a.
Proof.
  unfold reorder. induction 1 as [|i idx Hi _ IH]; csimpl; [done|].
  by rewrite lookup_app_l, IH.
Qed.

Lemma reorder_filter_sublist {A} (P : nat → Prop) `{∀ i, Decision (P i)}
    (l : list A) :
  reorder (filter P (seq 0 (length l))) l `sublist_of` l.
Proof.
  induction l as [|a l IH] using rev_ind; [done|].
  rewrite length_app. simpl. rewrite Nat.add_1_r, seq_S, filter_app, reorder_app.
  apply sublist_app.
  - rewrite reorder_app_l; [done|].
    apply Forall_forall. intros i Hi.
    apply list_elem_of_filter in Hi as [_ Hi]. apply elem_of_seq in Hi. lia.
  - simpl. rewrite filter_cons, filter_nil. case_decide.
    + unfold reorder. simpl. by rewrite list_lookup_middle.
    + apply sublist_nil_l.
Qed.

Lemma mapM_get_shard (ds : DiskDataset) (shards : list Shard) (idx : list nat) :
  all_shards ds = Ok shards → Forall (λ i, i < length shards) idx →
  mapM (get_shard ds) idx = Ok (reorder idx shards).
Proof.
  intros Hall Hidx. apply mapM_Ok_Forall2.
  eapply Forall2_impl; [by apply reorder_Forall2|].
  intros i s Hs. by eapply all_shards_lookup.
Qed.

Lemma mapM_fmap {A B C} (f : A → outcome B) (g : B → C) (l : list A) (k : list B) :
  mapM f l = Ok k → mapM (λ a, g <$> f a) l = Ok (g <$> k).
Proof.
  intros H. apply mapM_Ok_Forall2, Forall2_fmap_r.
  apply mapM_Ok_Forall2 in H. eapply Forall2_impl; [exact H|].
  intros a b ->. done.
Qed.

(** X4: [subset] copies the shards whose position is listed in [shard_nums] to a
    new dataset with the same task names, in the order they have in the
    original and each once, whatever the order of [shard_nums] and however
    often a number is listed; a number that is no position of the dataset is
    passed over. *)
Theorem subset_keeps_listed_shards
    (ds : DiskDataset) (shard_nums : list nat) (subset_dir : directory)
    (shards : list Shard) :
  all_shards ds = Ok shards →
  let kept := filter (λ i, i ∈ shard_nums) (seq 0 (length shards)) in
  ∃ ds',
    subset ds shard_nums subset_dir = Ok ds'
    ∧ tasks ds' = tasks ds
    ∧ itershards ds' = Ok (reorder kept shards)
    ∧ reorder kept shards `sublist_of` shards
    ∧ (∀ i s, shards !! i = Some s → i ∈ shard_nums → s ∈ reorder kept shards).
Proof.
  intros Hall kept.
  assert (Forall (λ i, i < length shards) kept) as Hkept.
  { apply Forall_forall. intros i Hi.
    apply list_elem_of_filter in Hi as [_ Hi]. apply elem_of_seq in Hi. lia. }
  destruct (create_dataset_stored (reorder kept shards) subset_dir (tasks ds))
    as (ds' & Hc & Ht & Hst).
  exists ds'. unfold subset, get_task_names.
  pose proof (all_shards_length _ _ Hall) as Hlen.
  unfold get_number_shards in Hlen. rewrite <-Hlen. fold kept.
  rewrite (mapM_fmap _ to_raw _ _ (mapM_get_shard _ _ _ Hall Hkept)). simpl.
  split; [done|]. split; [done|].
  split; [by apply stored_read in Hst as [? _]|].
  split; [apply reorder_filter_sublist|].
  intros i s Hs Hi.
  assert (i ∈ kept) as Hin.
  { apply list_elem_of_filter. split; [done|].
    apply elem_of_seq. apply lookup_lt_Some in Hs. lia. }
  apply list_elem_of_lookup_1 in Hin as [j Hj].
  pose proof (reorder_Forall2 kept shards Hkept) as HF.
  destruct (Forall2_lookup_l _ _ _ _ _ HF Hj) as (s' & Hs' & Heq).
  assert (s' = s) as -> by congruence. by eapply list_elem_of_lookup_2.
Qed.

Lemma subset_keeps_listed_shards_witness :
  ∃ ds',
    subset four_shards [3; 1; 7; 1] empty_directory = Ok ds'
    ∧ itershards ds' = Ok (reorder [1; 3] four_shards_read).
Proof.
  destruct (subset_keeps_listed_shards four_shards [3; 1; 7; 1] empty_directory
              four_shards_read) as (ds' & Hs & _ & Hit & _).
  - vm_compute. reflexivity.
  - exists ds'. split; [exact Hs|exact Hit].
Defined.

(** ** transform *)

(** The shard that [fn] makes of [s], when the features it returns are not
    None: the ids are those of [s]. *)
Definition transformed
    (fn : ndarray → option ndarray → option ndarray
          → option ndarray * option ndarray * option ndarray)
    (s : Shard) : option Shard :=
  let '(newx, newy, neww) := fn (shard_X s) (shard_y s) (shard_w s) in
  (λ X, mkShard X newy neww (shard_ids s)) <$> newx.

(** X5: [transform] calls [fn] once on the arrays of every shard, in the order of
    the shards, and writes what it returns to a new dataset with the same
    task names, the same number of shards and, shard by shard, the same ids;
    the dataset it is called on is only read. *)
Theorem transform_applies_fn_shard_by_shard
    (ds : DiskDataset)
    (fn : ndarray → option ndarray → option ndarray
          → option ndarray * option ndarray * option ndarray)
    (out_dir : directory) (shards shards' : list Shard) :
  all_shards ds = Ok shards →
  Forall2 (λ s s', transformed fn s = Some s') shards shards' →
  ∃ ds',
    transform ds fn out_dir = Ok ds'
    ∧ tasks ds' = tasks ds
    ∧ get_number_shards ds' = get_number_shards ds
    ∧ itershards ds' = Ok shards'
    ∧ shard_ids <$> shards' = shard_ids <$> shards.
Proof.
  intros Hall Hfn.
  destruct (create_dataset_stored shards' out_dir (tasks ds))
    as (ds' & Hc & Ht & Hst).
  exists ds'. unfold transform, get_task_names.
  assert (mapM (λ shard_num,
                  s ← get_shard ds shard_num;
                  let '(newx, newy, neww) :=
                    fn (shard_X s) (shard_y s) (shard_w s) in
                  Ok (newx, newy, neww, Some (shard_ids s)))
               (seq 0 (length (metadata_df ds)))
          = Ok (to_raw <$> shards')) as ->.
  { apply mapM_Ok_Forall2, Forall2_fmap_r.
    apply Forall2_same_length_lookup_2.
    - apply Forall2_length in Hfn. rewrite length_seq, <-Hfn.
      symmetry. apply (all_shards_length _ _ Hall).
    - intros i j s' Hj Hs'. apply lookup_seq in Hj as [-> _]. simpl.
      destruct (Forall2_lookup_r _ _ _ _ _ Hfn Hs') as (s & Hs & Htr).
      rewrite (all_shards_lookup _ _ _ _ Hall Hs). simpl.
      unfold transformed in Htr.
      destruct (fn (shard_X s) (shard_y s) (shard_w s)) as [[newx newy] neww].
      destruct newx as [X|]; [|done]. injection Htr as <-. done. }
  simpl. split; [done|]. split; [done|]. split; [|split].
  - unfold get_number_shards. rewrite (stored_length _ _ _ Hst).
    apply Forall2_length in Hfn. rewrite <-Hfn.
    apply (all_shards_length _ _ Hall).
  - by apply stored_read in Hst as [? _].
  - clear -Hfn. induction Hfn as [|s s' shards shards' H _ IH]; [done|].
    csimpl. rewrite IH. f_equal. unfold transformed in H.
    destruct (fn (shard_X s) (shard_y s) (shard_w s)) as [[newx newy] neww].
    destruct newx as [X|]; [|done]. by injection H as <-.
Qed.

(** A function that swaps the two rows of the features and drops the
    weights. *)
Definition swap_rows (X : ndarray) (y w : option ndarray)
    : option ndarray * option ndarray * option ndarray :=
  (Some (reverse X), y, None).

Lemma transform_applies_fn_shard_by_shard_witness :
  ∃ ds',
    transform two_shards swap_rows empty_directory = Ok ds'
    ∧ itershards ds'
      = Ok [mkShard [Row [1%Q]; Row [0%Q]] (Some [Row [0%Q]; Row [1%Q]]) None
              [Obj "a"; Obj "a'"];
            mkShard [Row [11%Q]; Row [10%Q]] (Some [Row [0%Q]; Row [1%Q]]) None
              [Obj "b"; Obj "b'"]].
Proof.
  destruct (transform_applies_fn_shard_by_shard two_shards swap_rows
              empty_directory
              [mkShard [Row [0%Q]; Row [1%Q]] (Some [Row [0%Q]; Row [1%Q]])
                 (Some [Row [1%Q]; Row [1%Q]]) [Obj "a"; Obj "a'"];
               mkShard [Row [10%Q]; Row [11%Q]] (Some [Row [0%Q]; Row [1%Q]])
                 (Some [Row [1%Q]; Row [1%Q]]) [Obj "b"; Obj "b'"]]
              [mkShard [Row [1%Q]; Row [0%Q]] (Some [Row [0%Q]; Row [1%Q]]) None
                 [Obj "a"; Obj "a'"];
               mkShard [Row [11%Q]; Row [10%Q]] (Some [Row [0%Q]; Row [1%Q]]) None
                 [Obj "b"; Obj "b'"]])
    as (ds' & Ht & _ & _ & Hit & _).
  - vm_compute. reflexivity.
  - repeat constructor.
  - exists ds'. split; [exact Ht|exact Hit].
Defined.

(** ** iterbatches: the batches of one shard *)

(** The index ranges of the batches of a shard of [n] rows for batch size
    [b]. *)
Definition batch_ranges (n b : nat) : list (list nat) :=
  interval_ranges (linspace_int n (ceil_div n b + 1)).

Lemma interval_ranges_fmap (g : nat → nat) (m k : nat) :
  interval_ranges (g <$> seq m (S k))
  = (λ i, seq (g i) (g (S i) - g i)) <$> seq m k.
Proof.
  revert m. induction k as [|k IH]; intros m; [done|].
  change (g <$> seq m (S (S k))) with (g m :: g (S m) :: (g <$> seq (S (S m)) k)).
  rewrite interval_ranges_cons.
  change (g (S m) :: (g <$> seq (S (S m)) k)) with (g <$> seq (S m) (S k)).
  by rewrite IH.
Qed.

Lemma batch_ranges_eq (n b : nat) :
  let k := ceil_div n b in
  batch_ranges n b
  = (λ i, seq (i * n / k) (S i * n / k - i * n / k)) <$> seq 0 k.
Proof.
  intros k. unfold batch_ranges, linspace_int. fold k.
  rewrite Nat.add_1_r. cbn [Nat.sub]. rewrite Nat.sub_0_r.
  apply (interval_ranges_fmap (λ i, i * n / k)).
Qed.

Lemma ceil_div_bounds (n b : nat) :
  0 < n → 0 < b → n ≤ ceil_div n b * b ∧ ceil_div n b ≤ n.
Proof.
  intros Hn Hb. unfold ceil_div.
  pose proof (Nat.div_mod_eq (n + b - 1) b) as Hq.
  pose proof (Nat.mod_upper_bound (n + b - 1) b ltac:(lia)) as Hr.
  split; [nia|].
  assert ((n + b - 1) / b < S n); [|lia].
  apply Nat.Div0.div_lt_upper_bound. nia.
Qed.

Lemma ceil_div_0 (b : nat) : ceil_div 0 b = 0.
Proof.
  unfold ceil_div. destruct b as [|b]; [done|].
  apply Nat.div_small. lia.
Qed.

Lemma batch_ranges_0 (b : nat) : batch_ranges 0 b = [].
Proof. unfold batch_ranges. by rewrite ceil_div_0. Qed.

Lemma batch_ranges_sizes (n b : nat) :
  0 < n → 0 < b →
  length (batch_ranges n b) = ceil_div n b
  ∧ Forall (λ r, 1 ≤ length r ≤ b) (batch_ranges n b).
Proof.
  intros Hn Hb. rewrite batch_ranges_eq. cbv zeta.
  destruct (ceil_div_bounds n b Hn Hb) as [Hup Hlo].
  pose proof (ceil_div_pos n b Hn Hb) as Hk.
  set (k := ceil_div n b) in *.
  split; [by rewrite length_fmap, length_seq|].
  apply Forall_fmap, Forall_forall. intros i _. simpl. rewrite length_seq.
  assert ((i * n + 1 * k) / k ≤ (S i * n) / k) as H1.
  { apply Nat.Div0.div_le_mono. lia. }
  assert ((S i * n) / k ≤ (i * n + b * k) / k) as H2.
  { apply Nat.Div0.div_le_mono. lia. }
  rewrite Nat.div_add in H1, H2 by lia.
  change (n + i * n) with (S i * n). lia.
Qed.

Lemma batch_ranges_cover (n b : nat) :
  0 < n → 0 < b → concat (batch_ranges n b) = seq 0 n.
Proof. intros Hn Hb. by apply linspace_int_cover, ceil_div_pos. Qed.

Lemma reorder_seq_in_range (r : list nat) (n : nat) :
  Forall (λ i, i < n) r → reorder r (seq 0 n) = r.
Proof.
  unfold reorder. induction 1 as [|i r Hi _ IH]; csimpl; [done|].
  rewrite lookup_seq_lt by done. csimpl. by rewrite IH.
Qed.

(** The batches of the i-th round of [iterbatches] without padding. *)
Lemma iterbatches_shard_batches (ds : DiskDataset) (batch_size : option nat)
    (deterministic : bool) (rng : RandomState) (shard_perm : list nat)
    (i shard_num : nat) (s : Shard) :
  (∀ b, batch_size = Some b → 1 ≤ b) →
  shard_perm !! i = Some shard_num → get_shard ds shard_num = Ok s → aligned s →
  let n := length (shard_X s) in
  let perm := if deterministic then arange n else permutation rng (S i) n in
  perm ≡ₚ seq 0 n →
  iterbatches_shard ds batch_size deterministic false rng shard_perm i
  = Ok ((λ r, gather s (reorder r perm)) <$> batch_ranges n (default n batch_size))
  ∧ Forall (λ r, Forall (λ j, j < n) r) (batch_ranges n (default n batch_size)).
Proof.
  intros Hb Hi Hget Hs n perm Hperm. unfold iterbatches_shard.
  rewrite Hi. simpl. rewrite Hget. simpl. fold n.
  case_decide as Hn.
  - rewrite Hn, batch_ranges_0. done.
  - assert (1 ≤ default n batch_size) as Hb'.
    { destruct batch_size as [b|]; simpl; [by apply Hb|lia]. }
    rewrite decide_False by lia. fold perm.
    assert (∀ r, r ∈ batch_ranges n (default n batch_size) →
                 Forall (λ j, j < length perm) r) as Hr.
    { intros r. by apply ranges_in_range. }
    split.
    + apply mapM_Ok_intro. intros r Hin.
      apply iterbatches_interval_gather; [done| |by apply Hr].
      by apply Permutation_in_range in Hperm as [? _].
    + apply Forall_forall. intros r Hin.
      apply Permutation_in_range in Hperm as [_ Hlen].
      rewrite <-Hlen. by apply Hr.
Qed.

Lemma concat_samples_eq (bss : list (list Shard)) (L : list Shard) :
  Forall2 (λ bs s, concat (samples <$> bs) = samples s) bss L →
  concat (samples <$> concat bss) = concat (samples <$> L).
Proof.
  induction 1 as [|bs s bss L H _ IH]; csimpl; [done|].
  by rewrite fmap_app, concat_app, H, IH.
Qed.

Lemma get_shard_at_itershards_row (ds : DiskDataset) (row : MetaRow) (s : Shard) :
  get_shard_at ds row = Ok s → itershards_row ds row = Ok s.
Proof.
  unfold get_shard_at, itershards_row. intros H.
  apply bind_Ok in H as (X & HX & H). apply bind_Ok in H as (y & Hy & H).
  apply bind_Ok in H as (w & Hw & H). apply bind_Ok in H as (ids & Hids & H).
  rewrite HX. simpl. rewrite Hids. simpl. rewrite Hy. simpl. rewrite Hw. done.
Qed.

Lemma all_shards_itershards (ds : DiskDataset) (shards : list Shard) :
  all_shards ds = Ok shards → itershards ds = Ok shards.
Proof.
  intros H. apply mapM_Ok_Forall2.
  eapply Forall2_impl; [by apply all_shards_rows|].
  intros row s. apply get_shard_at_itershards_row.
Qed.

(** The batches that a shard is cut into, in the order of its rows. *)
Definition shard_batches (batch_size : option nat) (s : Shard) : list Shard :=
  let n := length (shard_X s) in
  gather s <$> batch_ranges n (default n batch_size).

Lemma shard_batches_samples (batch_size : option nat) (s : Shard) :
  (∀ b, batch_size = Some b → 1 ≤ b) → aligned s →
  concat (samples <$> shard_batches batch_size s) = samples s.
Proof.
  intros Hb Hs. unfold shard_batches.
  destruct (decide (length (shard_X s) = 0)) as [Hn|Hn].
  - rewrite Hn, batch_ranges_0. simpl. rewrite samples_empty; [done|].
    by apply nil_length_inv.
  - set (n := length (shard_X s)) in *.
    assert (1 ≤ default n batch_size) as Hb'.
    { destruct batch_size as [b|]; simpl; [by apply Hb|lia]. }
    pose proof (batch_ranges_cover n (default n batch_size) ltac:(lia) Hb') as Hc.
    rewrite <-list_fmap_compose.
    rewrite (list_fmap_ext _ (λ r, reorder r (samples s))
               (batch_ranges n (default n batch_size))).
    + rewrite reorder_concat, Hc. subst n.
      rewrite <-(samples_length s) by done. apply reorder_seq.
    + intros i r Hr. simpl. apply samples_gather; [done|].
      apply Forall_forall. intros j Hj.
      assert (j ∈ concat (batch_ranges n (default n batch_size))) as Hin.
      { apply list_elem_of_In, in_concat. exists r.
        split; apply list_elem_of_In; [by eapply list_elem_of_lookup_2|done]. }
      rewrite Hc in Hin. apply elem_of_seq in Hin. subst n. lia.
Qed.

Lemma gather_seq (s : Shard) :
  aligned s → gather s (seq 0 (length (shard_X s))) = s.
Proof.
  intros (Hids & Hy & Hw). destruct s as [X y w ids]. unfold gather. simpl in *.
  f_equal.
  - apply reorder_seq.
  - destruct y as [y|]; [|done]. simpl.
    rewrite <-(Hy y eq_refl). by rewrite reorder_seq.
  - destruct w as [w|]; [|done]. simpl.
    rewrite <-(Hw w eq_refl). by rewrite reorder_seq.
  - rewrite <-Hids. apply reorder_seq.
Qed.

Lemma ceil_div_same (n : nat) : 0 < n → ceil_div n n = 1.
Proof.
  intros Hn. destruct (ceil_div_bounds n n Hn Hn) as [Hup _].
  assert (ceil_div n n < 2); [|nia].
  unfold ceil_div. apply Nat.Div0.div_lt_upper_bound. lia.
Qed.

Lemma shard_batches_None (s : Shard) :
  aligned s →
  shard_batches None s = if decide (length (shard_X s) = 0) then [] else [s].
Proof.
  intros Hs. unfold shard_batches. simpl. case_decide as Hn.
  - by rewrite Hn, batch_ranges_0.
  - rewrite batch_ranges_eq. cbv zeta. rewrite ceil_div_same by lia.
    cbn [seq fmap list_fmap].
    rewrite Nat.mul_0_l, Nat.mul_1_l, !Nat.div_1_r, Nat.sub_0_r.
    by rewrite gather_seq.
Qed.

Lemma deterministic_batches (ds : DiskDataset) (batch_size : option nat)
    (rng : RandomState) (shards : list Shard) :
  (∀ b, batch_size = Some b → 1 ≤ b) →
  all_shards ds = Ok shards → Forall aligned shards →
  iterbatches ds batch_size true false rng
  = Ok (concat (shard_batches batch_size <$> shards)).
Proof.
  intros Hb Hall Hal. unfold iterbatches, arange.
  pose proof (all_shards_length _ _ Hall) as Hlen.
  assert (mapM (iterbatches_shard ds batch_size true false rng
                  (seq 0 (get_number_shards ds)))
               (seq 0 (get_number_shards ds))
          = Ok (shard_batches batch_size <$> shards)) as ->; [|done].
  apply mapM_Ok_Forall2, Forall2_fmap_r.
  apply Forall2_same_length_lookup_2; [by rewrite length_seq|].
  intros i j s Hj Hs. pose proof Hj as Hj'.
  apply lookup_seq in Hj' as [-> _]. simpl in *.
  destruct (iterbatches_shard_batches ds batch_size true rng
              (seq 0 (get_number_shards ds)) i i s Hb Hj
              (all_shards_lookup _ _ _ _ Hall Hs)) as [-> Hr].
  { by eapply Forall_lookup_1. }
  { done. }
  f_equal. unfold shard_batches. apply list_fmap_ext.
  intros k r Hk. f_equal. apply reorder_seq_in_range.
  eapply Forall_lookup_1; [exact Hr|exact Hk].
Qed.

(** X6: In deterministic mode and without padding, [iterbatches] yields the rows
    of the dataset in their order: the samples of the batches, put one after
    the other, are the samples of the shards in shard order, which is what
    [itersamples] yields.  This holds for every batch size of at least 1 and
    for the default batch size None, with which every shard that has a row
    is one batch. *)
Theorem iterbatches_deterministic_keeps_order
    (ds : DiskDataset) (batch_size : option nat) (rng : RandomState)
    (shards : list Shard) :
  (∀ b, batch_size = Some b → 1 ≤ b) →
  all_shards ds = Ok shards → Forall aligned shards →
  ∃ batches,
    iterbatches ds batch_size true false rng = Ok batches
    ∧ concat (samples <$> batches) = concat (samples <$> shards)
    ∧ itersamples ds = Ok (concat (samples <$> batches))
    ∧ (batch_size = None →
       batches = filter (λ s, length (shard_X s) ≠ 0) shards).
Proof.
  intros Hb Hall Hal.
  exists (concat (shard_batches batch_size <$> shards)).
  split; [by apply deterministic_batches|].
  assert (concat (samples <$> concat (shard_batches batch_size <$> shards))
          = concat (samples <$> shards)) as Heq.
  { apply concat_samples_eq, Forall2_fmap_l.
    apply Forall_Forall2_diag. eapply Forall_impl; [exact Hal|].
    intros s Hs. by apply shard_batches_samples. }
  split; [done|]. split.
  - rewrite Heq. apply itersamples_in_shard_order; [|done].
    by apply all_shards_itershards.
  - intros ->. clear -Hal.
    induction Hal as [|s shards Hs _ IH]; [done|].
    csimpl. rewrite IH, shard_batches_None, filter_cons by done.
    destruct (decide (length (shard_X s) = 0)); case_decide; done || lia.
Qed.

Lemma iterbatches_deterministic_keeps_order_witness :
  ∃ batches,
    iterbatches three_shards (Some 2) true false rotating = Ok batches
    ∧ concat (samples <$> batches) = concat (samples <$> three_shards_read)
    ∧ itersamples three_shards = Ok (concat (samples <$> batches)).
Proof.
  destruct (iterbatches_deterministic_keeps_order three_shards (Some 2) rotating
              three_shards_read) as (batches & H1 & H2 & H3 & _).
  - intros b [= <-]. lia.
  - vm_compute. reflexivity.
  - repeat constructor; simpl; intros ? [= <-]; reflexivity.
  - exists batches. split; [exact H1|]. split; [exact H2|exact H3].
Defined.

Lemma gather_aligned (s : Shard) (idx : list nat) :
  aligned s → Forall (λ i, i < length (shard_X s)) idx →
  aligned (gather s idx) ∧ length (shard_X (gather s idx)) = length idx.
Proof.
  intros (Hids & Hy & Hw) Hidx. unfold aligned, gather. simpl.
  rewrite (reorder_length idx (shard_X s)) by done.
  split; [|done]. split; [|split].
  - apply reorder_length. by rewrite Hids.
  - intros y'. destruct (shard_y s) as [y|]; [|done]. simpl. intros [= <-].
    apply reorder_length. by rewrite (Hy y eq_refl).
  - intros w'. destruct (shard_w s) as [w|]; [|done]. simpl. intros [= <-].
    apply reorder_length. by rewrite (Hw w eq_refl).
Qed.

(** What the batches [bs] of a shard [s] look like for batch size [b]. *)
Definition cut_into (b : nat) (bs : list Shard) (s : Shard) : Prop :=
  length bs = ceil_div (length (shard_X s)) b
  ∧ Forall (λ bt, 1 ≤ length (shard_X bt) ≤ b ∧ aligned bt) bs.

Lemma iterbatches_shard_cut (ds : DiskDataset) (b : nat)
    (deterministic : bool) (rng : RandomState) (shard_perm : list nat)
    (i shard_num : nat) (s : Shard) :
  1 ≤ b → valid_random rng →
  shard_perm !! i = Some shard_num → get_shard ds shard_num = Ok s → aligned s →
  ∃ bs, iterbatches_shard ds (Some b) deterministic false rng shard_perm i = Ok bs
        ∧ cut_into b bs s.
Proof.
  intros Hb [Hrng _] Hi Hget Hs.
  set (n := length (shard_X s)).
  set (perm := if deterministic then arange n else permutation rng (S i) n).
  assert (perm ≡ₚ seq 0 n) as Hperm.
  { subst perm. destruct deterministic; [done|apply Hrng]. }
  destruct (iterbatches_shard_batches ds (Some b) deterministic rng shard_perm
              i shard_num s) as [Heq Hr]; try done.
  { intros ? [= <-]. done. }
  fold n perm in Heq, Hr. simpl in Heq, Hr.
  eexists. split; [exact Heq|].
  destruct (Permutation_in_range _ _ Hperm) as [Hlt Hlen].
  destruct (decide (n = 0)) as [Hn|Hn].
  - unfold cut_into. fold n. rewrite Hn, batch_ranges_0, ceil_div_0. by split.
  - destruct (batch_ranges_sizes n b ltac:(lia) Hb) as [Hcount Hsizes].
    split; [by rewrite length_fmap|].
    apply Forall_fmap, Forall_forall. intros r Hin. unfold compose.
    assert (Forall (λ j, j < length perm) r) as Hr'.
    { rewrite Hlen. eapply Forall_forall in Hr; eauto. }
    destruct (gather_aligned s (reorder r perm) Hs) as [Hal Hl].
    { by apply reorder_in_range. }
    rewrite Hl, reorder_length by done.
    eapply Forall_forall in Hsizes; eauto.
Qed.

(** X7: Without padding, [iterbatches] with batch size [b >= 1] cuts a shard of
    [n] rows into [ceil(n / b)] batches, deterministic or not: no batch is
    empty, none has more than [b] rows, and the four arrays of a batch have
    the same number of rows.  A shard without rows gives no batch. *)
Theorem iterbatches_batch_sizes
    (ds : DiskDataset) (b : nat) (deterministic : bool) (rng : RandomState)
    (shards : list Shard) :
  1 ≤ b → valid_random rng →
  all_shards ds = Ok shards → Forall aligned shards →
  ∃ batches,
    iterbatches ds (Some b) deterministic false rng = Ok batches
    ∧ Forall (λ bt, 1 ≤ length (shard_X bt) ≤ b ∧ aligned bt) batches
    ∧ length batches
      = sum_list_with (λ s, ceil_div (length (shard_X s)) b) shards.
Proof.
  intros Hb Hrng Hall Hal. unfold iterbatches.
  set (n := get_number_shards ds).
  set (p := if deterministic then arange n else permutation rng 0 n).
  assert (p ≡ₚ seq 0 n) as Hp.
  { subst p. destruct deterministic; [done|apply Hrng]. }
  pose proof (all_shards_length _ _ Hall) as Hlen. fold n in Hlen.
  destruct (Permutation_in_range p n Hp) as [Hlt Hplen].
  assert (Forall (λ k, k < length shards) p) as Hlt' by by rewrite Hlen.
  set (L := reorder p shards).
  assert (Forall2 (λ i s, ∃ bs,
            iterbatches_shard ds (Some b) deterministic false rng p i = Ok bs
            ∧ cut_into b bs s) (seq 0 n) L) as HF.
  { pose proof (reorder_Forall2 p shards Hlt') as HL. fold L in HL.
    apply Forall2_same_length_lookup_2.
    - apply Forall2_length in HL. by rewrite length_seq, <-HL.
    - intros i j s Hj Hs. apply lookup_seq in Hj as [-> _]. simpl.
      destruct (Forall2_lookup_r _ _ _ _ _ HL Hs) as (k & Hk & Hks).
      eapply iterbatches_shard_cut; eauto using all_shards_lookup.
      eapply Forall_lookup_1; eauto. }
  apply Forall2_exists_mapM in HF as (bss & -> & HF).
  exists (concat bss). simpl. split; [done|].
  assert (sum_list_with (λ s, ceil_div (length (shard_X s)) b) L
          = sum_list_with (λ s, ceil_div (length (shard_X s)) b) shards) as <-.
  { subst L. rewrite (reorder_Permutation p shards); [done|]. by rewrite Hlen. }
  clear -HF. induction HF as [|bs s bss L [Hc Hs] _ [IH1 IH2]]; [by split|].
  csimpl. split; [by apply Forall_app|].
  rewrite length_app, Hc, IH2. done.
Qed.

Lemma iterbatches_batch_sizes_witness :
  ∃ batches,
    iterbatches three_shards (Some 2) false false reversing = Ok batches
    ∧ Forall (λ bt, 1 ≤ length (shard_X bt) ≤ 2 ∧ aligned bt) batches
    ∧ length batches = 4.
Proof.
  apply (iterbatches_batch_sizes three_shards 2 false reversing three_shards_read).
  - lia.
  - exact reversing_valid.
  - vm_compute. reflexivity.
  - repeat constructor; simpl; intros ? [= <-]; reflexivity.
Defined.

(** ** shuffle_shards keeps the layout *)

Lemma reorder_lookup {A} (idx : list nat) (a : list A) (i : nat) (x : A) :
  Forall (λ j, j < length a) idx →
  reorder idx a !! i = Some x ↔ ∃ j, idx !! i = Some j ∧ a !! j = Some x.
Proof.
  intros Hidx. pose proof (reorder_Forall2 idx a Hidx) as HF. split.
  - intros Hx. destruct (Forall2_lookup_r _ _ _ _ _ HF Hx) as (j & Hj & Hjx).
    eauto.
  - intros (j & Hj & Hjx).
    destruct (Forall2_lookup_l _ _ _ _ _ HF Hj) as (y & Hy & Hjy).
    congruence.
Qed.

Lemma reorder_zip_with {A B C} (f : A → B → C) (idx : list nat)
    (a : list A) (b : list B) :
  length a = length b → Forall (λ i, i < length a) idx →
  reorder idx (zip_with f a b) = zip_with f (reorder idx a) (reorder idx b).
Proof.
  intros Hlen. unfold reorder. induction 1 as [|i idx Hi _ IH]; csimpl; [done|].
  destruct (lookup_lt_is_Some_2 a i Hi) as [x Hx].
  destruct (lookup_lt_is_Some_2 b i ltac:(lia)) as [y Hy].
  rewrite lookup_zip_with, Hx, Hy. csimpl. by rewrite IH.
Qed.

Lemma shuffle_shards_stored (rng : RandomState) (ds : DiskDataset)
    (nums : list nat) (shards : list Shard) :
  valid_random rng → stored ds nums shards →
  let order := shuffle rng (length shards) in
  stored (shuffle_shards rng ds) (reorder order nums) (reorder order shards).
Proof.
  intros [_ Hshuffle] Hst order.
  pose proof (stored_length _ _ _ Hst) as Hlen.
  destruct Hst as (Hnd & Hln & Hrows & Hholds).
  destruct (Permutation_in_range order (length shards) (Hshuffle _)) as [Hlt _].
  assert (Forall (λ i, i < length nums) order) as Hlt' by by rewrite Hln.
  unfold shuffle_shards. rewrite Hlen. fold order.
  split; [|split; [|split]]; simpl.
  - rewrite reorder_Permutation; [done|]. rewrite Hln. apply Hshuffle.
  - by rewrite !reorder_length.
  - by rewrite Hrows, reorder_zip_with.
  - intros i n s Hn Hs.
    apply reorder_lookup in Hn as (j & Hj & Hn); [|done].
    apply reorder_lookup in Hs as (j' & Hj' & Hs); [|done].
    assert (j' = j) as -> by congruence. by eapply Hholds.
Qed.

(** ** shuffle_each_shard *)

Lemma row_of_presence (n : nat) (tasks : list string) (s s' : Shard) :
  (is_Some (shard_y s') ↔ is_Some (shard_y s)) →
  (is_Some (shard_w s') ↔ is_Some (shard_w s)) →
  row_of n tasks s' = row_of n tasks s.
Proof.
  intros Hy Hw. unfold row_of.
  destruct (shard_y s) as [y|], (shard_y s') as [y'|];
    try (exfalso; by (apply is_Some_None, Hy) || (eapply is_Some_None, Hy));
    destruct (shard_w s) as [w|], (shard_w s') as [w'|];
    try (exfalso; by (apply is_Some_None, Hw) || (eapply is_Some_None, Hw));
    done.
Qed.

(** Writing the arrays of [s'] under the name of the shard at position [i]
    puts [s'] at that position, when [s'] has labels and weights where the
    shard it replaces has them. *)
Lemma stored_overwrite (ds : DiskDataset) nums shards (i n : nat) (s s' : Shard) :
  stored ds nums shards → nums !! i = Some n → shards !! i = Some s →
  (is_Some (shard_y s') ↔ is_Some (shard_y s)) →
  (is_Some (shard_w s') ↔ is_Some (shard_w s)) →
  let wr := write_data_to_disk (data_dir ds) (shard_basename n) (tasks ds)
              (Some (shard_X s')) (shard_y s') (shard_w s') (Some (shard_ids s')) in
  stored {| data_dir := wr.1; tasks := tasks ds; metadata_df := metadata_df ds |}
         nums (<[i := s']> shards).
Proof.
  intros (Hnd & Hln & Hrows & Hholds) Hn Hs Hy Hw wr.
  pose proof (write_shard (data_dir ds) n (tasks ds) s') as Hwr.
  cbv zeta in Hwr. fold wr in Hwr. destruct Hwr as (_ & Hh & _ & Hother).
  split; [done|]. split; [by rewrite length_insert|]. split; simpl.
  - rewrite Hrows. apply list_eq. intros j. rewrite !lookup_zip_with.
    destruct (nums !! j) as [m|] eqn:Hm; simpl; [|done].
    destruct (decide (j = i)) as [->|Hne].
    + rewrite list_lookup_insert_eq by (by eapply lookup_lt_Some).
      rewrite Hs. simpl. assert (m = n) as -> by congruence.
      f_equal. by apply row_of_presence.
    + by rewrite list_lookup_insert_ne.
  - intros j m t Hm Ht.
    destruct (decide (j = i)) as [->|Hne].
    + rewrite list_lookup_insert_eq in Ht by (by eapply lookup_lt_Some).
      injection Ht as <-. assert (m = n) as -> by congruence. done.
    + rewrite list_lookup_insert_ne in Ht by done.
      eapply holds_shard_agree; [|by eapply Hholds].
      intros f Hf. apply Hother. intros sfx Hsfx ->.
      assert (n = m) as ->.
      { eapply shard_files_disjoint; [|exact Hf].
        unfold shard_files. by apply list_elem_of_fmap_2. }
      apply Hne. by eapply NoDup_lookup.
Qed.

Lemma gather_presence (s : Shard) (idx : list nat) :
  (is_Some (shard_y (gather s idx)) ↔ is_Some (shard_y s))
  ∧ (is_Some (shard_w (gather s idx)) ↔ is_Some (shard_w s)).
Proof. unfold gather. simpl. by rewrite !fmap_is_Some. Qed.

Lemma stored_lookup (ds : DiskDataset) nums shards i s :
  stored ds nums shards → shards !! i = Some s →
  ∃ n, nums !! i = Some n
       ∧ metadata_df ds !! i = Some (row_of n (tasks ds) s)
       ∧ get_shard ds i = Ok s.
Proof.
  intros Hst Hs. pose proof Hst as (_ & Hln & Hrows & _).
  destruct (lookup_lt_is_Some_2 nums i) as [n Hn].
  { rewrite Hln. by eapply lookup_lt_Some. }
  exists n. split; [done|]. split.
  - by rewrite Hrows, lookup_zip_with, Hn, Hs.
  - apply stored_read in Hst as [_ Hall]. by eapply all_shards_lookup.
Qed.

(** One round of the loop on a shard with labels and weights. *)
Lemma shuffle_shard_stored (rng : RandomState) (ds : DiskDataset) nums shards
    (i : nat) (s : Shard) :
  stored ds nums shards → shards !! i = Some s → labelled s → aligned s →
  permutation rng i (length (shard_X s)) ≡ₚ seq 0 (length (shard_X s)) →
  ∃ ds',
    shuffle_shard rng ds i = Ok ds'
    ∧ tasks ds' = tasks ds ∧ metadata_df ds' = metadata_df ds
    ∧ metadata_file (data_dir ds') = metadata_file (data_dir ds)
    ∧ stored ds' nums
        (<[i := gather s (permutation rng i (length (shard_X s)))]> shards).
Proof.
  intros Hst Hs [[y Hy] [w Hw]] Hal Hperm.
  destruct (stored_lookup _ _ _ _ _ Hst Hs) as (n & Hn & Hrow & Hget).
  set (perm := permutation rng i (length (shard_X s))) in *.
  destruct (Permutation_in_range _ _ Hperm) as [Hlt _].
  pose proof (stored_overwrite ds nums shards i n s (gather s perm) Hst Hn Hs
                (proj1 (gather_presence s perm)) (proj2 (gather_presence s perm)))
    as Hst'.
  cbv zeta in Hst'.
  pose proof (write_data_to_disk_metadata (data_dir ds) (shard_basename n)
                (tasks ds) (Some (shard_X (gather s perm)))
                (shard_y (gather s perm)) (shard_w (gather s perm))
                (Some (shard_ids (gather s perm)))) as Hmeta.
  destruct Hal as (Hids & Hly & Hlw).
  unfold shuffle_shard, get_task_names. rewrite Hrow.
  cbn -[write_data_to_disk]. rewrite Hget. cbn -[write_data_to_disk]. fold perm.
  destruct (fancy_index_Ok (shard_X s) perm Hlt) as [-> _].
  cbn -[write_data_to_disk]. rewrite Hy. cbn -[write_data_to_disk].
  destruct (fancy_index_Ok y perm) as [-> _]; [by rewrite (Hly y Hy)|].
  cbn -[write_data_to_disk]. rewrite Hw. cbn -[write_data_to_disk].
  destruct (fancy_index_Ok w perm) as [-> _]; [by rewrite (Hlw w Hw)|].
  cbn -[write_data_to_disk].
  destruct (fancy_index_Ok (shard_ids s) perm) as [-> _]; [by rewrite Hids|].
  cbn -[write_data_to_disk].
  unfold gather in Hst' at 1 2 3 4. unfold gather in Hmeta.
  cbn -[write_data_to_disk] in Hst', Hmeta. rewrite Hy, Hw in Hst', Hmeta.
  cbn -[write_data_to_disk] in Hst', Hmeta.
  remember (write_data_to_disk (data_dir ds) (shard_basename n) (tasks ds)
              (Some (reorder perm (shard_X s))) (Some (reorder perm y))
              (Some (reorder perm w)) (Some (reorder perm (shard_ids s))))
    as wr eqn:Hwr in *.
  destruct wr as [d row].
  eexists. split; [reflexivity|]. simpl in *. done.
Qed.

(** One round of the loop on a shard without labels or without weights. *)
Lemma shuffle_shard_unlabelled (rng : RandomState) (ds : DiskDataset) nums shards
    (i : nat) (s : Shard) :
  stored ds nums shards → shards !! i = Some s → ¬ labelled s → aligned s →
  permutation rng i (length (shard_X s)) ≡ₚ seq 0 (length (shard_X s)) →
  shuffle_shard rng ds i = Raise TypeError.
Proof.
  intros Hst Hs Hlab Hal Hperm.
  destruct (stored_lookup _ _ _ _ _ Hst Hs) as (n & Hn & Hrow & Hget).
  destruct (Permutation_in_range _ _ Hperm) as [Hlt _].
  destruct Hal as (Hids & Hly & Hlw).
  unfold shuffle_shard. rewrite Hrow. simpl. rewrite Hget. simpl.
  destruct (fancy_index_Ok (shard_X s) _ Hlt) as [-> _]. simpl.
  destruct (shard_y s) as [y|] eqn:Hy; simpl; [|done].
  destruct (fancy_index_Ok y (permutation rng i (length (shard_X s))))
    as [-> _]; [by rewrite (Hly y eq_refl)|]. simpl.
  destruct (shard_w s) as [w|] eqn:Hw; simpl; [|done].
  exfalso. apply Hlab. split; by eexists.
Qed.

(** The shards after the first [k] rounds of the loop. *)
Definition shuffled_up_to (rng : RandomState) (k : nat) (shards : list Shard)
    : list Shard :=
  imap (λ i s, if decide (i < k)
               then gather s (permutation rng i (length (shard_X s))) else s)
       shards.

Lemma shuffled_up_to_S (rng : RandomState) (k : nat) (shards : list Shard) (s : Shard) :
  shards !! k = Some s →
  <[k := gather s (permutation rng k (length (shard_X s)))]>
    (shuffled_up_to rng k shards)
  = shuffled_up_to rng (S k) shards.
Proof.
  intros Hs. apply list_eq. intros j. unfold shuffled_up_to.
  destruct (decide (j = k)) as [->|Hne].
  - rewrite list_lookup_insert_eq.
    + rewrite list_lookup_imap, Hs. simpl. by rewrite decide_True by lia.
    + rewrite length_imap. by eapply lookup_lt_Some.
  - rewrite list_lookup_insert_ne by done. rewrite !list_lookup_imap.
    destruct (shards !! j); simpl; [|done].
    destruct (decide (j < k)), (decide (j < S k)); done || lia.
Qed.

Lemma shuffle_each_shard_rounds (rng : RandomState) (ds : DiskDataset)
    nums shards (k : nat) :
  valid_random rng → stored ds nums shards → Forall aligned shards →
  k ≤ length shards → Forall labelled (take k shards) →
  ∃ ds',
    foldl (λ acc i, ds ← acc; shuffle_shard rng ds i) (Ok ds) (seq 0 k) = Ok ds'
    ∧ tasks ds' = tasks ds ∧ metadata_df ds' = metadata_df ds
    ∧ metadata_file (data_dir ds') = metadata_file (data_dir ds)
    ∧ stored ds' nums (shuffled_up_to rng k shards).
Proof.
  intros [Hrng _] Hst Hal. induction k as [|k IH]; intros Hk Hlab.
  - exists ds. simpl. do 4 (split; [done|]).
    assert (shuffled_up_to rng 0 shards = shards) as ->; [|done].
    apply list_eq. intros i. unfold shuffled_up_to. rewrite list_lookup_imap.
    destruct (shards !! i) as [s|]; [|done].
    cbn [fmap option_fmap option_map]. by rewrite decide_False by lia.
  - destruct (lookup_lt_is_Some_2 shards k ltac:(lia)) as [s Hs].
    rewrite (take_S_r _ _ _ Hs) in Hlab.
    apply Forall_app in Hlab as [Hlab Hs_lab].
    apply Forall_cons in Hs_lab as [Hs_lab _].
    destruct IH as (ds1 & Hfold & Ht & Hm & Hf & Hst1); [lia|done|].
    rewrite seq_S, foldl_app, Hfold. simpl.
    destruct (shuffle_shard_stored rng ds1 nums (shuffled_up_to rng k shards) k s)
      as (ds2 & -> & Ht2 & Hm2 & Hf2 & Hst2); try done.
    + unfold shuffled_up_to. rewrite list_lookup_imap, Hs. simpl.
      by rewrite decide_False by lia.
    + by eapply Forall_lookup_1.
    + exists ds2. split; [done|]. do 3 (split; [congruence|]).
      by rewrite <-(shuffled_up_to_S rng k shards s Hs).
Qed.

Lemma foldl_Raise {A B} (f : A → B → outcome A) (e : exn) (l : list B) :
  foldl (λ acc b, a ← acc; f a b) (Raise e) l = Raise e.
Proof. induction l as [|b l IH]; simpl; [done|]. exact IH. Qed.

Lemma shuffled_up_to_all (rng : RandomState) (shards : list Shard) :
  shuffled_up_to rng (length shards) shards
  = imap (λ i s, gather s (permutation rng i (length (shard_X s)))) shards.
Proof.
  unfold shuffled_up_to. apply list_eq. intros i. rewrite !list_lookup_imap.
  destruct (shards !! i) as [s|] eqn:Hs; simpl; [|done].
  rewrite decide_True; [done|]. by eapply lookup_lt_Some.
Qed.

(** X8: [shuffle_each_shard] on a dataset whose rows are those of shards with
    distinct numbers, in any order: every shard is read, its rows are put in
    the order of a fresh random permutation and written back under the
    basename of its own row, so the shard at every position holds the same
    samples as before in another order, and the metadata table and the task
    names are as they were.  This also holds after [shuffle_shards] has moved
    the rows.  Labels and weights are indexed without a test for None: the
    call raises TypeError at the first shard that lacks either. *)
Theorem shuffle_each_shard_permutes_rows
    (rng : RandomState) (ds : DiskDataset) (nums : list nat)
    (shards : list Shard) :
  valid_random rng → stored ds nums shards → Forall aligned shards →
  (Forall labelled shards →
   ∃ ds' shards',
     shuffle_each_shard rng ds = Ok ds'
     ∧ tasks ds' = tasks ds ∧ metadata_df ds' = metadata_df ds
     ∧ metadata_file (data_dir ds') = metadata_file (data_dir ds)
     ∧ itershards ds' = Ok shards'
     ∧ Forall2 (λ s s', samples s' ≡ₚ samples s ∧ aligned s') shards shards'
     ∧ (∀ i s, shards !! i = Some s →
          get_shard ds' i
          = Ok (gather s (permutation rng i (length (shard_X s))))))
  ∧ (∀ k s, shards !! k = Some s → ¬ labelled s →
       Forall labelled (take k shards) →
       shuffle_each_shard rng ds = Raise TypeError).
Proof.
  intros Hrng Hst Hal. pose proof (stored_length _ _ _ Hst) as Hlen. split.
  - intros Hlab.
    destruct (shuffle_each_shard_rounds rng ds nums shards (length shards))
      as (ds' & Hfold & Ht & Hm & Hf & Hst'); try done.
    { by rewrite firstn_all. }
    rewrite shuffled_up_to_all in Hst'.
    destruct (stored_read _ _ _ Hst') as [Hit Hall].
    eexists ds', _. unfold shuffle_each_shard. rewrite Hlen.
    split; [exact Hfold|]. do 3 (split; [done|]). split; [exact Hit|]. split.
    + apply Forall2_same_length_lookup_2; [by rewrite length_imap|].
      intros i s s' Hs Hs'. rewrite list_lookup_imap, Hs in Hs'.
      injection Hs' as <-.
      pose proof (Forall_lookup_1 _ _ _ _ Hal Hs) as Hs_al.
      destruct Hrng as [Hrng _].
      destruct (Permutation_in_range _ _ (Hrng i (length (shard_X s)))) as [Hlt _].
      split; [|by apply gather_aligned].
      rewrite samples_gather by done.
      apply reorder_Permutation. rewrite samples_length by done. apply Hrng.
    + intros i s Hs. apply (all_shards_lookup _ _ _ _ Hall).
      by rewrite list_lookup_imap, Hs.
  - intros k s Hs Hnlab Hlab.
    pose proof (lookup_lt_Some _ _ _ Hs) as Hk.
    destruct (shuffle_each_shard_rounds rng ds nums shards k)
      as (ds1 & Hfold & _ & _ & _ & Hst1); try done; [lia|].
    unfold shuffle_each_shard. rewrite Hlen.
    replace (length shards) with (k + (S (length shards - S k))) by lia.
    rewrite seq_app, foldl_app, Hfold. cbn [seq foldl Nat.add].
    change (Ok ds1 ≫= λ ds0, shuffle_shard rng ds0 k)
      with (shuffle_shard rng ds1 k).
    rewrite (shuffle_shard_unlabelled rng ds1 nums (shuffled_up_to rng k shards) k s);
      try done.
    + apply foldl_Raise.
    + unfold shuffled_up_to. rewrite list_lookup_imap, Hs. simpl.
      by rewrite decide_False by lia.
    + by eapply Forall_lookup_1.
    + destruct Hrng as [Hrng _]. apply Hrng.
Qed.

Lemma shuffled_four_shards_stored :
  stored (shuffle_shards rotating four_shards) [1; 2; 3; 0]
    (reorder [1; 2; 3; 0] four_shards_read).
Proof.
  exact (shuffle_shards_stored rotating four_shards (seq 0 4) four_shards_read
           rotating_valid four_shards_stored).
Qed.

Lemma shuffle_each_shard_permutes_rows_witness :
  ∃ ds',
    shuffle_each_shard reversing (shuffle_shards rotating four_shards) = Ok ds'
    ∧ get_shard ds' 0
      = Ok (mkShard [Row [11%Q]; Row [10%Q]] (Some [Row [1%Q]; Row [0%Q]])
              (Some [Row [1%Q]; Row [1%Q]]) [Obj "b'"; Obj "b"]).
Proof.
  destruct (proj1 (shuffle_each_shard_permutes_rows reversing
                     (shuffle_shards rotating four_shards) [1; 2; 3; 0]
                     (reorder [1; 2; 3; 0] four_shards_read)
                     reversing_valid shuffled_four_shards_stored
                     ltac:(repeat constructor; simpl; intros ? [= <-]; reflexivity)))
    as (ds' & shards' & Hs & _ & _ & _ & _ & _ & Hget).
  - repeat constructor; by eexists.
  - exists ds'. split; [exact Hs|].
    exact (Hget 0 _ eq_refl).
Defined.

(** ** select *)

(** The rows of the four arrays at the positions [idx]. *)
Definition select_rows (b : buffers) (idx : list nat) : buffers :=
  (reorder idx b.1.1.1, reorder idx b.1.1.2, reorder idx b.1.2, reorder idx b.2).

Lemma num_shard_elts_spec (bound : nat) (rest : list nat) :
  StronglySorted (≤) rest →
  let n := num_shard_elts bound rest in
  Forall (λ i, i < bound) (take n rest) ∧ Forall (λ i, bound ≤ i) (drop n rest).
Proof.
  induction 1 as [|i rest _ IH Hi]; simpl; [done|].
  case_decide as Hlt; simpl.
  - destruct IH as [IH1 IH2]. split; [by constructor|done].
  - split; [constructor|]. constructor; [lia|].
    eapply Forall_impl; [exact Hi|]. simpl. intros j Hj. lia.
Qed.

Lemma reorder_app_r {A} (idx : list nat) (a b : list A) :
  Forall (λ i, length a ≤ i) idx →
  reorder idx (a ++ b) = reorder ((λ i, i - length a) <$> idx) b.
Proof.
  unfold reorder. induction 1 as [|i idx Hi _ IH]; csimpl; [done|].
  by rewrite lookup_app_r, IH.
Qed.

Lemma select_rows_app (b : buffers) (i1 i2 : list nat) :
  select_rows b (i1 ++ i2) = bapp (select_rows b i1) (select_rows b i2).
Proof. unfold select_rows, bapp. simpl. by rewrite !reorder_app. Qed.

(** The four arrays of a shard with labels and weights have the length of
    its features. *)
Lemma shard_buffers_lengths (s : Shard) :
  labelled s → aligned s →
  let b := shard_buffers s in
  length b.1.1.2 = length (shard_X s) ∧ length b.1.2 = length (shard_X s)
  ∧ length b.2 = length (shard_X s).
Proof.
  intros [[y Hy] [w Hw]] (Hids & Hly & Hlw). unfold shard_buffers.
  rewrite Hy, Hw. simpl. auto.
Qed.

Lemma select_rows_bapp_l (a b : buffers) (idx : list nat) (n : nat) :
  length a.1.1.1 = n → length a.1.1.2 = n → length a.1.2 = n → length a.2 = n →
  Forall (λ i, i < n) idx →
  select_rows (bapp a b) idx = select_rows a idx.
Proof.
  intros H1 H2 H3 H4 Hidx. unfold select_rows, bapp. simpl.
  rewrite !reorder_app_l; [done|by rewrite ?H1, ?H2, ?H3, ?H4..].
Qed.

Lemma select_rows_bapp_r (a b : buffers) (idx : list nat) (n : nat) :
  length a.1.1.1 = n → length a.1.1.2 = n → length a.1.2 = n → length a.2 = n →
  Forall (λ i, n ≤ i) idx →
  select_rows (bapp a b) idx = select_rows b ((λ i, i - n) <$> idx).
Proof.
  intros H1 H2 H3 H4 Hidx. unfold select_rows, bapp. simpl.
  rewrite !reorder_app_r by (by rewrite ?H1, ?H2, ?H3, ?H4).
  by rewrite H1, H2, H3, H4.
Qed.

(** The rows that one round of the generator takes from a shard. *)
Lemma select_round (s : Shard) (inds : list nat) :
  labelled s → aligned s → Forall (λ i, i < length (shard_X s)) inds →
  ∃ b : buffers,
    b = select_rows (shard_buffers s) inds
    ∧ fancy_index (shard_X s) inds = Ok b.1.1.1
    ∧ index_present (shard_y s) inds = Ok b.1.1.2
    ∧ index_present (shard_w s) inds = Ok b.1.2
    ∧ fancy_index (shard_ids s) inds = Ok b.2.
Proof.
  intros [[y Hy] [w Hw]] (Hids & Hly & Hlw) Hinds.
  eexists. split; [reflexivity|]. unfold shard_buffers, select_rows.
  rewrite Hy, Hw. simpl.
  destruct (fancy_index_Ok (shard_X s) inds Hinds) as [-> _].
  destruct (fancy_index_Ok y inds) as [-> _]; [by rewrite (Hly y Hy)|].
  destruct (fancy_index_Ok w inds) as [-> _]; [by rewrite (Hlw w Hw)|].
  destruct (fancy_index_Ok (shard_ids s) inds) as [-> _]; [by rewrite Hids|].
  done.
Qed.

(** The number of rows of a list of shards. *)
Definition total (shards : list Shard) : nat :=
  sum_list_with (λ s, length (shard_X s)) shards.

Lemma select_for_spec (ds : DiskDataset) (rows : list MetaRow)
    (shards : list Shard) (rest : list nat) (count : nat) :
  Forall2 (λ row s, itershards_row ds row = Ok s ∧ labelled s ∧ aligned s)
          rows shards →
  StronglySorted (≤) rest → Forall (λ i, count ≤ i) rest →
  ∃ out : list buffers,
    select_for ds rest count rows = Ok (buffers_raw <$> out)
    ∧ flat out
      = select_rows (contents shards)
          ((λ i, i - count) <$> filter (λ i, i < count + total shards) rest)
    ∧ length out ≤ length shards.
Proof.
  intros HF. revert rest count.
  induction HF as [|row s rows shards (Hrow & Hlab & Hal) _ IH];
    intros rest count Hsorted Hge.
  - exists []. split; [done|]. split; [|done].
    assert (filter (λ i, i < count + total []) rest = []) as ->; [|done].
    clear Hsorted. induction Hge as [|i rest Hi _ IHr]; [done|].
    rewrite filter_cons, IHr. unfold total. simpl.
    by rewrite decide_False by lia.
  - cbn [select_for]. rewrite Hrow. cbn [mbind outcome_bind].
    set (len := length (shard_X s)).
    destruct (num_shard_elts_spec (count + len) rest Hsorted) as [Htake Hdrop].
    set (n := num_shard_elts (count + len) rest) in *.
    assert (Forall (λ i, count ≤ i) (take n rest)) as Hge_take.
    { by apply Forall_take. }
    assert (Forall (λ i, i < len) ((λ i, i - count) <$> take n rest)) as Hinds.
    { apply Forall_fmap, Forall_forall. intros i Hi. simpl.
      eapply Forall_forall in Htake; [|exact Hi].
      eapply Forall_forall in Hge_take; [|exact Hi]. simpl in *. lia. }
    destruct (select_round s _ Hlab Hal Hinds) as (b & Hb & -> & -> & -> & ->).
    cbn [mbind outcome_bind].
    destruct (shard_buffers_lengths s Hlab Hal) as (Hl2 & Hl3 & Hl4).
    assert (contents (s :: shards) = bapp (shard_buffers s) (contents shards))
      as Hcont by done.
    assert (total (s :: shards) = len + total shards) as Htot by done.
    assert (filter (λ i, i < count + total (s :: shards)) (take n rest)
            = take n rest) as Hf1.
    { clear -Htake Htot. rewrite Htot.
      induction Htake as [|i l Hi _ IHt]; [done|].
      rewrite filter_cons, IHt. by rewrite decide_True by lia. }
    assert (b = select_rows (contents (s :: shards))
                  ((λ i, i - count) <$> take n rest)) as Hb'.
    { rewrite Hcont, (select_rows_bapp_l _ _ _ len); done. }
    destruct (decide (length (drop n rest) = 0)) as [Hnil|Hnil].
    + exists [b].
      split; [by destruct b as [[[??]?]?]|]. split; [|simpl; lia].
      cbn [flat foldr]. rewrite bapp_nil_r, Hb'. do 2 f_equal.
      apply nil_length_inv in Hnil.
      rewrite <-(take_drop n rest) at 2. by rewrite Hnil, app_nil_r, Hf1.
    + destruct (IH (drop n rest) (count + len)) as (out & -> & Hflat & Hlen).
      { rewrite <-(take_drop n rest) in Hsorted.
        by apply StronglySorted_app_1_r in Hsorted. }
      { done. }
      exists (b :: out).
      split; [by destruct b as [[[??]?]?]|]. split; [|simpl; lia].
      cbn [flat foldr]. fold (flat out). rewrite Hflat. rewrite Hb' at 1.
      rewrite <-(take_drop n rest) at 3.
      rewrite filter_app, fmap_app, select_rows_app, Hf1. f_equal.
      rewrite Hcont.
      rewrite (select_rows_bapp_r _ _ _ len); try done.
      * f_equal. rewrite <-list_fmap_compose.
        rewrite Htot.
        rewrite (list_filter_iff (λ i, i < count + (len + total shards))
                   (λ i, i < count + len + total shards)) by (intros; lia).
        apply list_fmap_ext. intros j i _. simpl. lia.
      * apply Forall_fmap, Forall_forall. intros i Hi.
        apply list_elem_of_filter in Hi as [_ Hi].
        eapply Forall_forall in Hdrop; [|exact Hi]. simpl. lia.
Qed.

Lemma buffers_raw_to_raw (out : list buffers) :
  buffers_raw <$> out = to_raw <$> (buffers_shard <$> out).
Proof.
  rewrite <-list_fmap_compose. apply list_fmap_ext.
  intros i [[[X y] w] ids] _. done.
Qed.

Lemma total_contents (shards : list Shard) :
  length (contents shards).1.1.1 = total shards.
Proof.
  induction shards as [|s shards IH]; [done|].
  change (contents (s :: shards)) with (bapp (shard_buffers s) (contents shards)).
  change (total (s :: shards)) with (length (shard_X s) + total shards).
  unfold bapp. cbn [fst snd]. rewrite length_app, IH. done.
Qed.

Lemma select_for_unlabelled (ds : DiskDataset) (row : MetaRow)
    (rows : list MetaRow) (s : Shard) (rest : list nat) :
  itershards_row ds row = Ok s → aligned s → ¬ labelled s →
  StronglySorted (≤) rest →
  select_for ds rest 0 (row :: rows) = Raise TypeError.
Proof.
  intros Hrow (Hids & Hly & Hlw) Hlab Hsorted.
  cbn [select_for]. rewrite Hrow. cbn [mbind outcome_bind].
  pose proof (num_shard_elts_spec (0 + length (shard_X s)) rest Hsorted)
    as [Hin _]. cbv zeta in Hin.
  set (inds := (λ i, i - 0) <$> take _ rest).
  assert (Forall (λ i, i < length (shard_X s)) inds) as Hinds.
  { apply Forall_fmap. eapply Forall_impl; [exact Hin|]. simpl. intros; lia. }
  destruct (fancy_index_Ok (shard_X s) inds Hinds) as [-> _].
  cbn [mbind outcome_bind].
  destruct (shard_y s) as [y|] eqn:Hy; [|done].
  cbn [index_present].
  destruct (fancy_index_Ok y inds) as [-> _]; [by rewrite (Hly y eq_refl)|].
  cbn [mbind outcome_bind].
  destruct (shard_w s) as [w|] eqn:Hw; [|done].
  destruct Hlab. split; by eexists.
Qed.

(** X9: On a dataset whose shards all have labels and weights, with as many
    rows as X has, [select] copies the rows at the given positions, counted
    through the shards in order, to a new dataset with the same task names:
    the rows come in increasing order of position whatever the order of
    [indices], a position listed several times gives its row as often, and a
    position beyond the last row is passed over without an error.  The new
    dataset has one shard for every shard read, which may hold no row, and
    no shard is read after the last index has been served.  For an empty
    list of indices the new dataset has no shard and no task name, whatever
    the dataset holds.  The generator indexes the labels and the weights
    without a test for None: when the first shard lacks either, the call
    raises TypeError for every list of indices that is not empty. *)
Theorem select_rows_in_increasing_order
    (ds : DiskDataset) (indices : list nat) (select_dir : directory)
    (shards : list Shard) :
  itershards ds = Ok shards → Forall aligned shards →
  (indices ≠ [] → Forall labelled shards →
   ∃ ds' shards',
     select ds indices select_dir = Ok ds'
     ∧ tasks ds' = tasks ds
     ∧ itershards ds' = Ok shards'
     ∧ contents shards'
       = select_rows (contents shards)
           (filter (λ i, i < total shards) (merge_sort (≤) indices))
     ∧ length shards' ≤ length shards
     ∧ (Forall (λ i, i < total shards) indices →
        contents shards' = select_rows (contents shards) (merge_sort (≤) indices)
        ∧ total shards' = length indices))
  ∧ (∃ ds', select ds [] select_dir = Ok ds'
            ∧ tasks ds' = [] ∧ get_number_shards ds' = 0)
  ∧ (indices ≠ [] → ∀ s rest, shards = s :: rest → ¬ labelled s →
     select ds indices select_dir = Raise TypeError).
Proof.
  intros Hit Hal. split; [|split].
  - intros Hne Hlab. unfold select.
    rewrite decide_False by (by destruct indices).
    assert (Forall2 (λ row s, itershards_row ds row = Ok s ∧ labelled s ∧ aligned s)
              (metadata_df ds) shards) as HF.
    { apply mapM_Ok_Forall2 in Hit.
      apply Forall2_same_length_lookup_2; [by eapply Forall2_length|].
      intros i row s Hrow Hs. split; [|split].
      - exact (Forall2_lookup_lr _ _ _ _ _ _ Hit Hrow Hs).
      - by eapply Forall_lookup_1.
      - by eapply Forall_lookup_1. }
    destruct (select_for_spec ds (metadata_df ds) shards
                (merge_sort (≤) indices) 0 HF) as (out & -> & Hflat & Hlen).
    { apply StronglySorted_merge_sort; apply _. }
    { apply Forall_forall. intros; lia. }
    cbn [mbind outcome_bind]. rewrite buffers_raw_to_raw. unfold get_task_names.
    destruct (create_dataset_stored (buffers_shard <$> out) select_dir (tasks ds))
      as (ds' & -> & Ht & Hst).
    apply stored_read in Hst as [Hit' _].
    assert (contents (buffers_shard <$> out)
            = select_rows (contents shards)
                (filter (λ i, i < total shards) (merge_sort (≤) indices))) as Hc.
    { rewrite contents_buffers, Hflat. f_equal.
      rewrite (list_fmap_ext (λ i, i - 0) (λ i, i)) by (intros; simpl; lia).
      by rewrite list_fmap_id. }
    exists ds', (buffers_shard <$> out).
    split; [done|]. split; [done|]. split; [done|]. split; [done|].
    split; [by rewrite length_fmap|].
    intros Hin.
    assert (filter (λ i, i < total shards) (merge_sort (≤) indices)
            = merge_sort (≤) indices) as Hall.
    { assert (Forall (λ i, i < total shards) (merge_sort (≤) indices)) as Hs.
      { by rewrite merge_sort_Permutation. }
      clear -Hs. induction Hs as [|i l Hi _ IHs]; [done|].
      rewrite filter_cons, IHs. by rewrite decide_True by lia. }
    rewrite Hall in Hc. split; [done|].
    rewrite <-total_contents, Hc. unfold select_rows. simpl.
    rewrite reorder_length.
    + by rewrite merge_sort_Permutation.
    + rewrite total_contents, merge_sort_Permutation. done.
  - unfold select. simpl.
    eexists. split; [reflexivity|]. done.
  - intros Hne s rest -> Hlab. unfold select.
    rewrite decide_False by (by destruct indices).
    apply mapM_Ok_Forall2 in Hit.
    destruct (metadata_df ds) as [|row rows]; [by inversion Hit|].
    apply Forall2_cons in Hit as [Hrow _].
    apply Forall_cons in Hal as [Hs _].
    rewrite (select_for_unlabelled ds row rows s _ Hrow Hs Hlab); [done|].
    apply StronglySorted_merge_sort; apply _.
Qed.

Lemma select_rows_in_increasing_order_witness :
  (∃ ds' shards',
     select four_shards [6; 1; 9; 6; 0] empty_directory = Ok ds'
     ∧ itershards ds' = Ok shards'
     ∧ (contents shards').2
       = [Obj "a"; Obj "a'"; Obj "d"; Obj "d"])
  ∧ select three_shards [6; 1] empty_directory = Raise TypeError.
Proof.
  split.
  - destruct (select_rows_in_increasing_order four_shards [6; 1; 9; 6; 0]
                empty_directory four_shards_read eq_refl
                ltac:(repeat constructor; simpl; intros ? [= <-]; reflexivity))
      as (H & _).
    destruct H as (ds' & shards' & Hs & _ & Hit & Hc & _).
    + discriminate.
    + repeat constructor; by eexists.
    + exists ds', shards'. split; [exact Hs|]. split; [exact Hit|].
      rewrite Hc. reflexivity.
  - destruct (select_rows_in_increasing_order three_shards [6; 1]
                empty_directory three_shards_read eq_refl three_shards_aligned)
      as (_ & _ & H).
    eapply H; [discriminate|reflexivity|].
    intros [_ [w Hw]]. discriminate Hw.
Defined.

(** ** set_shard on a dataset with this layout *)

Lemma set_shard_eq (ds : DiskDataset) (shard_num : nat) (X y w ids : option ndarray) :
  set_shard ds shard_num X y w ids =
  {| data_dir := (write_data_to_disk (data_dir ds) (shard_basename shard_num)
                    (tasks ds) X y w ids).1;
     tasks := tasks ds; metadata_df := metadata_df ds |}.
Proof.
  unfold set_shard, get_task_names.
  by destruct (write_data_to_disk _ _ _ _ _ _ _).
Qed.

(** X17: [set_shard(shard_num, ...)] replaces the shard whose metadata row has the
    basename "shard-<shard_num>", wherever that row stands in the table: at
    position [shard_num] on a dataset as [create_dataset] leaves it, and at
    the position the row has been moved to after [shuffle_shards].  The
    other shards are read as before.  The metadata row is not written again,
    so the new shard must have labels and weights exactly where the old one
    has them. *)
Theorem set_shard_replaces_named_shard
    (ds : DiskDataset) (nums : list nat) (shards : list Shard)
    (shard_num position : nat) (s s' : Shard) :
  stored ds nums shards →
  nums !! position = Some shard_num → shards !! position = Some s →
  (is_Some (shard_y s') ↔ is_Some (shard_y s)) →
  (is_Some (shard_w s') ↔ is_Some (shard_w s)) →
  let ds' := set_shard ds shard_num (Some (shard_X s')) (shard_y s')
               (shard_w s') (Some (shard_ids s')) in
  get_shard ds' position = Ok s'
  ∧ itershards ds' = Ok (<[position := s']> shards)
  ∧ (∀ i, i ≠ position → get_shard ds' i = get_shard ds i)
  ∧ stored ds' nums (<[position := s']> shards).
Proof.
  intros Hst Hn Hs Hy Hw ds'.
  pose proof (stored_overwrite ds nums shards position shard_num s s'
                Hst Hn Hs Hy Hw) as Hst'.
  cbv zeta in Hst'. subst ds'. rewrite set_shard_eq.
  set (ds' := {| data_dir := _; tasks := tasks ds; metadata_df := metadata_df ds |})
    in *.
  destruct (stored_read _ _ _ Hst') as [Hit Hall].
  destruct (stored_read _ _ _ Hst) as [_ Hall0].
  split; [|split; [done|split; [|done]]].
  - apply (all_shards_lookup _ _ _ _ Hall).
    apply list_lookup_insert_eq. by eapply lookup_lt_Some.
  - intros i Hi. destruct (shards !! i) as [t|] eqn:Ht.
    + rewrite (all_shards_lookup _ _ _ _ Hall0 Ht).
      apply (all_shards_lookup _ _ _ _ Hall).
      by rewrite list_lookup_insert_ne.
    + rewrite !get_shard_unfold.
      assert (metadata_df ds !! i = None) as Hnone.
      { apply lookup_ge_None. rewrite (stored_length _ _ _ Hst).
        by apply lookup_ge_None. }
      change (metadata_df ds') with (metadata_df ds). by rewrite Hnone.
Qed.

Lemma set_shard_replaces_named_shard_witness :
  get_shard (set_replacement (shuffle_shards rotating four_shards) 0) 3
  = Ok replacement.
Proof.
  refine (proj1 (set_shard_replaces_named_shard
                   (shuffle_shards rotating four_shards) [1; 2; 3; 0]
                   (reorder [1; 2; 3; 0] four_shards_read) 0 3 _ replacement
                   shuffled_four_shards_stored eq_refl eq_refl _ _)).
  - split; intros _; by eexists.
  - split; intros _; by eexists.
Defined.

(** ** reshard with shard size 0 *)

Lemma reshard_while_zero (fuel : nat) (b : buffers) :
  b.1.1.1 ≠ [] → reshard_while fuel 0 b = Diverge.
Proof.
  revert b. induction fuel as [|fuel IH]; intros [[[X y] w] ids] HX.
  - cbn [reshard_while]. cbn [fst snd] in HX.
    rewrite decide_True; [done|]. destruct X; [done|simpl; lia].
  - cbn [reshard_while]. cbn [fst snd] in HX.
    rewrite decide_True by (destruct X; [done|simpl; lia]).
    rewrite !drop_0, IH by done. done.
Qed.

(** [np.vstack] takes the array [a] on a buffer of [n_tasks] columns: its
    rows have [n_tasks] entries, or it is None and there is one task, so
    that the row [[None]] fits. *)
Definition stacks (n_tasks : nat) (a : option ndarray) : Prop :=
  match a with
  | Some a => fits n_tasks a
  | None => n_tasks = 1
  end.

Lemma vstack_stacks (n_tasks : nat) (a_next : ndarray) (a : option ndarray) :
  stacks n_tasks a → ∃ rows, vstack n_tasks a_next a = Ok (a_next ++ rows).
Proof.
  destruct a as [a|]; simpl.
  - intros Ha. exists a. by apply vstack_fits.
  - intros ->. by exists [Objs [PyNone]].
Qed.

(** X10: With shard size 0, [reshard] never returns on a dataset whose first
    shard has a row and arrays that the buffers of the generator take: the
    rows of X have one width, the labels and the weights have one column
    per task, or are absent when there is one task, and the ids are
    one-dimensional.  The buffer of the generator is then longer than the
    shard size, the inner loop yields an empty shard and leaves the buffer
    as it is, round after round. *)
Theorem reshard_size_zero_never_returns
    (ds : DiskDataset) (row : MetaRow) (rows : list MetaRow) (s : Shard)
    (width : nat) :
  metadata_df ds = row :: rows → itershards_row ds row = Ok s →
  shard_X s ≠ [] → fits width (shard_X s) →
  stacks (length (tasks ds)) (shard_y s) →
  stacks (length (tasks ds)) (shard_w s) →
  flat_array (shard_ids s) →
  reshard ds 0 = Diverge.
Proof.
  intros Hrows Hrow HX HsX Hsy Hsw Hsids.
  pose proof (itershards_row_parts _ _ _ Hrow) as (HXl & _ & _).
  assert (reshard_generator ds 0 = Diverge) as Hgen.
  { unfold reshard_generator, get_data_shape, first_row. rewrite Hrows.
    cbn [head of_option mbind outcome_bind]. rewrite HXl.
    cbn [mbind outcome_bind].
    destruct (shard_X s) as [|x X] eqn:HXs; [done|].
    cbn [lookup list_lookup of_option mbind outcome_bind].
    rewrite (fits_cell_shape width (x :: X) x HsX eq_refl).
    cbn [zeros_buffer reshard_for]. rewrite Hrow. cbn [mbind outcome_bind].
    rewrite HXs, (vstack_fits _ _ _ HsX). cbn [mbind outcome_bind].
    unfold get_task_names.
    destruct (vstack_stacks _ [] _ Hsy) as [y ->]. cbn [mbind outcome_bind].
    destruct (vstack_stacks _ [] _ Hsw) as [w ->]. cbn [mbind outcome_bind].
    rewrite (concatenate_flat _ _ Hsids). cbn [mbind outcome_bind].
    rewrite reshard_while_zero; done. }
  unfold reshard. by rewrite Hgen.
Qed.

Lemma reshard_size_zero_never_returns_witness : reshard three_shards 0 = Diverge.
Proof.
  eapply (reshard_size_zero_never_returns three_shards _ _ _ 1).
  - vm_compute. reflexivity.
  - vm_compute. reflexivity.
  - discriminate.
  - repeat constructor.
  - repeat constructor.
  - reflexivity.
  - repeat constructor.
Defined.

(** ** A dataset without shards *)

(** X11: On a dataset whose metadata table has no row, a pass over the shards,
    the batches or the samples yields nothing and the length is 0, while
    [get_data_shape], [get_shard_size] and with them [reshard] raise
    ValueError and [get_shard] raises IndexError; [shuffle_each_shard] and
    [select] have nothing to do. *)
Theorem dataset_without_shards
    (ds : DiskDataset) (rng : RandomState) (batch_size : option nat)
    (deterministic pad_batches : bool) (shard_size i : nat)
    (indices : list nat) (select_dir : directory) :
  metadata_df ds = [] →
  len ds = Ok 0
  ∧ itershards ds = Ok []
  ∧ itersamples ds = Ok []
  ∧ iterbatches ds batch_size deterministic pad_batches rng = Ok []
  ∧ get_shard ds i = Raise IndexError
  ∧ get_data_shape ds = Raise ValueError
  ∧ get_shard_size ds = Raise ValueError
  ∧ reshard ds shard_size = Raise ValueError
  ∧ shuffle_each_shard rng ds = Ok ds
  ∧ ∃ ds', select ds indices select_dir = Ok ds' ∧ get_number_shards ds' = 0.
Proof.
  intros Hrows.
  unfold len, itershards, itersamples, iterbatches, get_shard, get_data_shape,
    get_shard_size, reshard, reshard_generator, get_data_shape, first_row,
    shuffle_each_shard, get_number_shards.
  rewrite Hrows. do 9 (split; [reflexivity|]).
  unfold select. case_decide.
  - eexists. split; reflexivity.
  - rewrite Hrows. eexists. split; reflexivity.
Qed.

Lemma dataset_without_shards_witness :
  len (created []) = Ok 0 ∧ reshard (created []) 3 = Raise ValueError.
Proof.
  pose proof (dataset_without_shards (created []) rotating None true false 3 0
                [] empty_directory eq_refl) as (H1 & _ & _ & _ & _ & _ & _ & H2 & _).
  split; [exact H1|exact H2].
Defined.

End DiskDatasetOpsFacts.

(** * Padding at prediction time *)

Module PadGraphsFacts.
Import SingletaskGraphClassifier.

(** The first [k] rows of the endless repetition of [X_b]. *)
Definition wrap_around {A} (X_b : list A) (k : nat) : list A :=
  omap (λ i, X_b !! (i mod length X_b)) (seq 0 k).

Lemma wrap_around_step {A} (X_b : list A) (start increment : nat) :
  start mod length X_b = 0 → increment ≤ length X_b →
  omap (λ i, X_b !! (i mod length X_b)) (seq start increment)
  = take increment X_b.
Proof.
  intros Hstart. induction increment as [|k IH]; intros Hk; [done|].
  destruct (lookup_lt_is_Some_2 X_b k ltac:(lia)) as [x Hx].
  rewrite seq_S, omap_app, IH by lia. rewrite (take_S_r _ _ _ Hx).
  f_equal. cbn [omap list_omap].
  assert ((start + k) mod length X_b = k) as ->.
  { rewrite Nat.Div0.add_mod, Hstart, Nat.add_0_l, Nat.Div0.mod_mod.
    apply Nat.mod_small. lia. }
  by rewrite Hx.
Qed.

Lemma wrap_around_app {A} (X_b : list A) (start increment : nat) :
  start mod length X_b = 0 → increment ≤ length X_b →
  wrap_around X_b (start + increment) = wrap_around X_b start ++ take increment X_b.
Proof.
  intros Hstart Hinc. unfold wrap_around.
  rewrite seq_app, omap_app, Nat.add_0_l.
  by rewrite (wrap_around_step X_b start increment).
Qed.

Lemma wrap_around_length {A} (X_b : list A) (k : nat) :
  X_b ≠ [] → length (wrap_around X_b k) = k.
Proof.
  intros Hne. unfold wrap_around.
  assert (0 < length X_b) as Hn by (destruct X_b; [done|simpl; lia]).
  induction k as [|k IH]; [done|].
  rewrite seq_S, omap_app, length_app, IH. cbn [omap list_omap Nat.add].
  destruct (lookup_lt_is_Some_2 X_b (k mod length X_b)) as [x ->].
  { apply Nat.mod_upper_bound. lia. }
  simpl. lia.
Qed.

Lemma pad_graphs_while_done (fuel batch_size : nat) (X_b X_out : ndarray)
    (start : nat) :
  ¬ start < batch_size →
  pad_graphs_while fuel batch_size X_b X_out start = Ok X_out.
Proof. intros H. destruct fuel; simpl; by rewrite decide_False. Qed.

Lemma pad_graphs_while_spec (fuel batch_size : nat) (X_b X_out : ndarray)
    (start : nat) :
  X_b ≠ [] → start mod length X_b = 0 → start ≤ batch_size →
  batch_size - start ≤ fuel → length X_out = batch_size →
  take start X_out = wrap_around X_b start →
  pad_graphs_while fuel batch_size X_b X_out start
  = Ok (wrap_around X_b batch_size).
Proof.
  intros Hne.
  assert (0 < length X_b) as Hn by (destruct X_b; [done|simpl; lia]).
  revert X_out start.
  induction fuel as [|fuel IH]; intros X_out start Hmod Hle Hfuel Hlen Htake.
  - assert (start = batch_size) as -> by lia.
    rewrite pad_graphs_while_done by lia.
    by rewrite <-Htake, take_ge by lia.
  - destruct (decide (start < batch_size)) as [Hlt|Hge].
    2:{ assert (start = batch_size) as -> by lia.
        rewrite pad_graphs_while_done by lia.
        by rewrite <-Htake, take_ge by lia. }
    cbn [pad_graphs_while]. rewrite decide_True by done.
    destruct (decide (batch_size - start < length X_b)) as [Hlast|Hfull].
    + rewrite pad_graphs_while_done by lia.
      unfold assign_slice.
      rewrite drop_ge, app_nil_r, Htake by lia.
      rewrite <-wrap_around_app by (done || lia).
      by replace (start + (batch_size - start)) with batch_size by lia.
    + apply IH.
      * rewrite Nat.Div0.add_mod, Hmod, Nat.Div0.mod_same.
        apply Nat.Div0.mod_0_l.
      * lia.
      * lia.
      * unfold assign_slice.
        rewrite !length_app, !length_take, length_drop. lia.
      * unfold assign_slice. rewrite app_assoc.
        rewrite take_app_length'.
        -- rewrite Htake, firstn_all. rewrite <-(firstn_all X_b) at 2.
           by rewrite <-wrap_around_app.
        -- rewrite length_app, !length_take. lia.
Qed.

Lemma pad_graphs_while_empty (fuel batch_size : nat) (X_out : ndarray) :
  0 < batch_size → pad_graphs_while fuel batch_size [] X_out 0 = Diverge.
Proof.
  intros Hb. revert X_out. induction fuel as [|fuel IH]; intros X_out.
  - simpl. by rewrite decide_True.
  - cbn [pad_graphs_while]. rewrite decide_True by done.
    cbn [length]. rewrite decide_False by lia.
    unfold assign_slice. cbn [take drop Nat.add app].
    apply IH.
Qed.

Lemma wrap_around_same {A} (X_b : list A) : wrap_around X_b (length X_b) = X_b.
Proof.
  destruct (decide (length X_b = 0)) as [Hn|Hn].
  - apply nil_length_inv in Hn as ->. done.
  - change (wrap_around X_b (length X_b))
      with (wrap_around X_b (0 + length X_b)).
    rewrite wrap_around_app, firstn_all; [done|by apply Nat.Div0.mod_0_l|done].
Qed.

(** X12: [pad_graphs] makes a batch of exactly [batch_size] rows out of a batch
    that has a row: row [i] of the result is row [i mod len(X_b)] of [X_b],
    so a batch that is too short is filled up by repeating its rows from the
    first one on, a batch of the right size is returned as it is, and a
    batch that is too long loses the rows from [batch_size] on.  On a batch
    without rows the loop never advances: the call does not return for any
    batch size other than 0. *)
Theorem pad_graphs_repeats_rows (batch_size : nat) (X_b : ndarray) :
  (X_b ≠ [] →
   pad_graphs batch_size X_b = Ok (wrap_around X_b batch_size)
   ∧ length (wrap_around X_b batch_size) = batch_size
   ∧ (batch_size ≤ length X_b → wrap_around X_b batch_size = take batch_size X_b)
   ∧ (length X_b ≤ batch_size →
      take (length X_b) (wrap_around X_b batch_size) = X_b))
  ∧ (0 < batch_size → pad_graphs batch_size [] = Diverge).
Proof.
  split.
  - intros Hne.
    assert (0 < length X_b) as Hn by (destruct X_b; [done|simpl; lia]).
    split; [|split; [by apply wrap_around_length|split]].
    + unfold pad_graphs. case_decide as Heq.
      * by rewrite <-Heq, wrap_around_same.
      * apply pad_graphs_while_spec; try done.
        -- by apply Nat.Div0.mod_0_l.
        -- lia.
        -- lia.
        -- unfold zeros_out. destruct X_b; [done|]. by rewrite length_replicate.
    + intros Hle.
      change (wrap_around X_b batch_size) with (wrap_around X_b (0 + batch_size)).
      rewrite wrap_around_app; [done|by apply Nat.Div0.mod_0_l|done].
    + intros Hle.
      replace batch_size with (length X_b + (batch_size - length X_b)) by lia.
      unfold wrap_around. rewrite seq_app, omap_app.
      fold (wrap_around X_b (length X_b)). rewrite wrap_around_same.
      by rewrite take_app_length.
  - intros Hb. unfold pad_graphs. cbn [length].
    rewrite decide_False by lia. by apply pad_graphs_while_empty.
Qed.

Lemma pad_graphs_repeats_rows_witness :
  pad_graphs 5 [Num 1%Q; Num 2%Q] = Ok [Num 1%Q; Num 2%Q; Num 1%Q; Num 2%Q; Num 1%Q]
  ∧ pad_graphs 3 [] = Diverge.
Proof.
  destruct (pad_graphs_repeats_rows 5 [Num 1%Q; Num 2%Q]) as [H _].
  destruct (pad_graphs_repeats_rows 3 []) as [_ H'].
  split.
  - exact (proj1 (H ltac:(discriminate))).
  - apply H'. lia.
Defined.

End PadGraphsFacts.

(** * Properties of the further transformer code *)

Module TransformerOpsFacts.
Import Float Transformers TransformerOps TransformerFacts.

(** ** Clipping *)

(** What clipping with a bound [c >= 0] makes of an entry. *)
Definition clamped (c : R) (x x' : float) : Prop :=
  match x with
  | Fin r => x' = Fin (Rmax (- c) (Rmin r c))
  | PInf => x' = Fin c
  | NInf => x' = Fin (- c)
  | NaN => x' = NaN
  end.

Lemma minus_one_times (c : R) : (-1 * c)%R = (- c)%R.
Proof. lra. Qed.

Lemma clip_clamped (c : R) (x : float) : (0 <= c)%R → clamped c x (clip (Fin c) x).
Proof.
  intros Hc. unfold clip, lt, gt, clamped, mul, Rmax, Rmin.
  rewrite minus_one_times.
  destruct x as [r| | |].
  - destruct (Rlt_dec c r); [destruct (Rlt_dec c (- c))|destruct (Rlt_dec r (- c))];
      destruct (Rle_dec r c); destruct (Rle_dec (- c) r);
      destruct (Rle_dec (- c) c); try (f_equal; lra); try lra.
  - destruct (Rlt_dec c (- c)); [lra|done].
  - done.
  - done.
Qed.

(** With a bound [c < 0] the two assignments leave [-c] in every entry that
    is not NaN. *)
Lemma clip_negative_bound (c : R) (x : float) :
  (c < 0)%R → clip (Fin c) x = match x with NaN => NaN | _ => Fin (- c) end.
Proof.
  intros Hc. unfold clip, lt, gt, mul. rewrite minus_one_times.
  destruct x as [r| | |]; try done.
  - destruct (Rlt_dec c r).
    + destruct (Rlt_dec c (- c)); [done|lra].
    + destruct (Rlt_dec r (- c)); [done|lra].
  - destruct (Rlt_dec c (- c)); [done|lra].
Qed.

Lemma clip_idempotent (m x : float) : clip m (clip m x) = clip m x.
Proof.
  destruct m as [c| | |].
  - destruct (Rle_lt_dec 0 c) as [Hc|Hc].
    + pose proof (clip_clamped c x Hc) as H1.
      pose proof (clip_clamped c (clip (Fin c) x) Hc) as H2.
      destruct x as [r| | |]; simpl in H1; rewrite H1 in H2 |- *; simpl in H2;
        rewrite H2; try done; f_equal; unfold Rmax, Rmin;
        repeat (destruct (Rle_dec _ _)); lra.
    + rewrite !clip_negative_bound by done.
      by destruct x.
  - unfold clip, lt, gt, mul. rewrite sgn_neg by lra. simpl.
    by destruct x.
  - unfold clip, lt, gt, mul. rewrite sgn_neg by lra. simpl.
    by destruct x.
  - unfold clip, lt, gt, mul. by destruct x.
Qed.

Lemma map_matrix_Forall2 (f : float → float) (P : float → float → Prop)
    (M : matrix) :
  (∀ x, P x (f x)) → Forall2 (Forall2 P) M (map_matrix f M).
Proof.
  intros H. unfold map_matrix.
  apply Forall2_fmap_r, Forall_Forall2_diag, Forall_forall. intros row _.
  apply Forall2_fmap_r, Forall_Forall2_diag, Forall_forall. intros x _. apply H.
Qed.

Lemma map_matrix_idempotent (f : float → float) (M : matrix) :
  (∀ x, f (f x) = f x) → map_matrix f (map_matrix f M) = map_matrix f M.
Proof.
  intros H. unfold map_matrix. rewrite <-list_fmap_compose.
  apply list_fmap_ext. intros i row _. simpl.
  rewrite <-list_fmap_compose. apply list_fmap_ext. intros j x _. apply H.
Qed.

(** X13: [ClippingTransformer.transform_array] with [transform_X] set and a bound
    [x_max = c >= 0] puts every entry of X into the range from [-c] to [c]:
    an entry in the range is kept, an entry above it, also infinity, becomes
    [c], an entry below it becomes [-c], and NaN stays NaN; y and w are
    returned as they are.  Clipping a second time changes nothing, whatever
    the bound.  With a negative bound every entry that is not NaN becomes
    [-c]. *)
Theorem clipping_clamps_entries
    (self : ClippingTransformer.t) (X y w : matrix) (c : R) :
  ClippingTransformer.x_max self = Fin c →
  transform_X (ClippingTransformer.base self) = true →
  transform_y (ClippingTransformer.base self) = false →
  ∃ X',
    Clipping.transform_array self X y w = (X', y, w)
    ∧ Clipping.transform_array self X' y w = (X', y, w)
    ∧ ((0 <= c)%R → Forall2 (Forall2 (clamped c)) X X')
    ∧ ((c < 0)%R →
       Forall2 (Forall2 (λ x x', x' = match x with NaN => NaN | _ => Fin (- c) end))
               X X').
Proof.
  intros Hmax HX Hy. unfold Clipping.transform_array. rewrite HX, Hy, Hmax.
  eexists. split; [reflexivity|]. split; [|split].
  - by rewrite map_matrix_idempotent by apply clip_idempotent.
  - intros Hc. apply map_matrix_Forall2. intros x. by apply clip_clamped.
  - intros Hc. apply map_matrix_Forall2. intros x. by apply clip_negative_bound.
Qed.

Lemma clipping_clamps_entries_witness :
  Clipping.transform_array
    (ClippingTransformer.mk (mkTransformer true false false) (Fin 5) (Fin 500))
    [[Fin 7; Fin (-9); Fin 2; PInf; NaN]] [[Fin 1000]] []
  = ([[Fin 5; Fin (-5); Fin 2; Fin 5; NaN]], [[Fin 1000]], []).
Proof.
  destruct (clipping_clamps_entries
              (ClippingTransformer.mk (mkTransformer true false false) (Fin 5) (Fin 500))
              [[Fin 7; Fin (-9); Fin 2; PInf; NaN]] [[Fin 1000]] [] 5
              eq_refl eq_refl eq_refl) as (X' & -> & _ & Hc & _).
  specialize (Hc ltac:(lra)).
  apply Forall2_cons_inv_l in Hc as (row & rest & Hrow & Hrest & ->).
  apply Forall2_nil_inv_l in Hrest as ->.
  apply Forall2_cons_inv_l in Hrow as (x0 & r0 & H0 & Hrow & ->).
  apply Forall2_cons_inv_l in Hrow as (x1 & r1 & H1 & Hrow & ->).
  apply Forall2_cons_inv_l in Hrow as (x2 & r2 & H2 & Hrow & ->).
  apply Forall2_cons_inv_l in Hrow as (x3 & r3 & H3 & Hrow & ->).
  apply Forall2_cons_inv_l in Hrow as (x4 & r4 & H4 & Hrow & ->).
  apply Forall2_nil_inv_l in Hrow as ->.
  simpl in H0, H1, H2, H3, H4. subst.
  assert (Rmax (Ropp 5) (Rmin 7 5) = 5%R) as ->.
  { unfold Rmax, Rmin. repeat (destruct (Rle_dec _ _)); lra. }
  assert (Rmax (Ropp 5) (Rmin (-9) 5) = (-5)%R) as ->.
  { unfold Rmax, Rmin. repeat (destruct (Rle_dec _ _)); lra. }
  assert (Rmax (Ropp 5) (Rmin 2 5) = 2%R) as ->.
  { unfold Rmax, Rmin. repeat (destruct (Rle_dec _ _)); lra. }
  reflexivity.
Defined.

(** ** undo_transforms *)

Lemma foldl_bind {A B} (f : A → B → outcome A) (c : outcome A) (l : list B) :
  foldl (λ acc b, a ← acc; f a b) c l
  = c ≫= λ a, foldl (λ acc b, a ← acc; f a b) (Ok a) l.
Proof.
  destruct c as [a|e|]; [done| |]; simpl.
  - induction l as [|b l IH]; simpl; [done|]. exact IH.
  - induction l as [|b l IH]; simpl; [done|]. exact IH.
Qed.

Lemma undo_transforms_app (y : option matrix) (trs1 trs2 : list transformer) :
  undo_transforms y (trs1 ++ trs2)
  = undo_transforms y trs2 ≫= λ y', undo_transforms y' trs1.
Proof.
  unfold undo_transforms. rewrite reverse_app, foldl_app.
  apply (foldl_bind (λ y tr, if transform_y_of tr then untransform tr y else Ok y)).
Qed.

Lemma undo_transforms_one (y : option matrix) (tr : transformer) :
  undo_transforms y [tr]
  = if transform_y_of tr then untransform tr y else Ok y.
Proof. reflexivity. Qed.

Lemma bind_Ok_r {A} (c : outcome A) : c ≫= Ok = c.
Proof. by destruct c. Qed.

Lemma bind_ext {A B} (f g : A → outcome B) (c : outcome A) :
  (∀ a, f a = g a) → c ≫= f = c ≫= g.
Proof. intros H. destruct c; simpl; [apply H|done..]. Qed.

Lemma undo_transforms_cons (y : option matrix) (tr : transformer)
    (trs : list transformer) :
  undo_transforms y (tr :: trs)
  = undo_transforms y trs ≫= λ y', undo_transforms y' [tr].
Proof. apply (undo_transforms_app y [tr] trs). Qed.

Lemma undo_transforms_filter (y : option matrix) (trs : list transformer) :
  undo_transforms y (filter (λ tr, transform_y_of tr = true) trs)
  = undo_transforms y trs.
Proof.
  induction trs as [|tr trs IH]; [done|].
  rewrite filter_cons, (undo_transforms_cons y tr trs).
  case_decide as Hy.
  - by rewrite undo_transforms_cons, IH.
  - rewrite IH. rewrite <-(bind_Ok_r (undo_transforms y trs)) at 1.
    apply bind_ext. intros y'.
    rewrite undo_transforms_one. by destruct (transform_y_of tr).
Qed.

(** X14: [undo_transforms] calls [untransform] on the transformers that transform
    y, the last of the list first, and passes the others over: the list may
    be undone piece by piece from the right, and the list that [Evaluator]
    keeps, with the transformers of y only, gives the same result as the
    whole list.  A [CDFTransformer] of y returns the labels of its reference
    dataset, so what was undone before it is lost; a [ClippingTransformer]
    of y raises NotImplementedError. *)
Theorem undo_transforms_right_to_left :
  (∀ y trs1 trs2,
     undo_transforms y (trs1 ++ trs2)
     = undo_transforms y trs2 ≫= λ y', undo_transforms y' trs1)
  ∧ (∀ y trs, undo_transforms y (output_transformers trs) = undo_transforms y trs)
  ∧ (∀ y tr trs, transform_y_of tr = false →
       undo_transforms y (tr :: trs) = undo_transforms y trs)
  ∧ (∀ y self trs1 trs2 y2,
       CDFTransformer.transform_y self = true →
       undo_transforms y trs2 = Ok y2 →
       undo_transforms y (trs1 ++ CDF self :: trs2)
       = undo_transforms (Some (CDFTransformer.y self)) trs1)
  ∧ (∀ y self trs1 trs2 y2,
       transform_y (ClippingTransformer.base self) = true →
       undo_transforms y trs2 = Ok y2 →
       undo_transforms y (trs1 ++ Clipping self :: trs2)
       = Raise NotImplementedError).
Proof.
  split; [exact undo_transforms_app|]. split; [|split; [|split]].
  - intros y trs. unfold output_transformers. case_decide as Hlen.
    + apply undo_transforms_filter.
    + by destruct trs; [|simpl in Hlen; lia].
  - intros y tr trs Hy. rewrite undo_transforms_cons.
    rewrite <-(bind_Ok_r (undo_transforms y trs)) at 2.
    apply bind_ext. intros y'.
    by rewrite undo_transforms_one, Hy.
  - intros y self trs1 trs2 y2 Hy H2.
    rewrite undo_transforms_app, undo_transforms_cons, H2. simpl.
    rewrite undo_transforms_one. simpl. by rewrite Hy.
  - intros y self trs1 trs2 y2 Hy H2.
    rewrite undo_transforms_app, undo_transforms_cons, H2. simpl.
    rewrite undo_transforms_one. simpl. by rewrite Hy.
Qed.

(** X15: [undo_transforms] with a single [NormalizationTransformer] of y
    gives back the labels that its [transform_array] has normalised, within
    the tolerances of [np.allclose] (relative [10^-5], absolute [10^-8]):
    for labels of magnitude at most [10^100], means of magnitude at most
    [10^6] and standard deviations that are 0, which the constructor
    replaces by 1, or at least [10^-100] in magnitude. *)
Theorem undo_transforms_recovers_normalized_labels
    (M : list (list R)) (ms ss : list R) (X w : matrix)
    (X_statistics : list float * list float) :
  Forall (λ row, length row = length ms) M → length ms = length ss →
  Forall (Forall moderate) M → Forall moderate_mean ms →
  Forall (λ s, s = 0%R ∨ moderate_std s) ss →
  ∃ self y_t y',
    NormalizationTransformer.init false true false X_statistics
      (Fin <$> ms, Fin <$> ss) = Ok self
    ∧ NormalizationTransformer.transform_array self X (finite M) w = Ok (X, y_t, w)
    ∧ undo_transforms (Some y_t) [Normalization self] = Ok (Some y')
    ∧ allclose y' (finite M).
Proof.
  intros HM Hlen Hx Hm Hs.
  destruct (normalization_y_roundtrip M ms ss X w X_statistics HM Hlen Hx Hm Hs)
    as (self & y_t & y' & Hinit & Htr & Hun & Hc).
  exists self, y_t, y'. do 2 (split; [done|]). split; [|done].
  rewrite undo_transforms_one.
  assert (transform_y (NormalizationTransformer.base self) = true) as Hy.
  { cbv in Hinit. by injection Hinit as <-. }
  simpl. by rewrite Hy.
Qed.

Lemma undo_transforms_recovers_normalized_labels_witness :
  ∃ self y_t y',
    NormalizationTransformer.init false true false ([], [])
      (Fin <$> [1%R], Fin <$> [2%R]) = Ok self
    ∧ NormalizationTransformer.transform_array self [] (finite [[3%R]; [5%R]]) []
      = Ok ([], y_t, [])
    ∧ undo_transforms (Some y_t) [Normalization self] = Ok (Some y')
    ∧ allclose y' (finite [[3%R]; [5%R]]).
Proof.
  apply (undo_transforms_recovers_normalized_labels [[3%R]; [5%R]] [1%R] [2%R]).
  - by repeat constructor.
  - reflexivity.
  - repeat constructor; unfold moderate; rewrite Rabs_pos_eq; lra.
  - repeat constructor; unfold moderate_mean; rewrite Rabs_pos_eq; lra.
  - apply Forall_cons. split; [right|constructor].
    unfold moderate_std, float_max. rewrite Rabs_pos_eq by lra.
    split; [|lra]. apply Rle_trans with 1%R; [|lra].
    rewrite <-Rinv_1. apply Rinv_le_contravar; lra.
Defined.

(** ** threshold_predictions *)

(** X16: [threshold_predictions] returns an array of the length of [y] that holds
    ones and zeros only: a one where the prediction is above the threshold,
    a zero where it is not, also where the prediction is NaN.  Raising the
    threshold never turns a zero into a one. *)
Theorem threshold_predictions_binary (y : list float) (threshold : float) :
  length (threshold_predictions y threshold) = length y
  ∧ Forall (λ v, v = Fin 0 ∨ v = Fin 1) (threshold_predictions y threshold)
  ∧ (∀ i r c, y !! i = Some (Fin r) →
       threshold_predictions y (Fin c) !! i
       = Some (if Rlt_dec c r then Fin 1 else Fin 0))
  ∧ (∀ i, y !! i = Some NaN →
       threshold_predictions y threshold !! i = Some (Fin 0))
  ∧ (∀ i r c1 c2, y !! i = Some (Fin r) → (c1 <= c2)%R →
       threshold_predictions y (Fin c2) !! i = Some (Fin 1) →
       threshold_predictions y (Fin c1) !! i = Some (Fin 1)).
Proof.
  unfold threshold_predictions.
  split; [by rewrite length_fmap|]. split; [|split; [|split]].
  - apply Forall_fmap, Forall_forall. intros x _. simpl.
    destruct (gt x threshold); auto.
  - intros i r c Hi. rewrite list_lookup_fmap, Hi. simpl.
    by destruct (Rlt_dec c r).
  - intros i Hi. by rewrite list_lookup_fmap, Hi.
  - intros i r c1 c2 Hi Hc. rewrite !list_lookup_fmap, Hi. simpl.
    destruct (Rlt_dec c2 r) as [H2|H2].
    + intros _. destruct (Rlt_dec c1 r); [done|lra].
    + intros [= H]. lra.
Qed.

End TransformerOpsFacts.
